(** * The inbox reader of arbnode (arbnode/inbox_reader.go)

    A shallow embedding of [InboxReader]: its bootstrap gate ([Start]), its
    reader loop ([run]), the reorg walker ([getPrevBlockForReorg]) and the
    query helpers, followed by the properties of the specification that
    concern them.

    The collaborators of the reader (inbox tracker, delayed bridge,
    sequencer inbox, header reader, the context and the clock) are not part
    of the file under study.  They are taken as interfaces over an abstract
    world [W]: every call may change the world, so that the answers of the
    parent chain, the effects of other goroutines and the passing of time
    are all left arbitrary. *)

From Stdlib Require Import ZArith List String Bool Lia DecimalString.
Import ListNotations.
Open Scope Z_scope.

Set Implicit Arguments.

(** ** Machine integers and big integers *)

(** [uint64] values are integers in [0, 2^64); [*big.Int] values are
    unbounded integers. *)
Definition MaxUint64 : Z := 2 ^ 64 - 1.

Definition wrap64 (z : Z) : Z := z mod 2 ^ 64.

(** [x.Uint64()] on a [*big.Int]: the low 64 bits of the magnitude. *)
Definition BigUint64 (x : Z) : Z := Z.abs x mod 2 ^ 64.

Module arbmath.
  (** Modelled from the spec: [arbmath.SaturatingUSub] is declared outside
      the file; the pacing rule [from + delay_blocks +
      max(min_blocks_to_read, 1) - 1] fixes it as subtraction floored at 0. *)
Definition SaturatingUSub (a b : Z) : Z := if a <=? b then 0 else a - b.

  (** Modelled from the spec: [arbmath.BigAddByUint] returns a fresh big
      integer, the sum of its arguments ("advance [from = current_height + 1]"). *)
Definition BigAddByUint (augend addend : Z) : Z := augend + addend.

  (** Modelled from the spec: [arbmath.BigLessThan] ("if the current height
      is below [needed_height]"). *)
Definition BigLessThan (first second : Z) : bool := first <? second.
End arbmath.

(** ** Errors *)

Inductive error : Type :=
| accumulatorNotFound
| delayedMessagesMismatch
| errorString (msg : string)
| wrapError (msg : string) (inner : error).

Fixpoint error_eqb (a b : error) : bool :=
  match a, b with
  | accumulatorNotFound, accumulatorNotFound => true
  | delayedMessagesMismatch, delayedMessagesMismatch => true
  | errorString m, errorString n => String.eqb m n
  | wrapError m i, wrapError n j => String.eqb m n && error_eqb i j
  | _, _ => false
  end.

(** [errors.Is]: the error itself or one it wraps. *)
Fixpoint errors_Is (err target : error) : bool :=
  error_eqb err target ||
  match err with
  | wrapError _ inner => errors_Is inner target
  | _ => false
  end.

(** A Go result pair [(value, error)]. *)
Inductive res (A : Type) : Type :=
| Ok (a : A)
| Err (e : error).
Arguments Ok {A} a.
Arguments Err {A} e.

(** ** Data *)

Definition Hash := Z.

Record types_Header := { Number : Z }.

(** Modelled from the spec: the header of a delayed message, [{seq_num,
    block_number, ...}]; the accessor [SeqNum()] of the source can fail, so
    the field holds its result. *)
Record L1IncomingMessageHeader := {
  BlockNumber : Z;
  SeqNum : res Z
}.

Record L1IncomingMessage := {
  Header : L1IncomingMessageHeader;
  L2msg : list Byte.byte
}.

Record DelayedInboxMessage := {
  Delayed_BeforeInboxAcc : Hash;
  Message : L1IncomingMessage
}.

(** Modelled from the spec: [{sequence_number, before_inbox_acc,
    after_inbox_acc, parent_block_number, ...}]. *)
Record SequencerInboxBatch := {
  SequenceNumber : Z;
  BeforeInboxAcc : Hash;
  AfterInboxAcc : Hash;
  ParentBlockNumber : Z
}.

Record BatchMetadata := { L1Block : Z }.

Record InboxReaderConfig := {
  DelayBlocks : Z;
  CheckDelay : Z;
  HardReorg : bool;
  MinBlocksToRead : Z
}.

Definition Millisecond : Z := 1000000.
Definition Second : Z := 1000 * Millisecond.
Definition Minute : Z := 60 * Second.

Definition DefaultInboxReaderConfig : InboxReaderConfig :=
  {| DelayBlocks := 0; CheckDelay := Minute; HardReorg := false;
     MinBlocksToRead := 1 |}.

Definition TestInboxReaderConfig : InboxReaderConfig :=
  {| DelayBlocks := 0; CheckDelay := Millisecond * 10; HardReorg := false;
     MinBlocksToRead := 1 |}.

(** ** Collaborators *)

Module InboxTracker.
Record t (W : Type) := {
    GetBatchCount : W -> res Z * W;
    GetBatchAcc : Z -> W -> res Hash * W;
    GetBatchMetadata : Z -> W -> res BatchMetadata * W;
    ReorgBatchesTo : Z -> W -> option error * W;
    AddSequencerBatches : list SequencerInboxBatch -> W -> option error * W;
    GetDelayedCount : W -> res Z * W;
    GetDelayedAcc : Z -> W -> res Hash * W;
    GetDelayedMessage : Z -> W -> res L1IncomingMessage * W;
    ReorgDelayedTo : Z -> W -> option error * W;
    AddDelayedMessages : list DelayedInboxMessage -> W -> option error * W;
    (** [txStreamer.bc.Config().ChainID] *)
    ChainID : Z
  }.
End InboxTracker.

Module DelayedBridge.
Record t (W : Type) := {
    GetMessageCount : Z -> W -> res Z * W;
    GetAccumulator : Z -> Z -> W -> res Hash * W;
    LookupMessagesInRange : Z -> Z -> W -> res (list DelayedInboxMessage) * W
  }.
End DelayedBridge.

Module SequencerInbox.
Record t (W : Type) := {
    GetBatchCount : Z -> W -> res Z * W;
    GetAccumulator : Z -> Z -> W -> res Hash * W;
    LookupBatchesInRange : Z -> Z -> W -> res (list SequencerInboxBatch) * W;
    (** [batch.Serialize(ctx, client)] *)
    Serialize : SequencerInboxBatch -> W -> res (list Byte.byte) * W
  }.
End SequencerInbox.

(** What the [select] of the pacing loop can receive. *)
Inductive Selected : Type :=
| NewHeader (latestHeader : option types_Header)
| CtxDone
| CheckDelayTimer.

Module HeaderReader.
Record t (W : Type) := {
    LastHeader : W -> res types_Header * W;
    Subscribe : W -> W;
    unsubscribe : W -> W
  }.
End HeaderReader.

(** The context, the clock and the stop-waiter, as far as the reader uses
    them. *)
Module Runtime.
Record t (W : Type) := {
    ctxErr : W -> bool * W;
    selectHeader : Z -> W -> Selected * W;
    Sleep : Z -> W -> W;
    CallIteratively : W -> W;
    ParseInitMessage : L1IncomingMessage -> res Z
  }.
End Runtime.

Record Collaborators (W : Type) := {
  tracker : InboxTracker.t W;
  delayedBridge : DelayedBridge.t W;
  sequencerInbox : SequencerInbox.t W;
  l1Reader : HeaderReader.t W;
  runtime : Runtime.t W
}.

(** ** Observable actions

    Every call to a collaborator and every write to state that other
    goroutines can see is recorded, in order. *)
Inductive Event : Type :=
| HeaderReader_LastHeader
| HeaderReader_Subscribe
| HeaderReader_unsubscribe
| LatestHeader (latestHeader : types_Header)
| Select
| CtxErr
| Sleep (d : Z)
| CallIteratively
| DelayedBridge_GetMessageCount (atBlock : Z)
| DelayedBridge_GetAccumulator (seqNum atBlock : Z)
| DelayedBridge_LookupMessagesInRange (from to : Z)
| SequencerInbox_GetBatchCount (atBlock : Z)
| SequencerInbox_GetAccumulator (seqNum atBlock : Z)
| SequencerInbox_LookupBatchesInRange (from to : Z)
| SequencerInbox_Serialize (batch : SequencerInboxBatch)
| Tracker_GetBatchCount
| Tracker_GetBatchAcc (seqNum : Z)
| Tracker_GetBatchMetadata (seqNum : Z)
| Tracker_ReorgBatchesTo (count : Z)
| Tracker_AddSequencerBatches (batches : list SequencerInboxBatch)
| Tracker_GetDelayedCount
| Tracker_GetDelayedAcc (seqNum : Z)
| Tracker_GetDelayedMessage (seqNum : Z)
| Tracker_ReorgDelayedTo (count : Z)
| Tracker_AddDelayedMessages (messages : list DelayedInboxMessage)
| StoreLastRead (block batchCount : Z)
| StoreLastSeenBatchCount (count : Z)
| SendCaughtUp
| CurrentHeightOverwritten (value : Z).

(** ** The reader and the state of a run *)

(** The fields of [InboxReader] that change; [firstMessageBlock], [config]
    and the collaborators are fixed at construction. *)
Record InboxReader := {
  caughtUp : bool;
  caughtUpChan : list bool;
  lastSeenBatchCount : Z;
  lastReadBlock : Z;
  lastReadBatchCount : Z
}.

Definition NewInboxReader : InboxReader :=
  {| caughtUp := false; caughtUpChan := []; lastSeenBatchCount := 0;
     lastReadBlock := 0; lastReadBatchCount := 0 |}.

(** [seenBatchCount] and [seenBatchCountStored] are the locals of [run]
    that its deferred closure [storeSeenBatchCount] captures. *)
Record State (W : Type) := {
  world : W;
  reader : InboxReader;
  seenBatchCount : Z;
  seenBatchCountStored : Z
}.

(** A computation either yields a value, leaves the enclosing Go function
    through [return] (with the returned value [x]), or exhausts the fuel
    that bounds its loops. *)
Inductive Outcome (X A : Type) : Type :=
| Val (a : A)
| Exit (x : X)
| OutOfFuel.
Arguments Val {X A} a.
Arguments Exit {X A} x.
Arguments OutOfFuel {X A}.

Section Monad.
Context {W : Type}.

Definition set_world (w : W) (s : State W) : State W :=
  {| world := w; reader := reader s; seenBatchCount := seenBatchCount s;
     seenBatchCountStored := seenBatchCountStored s |}.

Definition set_reader (r : InboxReader) (s : State W) : State W :=
  {| world := world s; reader := r; seenBatchCount := seenBatchCount s;
     seenBatchCountStored := seenBatchCountStored s |}.

Definition set_seenBatchCount (n : Z) (s : State W) : State W :=
  {| world := world s; reader := reader s; seenBatchCount := n;
     seenBatchCountStored := seenBatchCountStored s |}.

Definition set_seenBatchCountStored (n : Z) (s : State W) : State W :=
  {| world := world s; reader := reader s; seenBatchCount := seenBatchCount s;
     seenBatchCountStored := n |}.

(** A computation runs on a state and gives its outcome, the state it
    leaves and the actions it performed, in order. *)
Definition M (X A : Type) : Type :=
  State W -> Outcome X A * State W * list Event.

Definition ret {X A} (a : A) : M X A := fun s => (Val a, s, []).

Definition bind {X A B} (m : M X A) (k : A -> M X B) : M X B :=
  fun s =>
    match m s with
    | (Val a, s1, t1) => let '(r, s2, t2) := k a s1 in (r, s2, t1 ++ t2)
    | (Exit x, s1, t1) => (Exit x, s1, t1)
    | (OutOfFuel, s1, t1) => (OutOfFuel, s1, t1)
    end.

Definition exit {X A} (x : X) : M X A := fun s => (Exit x, s, []).

Definition outOfFuel {X A} : M X A := fun s => (OutOfFuel, s, []).

Definition modify {X} (f : State W -> State W) : M X unit :=
  fun s => (Val tt, f s, []).

Definition gets {X A} (f : State W -> A) : M X A := fun s => (Val (f s), s, []).

Definition emit {X} (ev : Event) : M X unit := fun s => (Val tt, s, [ev]).

(** A call to a collaborator: recorded, and run on the world. *)
Definition call {X A} (ev : Event) (op : W -> A * W) : M X A :=
  fun s => let (a, w) := op (world s) in (Val a, set_world w s, [ev]).

Definition callUnit {X} (ev : Event) (op : W -> W) : M X unit :=
  fun s => (Val tt, set_world (op (world s)) s, [ev]).

(** Calling a Go function that returns [(A, error)]. *)
Definition invoke {X A} (m : M error A) : M X (res A) :=
  fun s =>
    match m s with
    | (Val a, s', t) => (Val (Ok a), s', t)
    | (Exit e, s', t) => (Val (Err e), s', t)
    | (OutOfFuel, s', t) => (OutOfFuel, s', t)
    end.

(** [defer d] around a body: [d] runs when the body returns. *)
Definition defer {X A} (body : M X A) (d : M X unit) : M X A :=
  fun s =>
    match body s with
    | (OutOfFuel, s', t) => (OutOfFuel, s', t)
    | (r, s', t) => let '(_, s'', t') := d s' in (r, s'', t ++ t')
    end.
End Monad.

Arguments M W X A : clear implicits.

(** How a function's return type carries an error: [error] itself for
    functions returning [(A, error)], and [option error] ([None] is [nil])
    for [run], which also returns [nil]. *)
Class Returns (X : Type) := returnErr : error -> X.
#[global] Instance Returns_error : Returns error := fun e => e.
#[global] Instance Returns_nilable : Returns (option error) := fun e => Some e.

Declare Scope go_scope.
Delimit Scope go_scope with go.
Notation "x <- m ;; k" := (bind m (fun x => k))
  (at level 61, m at next level, right associativity) : go_scope.
Notation "' pat <- m ;; k" := (bind m (fun x => match x with pat => k end))
  (at level 61, pat pattern, m at next level, right associativity) : go_scope.
Notation "m ;; k" := (bind m (fun _ => k))
  (at level 61, right associativity) : go_scope.
(** [x, err := m; if err != nil { return err }] *)
Notation "x <-! m ;; k" :=
  (bind m (fun r => match r with Ok x => k | Err e => exit (returnErr e) end))
  (at level 61, m at next level, right associativity) : go_scope.
(** [err := m; if err != nil { return err }] *)
Definition orReturn {W X} `{Returns X} (m : M W X (option error)) : M W X unit :=
  bind m (fun r => match r with None => ret tt | Some e => exit (returnErr e) end).
Open Scope go_scope.
(** ** The reader's code *)

Section InboxReader.
Context {W : Type}.
Variable C : Collaborators W.
Variable config : InboxReaderConfig.
Variable firstMessageBlock : Z.

(** *** Calls to the collaborators *)

Section Calls.
Context {X : Type}.

Definition tracker_GetBatchCount : M W X (res Z) :=
  call Tracker_GetBatchCount (InboxTracker.GetBatchCount (tracker C)).
Definition tracker_GetBatchAcc (seqNum : Z) : M W X (res Hash) :=
  call (Tracker_GetBatchAcc seqNum) (InboxTracker.GetBatchAcc (tracker C) seqNum).
Definition tracker_GetBatchMetadata (seqNum : Z) : M W X (res BatchMetadata) :=
  call (Tracker_GetBatchMetadata seqNum)
       (InboxTracker.GetBatchMetadata (tracker C) seqNum).
Definition tracker_ReorgBatchesTo (count : Z) : M W X (option error) :=
  call (Tracker_ReorgBatchesTo count) (InboxTracker.ReorgBatchesTo (tracker C) count).
Definition tracker_AddSequencerBatches (batches : list SequencerInboxBatch)
  : M W X (option error) :=
  call (Tracker_AddSequencerBatches batches)
       (InboxTracker.AddSequencerBatches (tracker C) batches).
Definition tracker_GetDelayedCount : M W X (res Z) :=
  call Tracker_GetDelayedCount (InboxTracker.GetDelayedCount (tracker C)).
Definition tracker_GetDelayedAcc (seqNum : Z) : M W X (res Hash) :=
  call (Tracker_GetDelayedAcc seqNum) (InboxTracker.GetDelayedAcc (tracker C) seqNum).
Definition tracker_GetDelayedMessage (seqNum : Z) : M W X (res L1IncomingMessage) :=
  call (Tracker_GetDelayedMessage seqNum)
       (InboxTracker.GetDelayedMessage (tracker C) seqNum).
Definition tracker_ReorgDelayedTo (count : Z) : M W X (option error) :=
  call (Tracker_ReorgDelayedTo count) (InboxTracker.ReorgDelayedTo (tracker C) count).
Definition tracker_AddDelayedMessages (messages : list DelayedInboxMessage)
  : M W X (option error) :=
  call (Tracker_AddDelayedMessages messages)
       (InboxTracker.AddDelayedMessages (tracker C) messages).

Definition delayedBridge_GetMessageCount (atBlock : Z) : M W X (res Z) :=
  call (DelayedBridge_GetMessageCount atBlock)
       (DelayedBridge.GetMessageCount (delayedBridge C) atBlock).
Definition delayedBridge_GetAccumulator (seqNum atBlock : Z) : M W X (res Hash) :=
  call (DelayedBridge_GetAccumulator seqNum atBlock)
       (DelayedBridge.GetAccumulator (delayedBridge C) seqNum atBlock).
Definition delayedBridge_LookupMessagesInRange (from to : Z)
  : M W X (res (list DelayedInboxMessage)) :=
  call (DelayedBridge_LookupMessagesInRange from to)
       (DelayedBridge.LookupMessagesInRange (delayedBridge C) from to).

Definition sequencerInbox_GetBatchCount (atBlock : Z) : M W X (res Z) :=
  call (SequencerInbox_GetBatchCount atBlock)
       (SequencerInbox.GetBatchCount (sequencerInbox C) atBlock).
Definition sequencerInbox_GetAccumulator (seqNum atBlock : Z) : M W X (res Hash) :=
  call (SequencerInbox_GetAccumulator seqNum atBlock)
       (SequencerInbox.GetAccumulator (sequencerInbox C) seqNum atBlock).
Definition sequencerInbox_LookupBatchesInRange (from to : Z)
  : M W X (res (list SequencerInboxBatch)) :=
  call (SequencerInbox_LookupBatchesInRange from to)
       (SequencerInbox.LookupBatchesInRange (sequencerInbox C) from to).
Definition batch_Serialize (batch : SequencerInboxBatch) : M W X (res (list Byte.byte)) :=
  call (SequencerInbox_Serialize batch)
       (SequencerInbox.Serialize (sequencerInbox C) batch).

Definition l1Reader_LastHeader : M W X (res types_Header) :=
  call HeaderReader_LastHeader (HeaderReader.LastHeader (l1Reader C)).
Definition l1Reader_Subscribe : M W X unit :=
  callUnit HeaderReader_Subscribe (HeaderReader.Subscribe (l1Reader C)).
Definition l1Reader_unsubscribe : M W X unit :=
  callUnit HeaderReader_unsubscribe (HeaderReader.unsubscribe (l1Reader C)).

Definition ctx_Err : M W X bool :=
  call CtxErr (Runtime.ctxErr (runtime C)).
Definition select_newHeaders (checkDelay : Z) : M W X Selected :=
  call Select (Runtime.selectHeader (runtime C) checkDelay).
Definition time_Sleep (d : Z) : M W X unit :=
  callUnit (Sleep d) (Runtime.Sleep (runtime C) d).
Definition stopWaiter_CallIteratively : M W X unit :=
  callUnit CallIteratively (Runtime.CallIteratively (runtime C)).

(** The latest header the pass holds. *)
Definition latestHeaderIs (latestHeader : types_Header) : M W X unit :=
  emit (LatestHeader latestHeader).
End Calls.

(** *** Writes to the published counters *)

Section Stores.
Context {X : Type}.

(** [lastReadMutex.Lock(); lastReadBlock = ..; lastReadBatchCount = ..;
    lastReadMutex.Unlock()] *)
Definition storeLastRead (block batchCount : Z) : M W X unit :=
  emit (StoreLastRead block batchCount) ;;
  modify (fun s =>
    set_reader
      {| caughtUp := caughtUp (reader s);
         caughtUpChan := caughtUpChan (reader s);
         lastSeenBatchCount := lastSeenBatchCount (reader s);
         lastReadBlock := block;
         lastReadBatchCount := batchCount |} s).

Definition atomic_StoreLastSeenBatchCount (count : Z) : M W X unit :=
  emit (StoreLastSeenBatchCount count) ;;
  modify (fun s =>
    set_reader
      {| caughtUp := caughtUp (reader s);
         caughtUpChan := caughtUpChan (reader s);
         lastSeenBatchCount := count;
         lastReadBlock := lastReadBlock (reader s);
         lastReadBatchCount := lastReadBatchCount (reader s) |} s).

(** The closure [storeSeenBatchCount] of [run]. *)
Definition storeSeenBatchCount : M W X unit :=
  seenBatchCountStored <- gets (@seenBatchCountStored W) ;;
  seenBatchCount <- gets (@seenBatchCount W) ;;
  if negb (seenBatchCountStored =? seenBatchCount) then
    atomic_StoreLastSeenBatchCount seenBatchCount ;;
    modify (set_seenBatchCountStored seenBatchCount)
  else ret tt.

(** [ir.caughtUp = true; ir.caughtUpChan <- true] *)
Definition sendCaughtUp : M W X unit :=
  emit SendCaughtUp ;;
  modify (fun s =>
    set_reader
      {| caughtUp := true;
         caughtUpChan := caughtUpChan (reader s) ++ [true];
         lastSeenBatchCount := lastSeenBatchCount (reader s);
         lastReadBlock := lastReadBlock (reader s);
         lastReadBatchCount := lastReadBatchCount (reader s) |} s).
End Stores.

(** *** The reorg walker and the query helpers *)

Definition getPrevBlockForReorg (from : Z) : res Z :=
  if from <=? firstMessageBlock then
    Err (errorString "can't get older messages")
  else
    let newFrom := from - 10 in
    Ok (if newFrom <? firstMessageBlock then firstMessageBlock else newFrom).

Definition getNextBlockToRead : M W error Z :=
  delayedCount <-! tracker_GetDelayedCount ;;
  if delayedCount =? 0 then ret firstMessageBlock
  else
    msg <-! tracker_GetDelayedMessage (delayedCount - 1) ;;
    let msgBlock := BlockNumber (Header msg) in
    ret (if arbmath.BigLessThan msgBlock firstMessageBlock
         then firstMessageBlock else msgBlock).

Definition addMessages (sequencerBatches : list SequencerInboxBatch)
    (delayedMessages : list DelayedInboxMessage) : M W error bool :=
  orReturn (tracker_AddDelayedMessages delayedMessages) ;;
  err <- tracker_AddSequencerBatches sequencerBatches ;;
  match err with
  | None => ret false
  | Some e =>
      if errors_Is e delayedMessagesMismatch then ret true
      else exit e
  end.

(** The [range] loop of [GetSequencerMessageBytes]. *)
Fixpoint serializeMatching (seqNum : Z) (seqBatches : list SequencerInboxBatch)
  : M W error (list Byte.byte) :=
  match seqBatches with
  | [] => exit (errorString "sequencer batch not found")
  | batch :: rest =>
      if SequenceNumber batch =? seqNum then
        bytes <-! batch_Serialize batch ;; ret bytes
      else serializeMatching seqNum rest
  end.

Definition GetSequencerMessageBytes (seqNum : Z) : M W error (list Byte.byte) :=
  metadata <-! tracker_GetBatchMetadata seqNum ;;
  let blockNum := L1Block metadata in
  seqBatches <-! sequencerInbox_LookupBatchesInRange blockNum blockNum ;;
  serializeMatching seqNum seqBatches.

Definition GetLastReadBlockAndBatchCount (r : InboxReader) : Z * Z :=
  (lastReadBlock r, lastReadBatchCount r).

Definition GetLastSeenBatchCount (r : InboxReader) : Z := lastSeenBatchCount r.

Definition GetDelayBlocks : Z := DelayBlocks config.

(** *** The bootstrap gate *)

Definition showZ (z : Z) : string := NilZero.string_of_int (Z.to_int z).

Definition chainIdMismatch (configChainId initChainId : Z) : error :=
  errorString
    ("expected L2 chain ID " ++ showZ configChainId ++
     " but read L2 chain ID " ++ showZ initChainId ++
     " from init message in L1 inbox").

(** The polling loop of [Start], [for i := 0; ; i++]; [Val tt] is [break]. *)
Fixpoint readInitMessage (fuel : nat) (i : Z) : M W error unit :=
  match fuel with
  | O => outOfFuel
  | S fuel' =>
      batchCount <-! tracker_GetBatchCount ;;
      if batchCount >? 0 then
        message <-! tracker_GetDelayedMessage 0 ;;
        initChainId <-! ret (Runtime.ParseInitMessage (runtime C) message) ;;
        let configChainId := InboxTracker.ChainID (tracker C) in
        if negb (initChainId =? configChainId) then
          exit (chainIdMismatch configChainId initChainId)
        else ret tt
      else if i =? 30 * 10 then
        exit (errorString "failed to read init message")
      else
        time_Sleep (Millisecond * 100) ;;
        readInitMessage fuel' (i + 1)
  end.

Definition Start : M W error unit :=
  stopWaiter_CallIteratively ;;
  readInitMessage 301 0.

(** *** The reader loop *)

Definition blocksToFetch : Z := 100.

Definition neededBlockAdvance : Z :=
  wrap64 (DelayBlocks config + arbmath.SaturatingUSub (MinBlocksToRead config) 1).

(** The loop labelled [WaitForHeight]; its value is [currentHeight]. *)
Fixpoint waitForHeight (fuel : nat) (neededBlockHeight currentHeight : Z)
  : M W (option error) Z :=
  if arbmath.BigLessThan currentHeight neededBlockHeight then
    match fuel with
    | O => outOfFuel
    | S fuel' =>
        sel <- select_newHeaders (CheckDelay config) ;;
        match sel with
        | NewHeader None => exit None
        | NewHeader (Some latestHeader) =>
            latestHeaderIs latestHeader ;;
            waitForHeight fuel' neededBlockHeight (Number latestHeader)
        | CtxDone => exit None
        | CheckDelayTimer => ret currentHeight
        end
    end
  else ret currentHeight.

(** [if ir.config.DelayBlocks > 0 { ... }] *)
Definition delayWindow (currentHeight : Z) : Z :=
  if DelayBlocks config >? 0 then
    let currentHeight := currentHeight - DelayBlocks config in
    if currentHeight <? firstMessageBlock then firstMessageBlock
    else currentHeight
  else currentHeight.

(** The first block of the divergence probe; its value is
    [(missingDelayed, reorgingDelayed)]. *)
Definition probeDelayed (currentHeight : Z) : M W (option error) (bool * bool) :=
  checkingDelayedCount <-! delayedBridge_GetMessageCount currentHeight ;;
  ourLatestDelayedCount <-! tracker_GetDelayedCount ;;
  ' (checkingDelayedCount, missingDelayed) <-
    (if ourLatestDelayedCount <? checkingDelayedCount then
       ret (ourLatestDelayedCount, true)
     else if (ourLatestDelayedCount >? checkingDelayedCount) && HardReorg config then
       orReturn (tracker_ReorgDelayedTo checkingDelayedCount) ;;
       ret (checkingDelayedCount, false)
     else ret (checkingDelayedCount, false)) ;;
  if checkingDelayedCount >? 0 then
    let checkingDelayedSeqNum := checkingDelayedCount - 1 in
    l1DelayedAcc <-! delayedBridge_GetAccumulator checkingDelayedSeqNum currentHeight ;;
    dbDelayedAcc <-! tracker_GetDelayedAcc checkingDelayedSeqNum ;;
    ret (missingDelayed, negb (dbDelayedAcc =? l1DelayedAcc))
  else ret (missingDelayed, false).

(** [seenBatchCount, err = ir.sequencerInbox.GetBatchCount(ctx,
    currentHeight)] and the block that follows it; its value is
    [(checkingBatchCount, missingSequencer, reorgingSequencer)]. *)
Definition probeSequencer (currentHeight : Z) : M W (option error) (Z * bool * bool) :=
  r <- sequencerInbox_GetBatchCount currentHeight ;;
  match r with
  | Err err =>
      modify (set_seenBatchCount 0) ;;
      exit (Some err)
  | Ok seen =>
      modify (set_seenBatchCount seen) ;;
      let checkingBatchCount := seen in
      ourLatestBatchCount <-! tracker_GetBatchCount ;;
      ' (checkingBatchCount, missingSequencer) <-
        (if ourLatestBatchCount <? checkingBatchCount then
           ret (ourLatestBatchCount, true)
         else if (ourLatestBatchCount >? checkingBatchCount) && HardReorg config then
           orReturn (tracker_ReorgBatchesTo checkingBatchCount) ;;
           ret (checkingBatchCount, false)
         else ret (checkingBatchCount, false)) ;;
      if checkingBatchCount >? 0 then
        let checkingBatchSeqNum := checkingBatchCount - 1 in
        l1BatchAcc <-! sequencerInbox_GetAccumulator checkingBatchSeqNum currentHeight ;;
        dbBatchAcc <-! tracker_GetBatchAcc checkingBatchSeqNum ;;
        ret (checkingBatchCount, missingSequencer, negb (dbBatchAcc =? l1BatchAcc))
      else ret (checkingBatchCount, missingSequencer, false)
  end.

(** [from] is a pointer to a big integer.  It owns its integer, except
    after [from = currentHeight], when it shares the integer of
    [currentHeight]. *)
Inductive FromRef : Type :=
| FromOwn (value : Z)
| FromCurrentHeight.

(** The variables of a pass that the range scan reads and writes. *)
Record ScanVars := {
  currentHeight : Z;
  from : FromRef;
  missingDelayed : bool;
  reorgingDelayed : bool;
  missingSequencer : bool;
  reorgingSequencer : bool;
  readAnyBatches : bool
}.

Definition fromValue (v : ScanVars) : Z :=
  match from v with
  | FromOwn value => value
  | FromCurrentHeight => currentHeight v
  end.

(** [if from.Cmp(currentHeight) > 0 { ... }]; [None] is [break]. *)
Definition pastCurrentHeight (v : ScanVars) : option ScanVars :=
  if fromValue v >? currentHeight v then
    let reorgingDelayed := if missingDelayed v then true else reorgingDelayed v in
    let reorgingSequencer := if missingSequencer v then true else reorgingSequencer v in
    if negb reorgingDelayed && negb reorgingSequencer then None
    else
      Some {| currentHeight := currentHeight v;
              from := FromCurrentHeight;
              missingDelayed := missingDelayed v;
              reorgingDelayed := reorgingDelayed;
              missingSequencer := missingSequencer v;
              reorgingSequencer := reorgingSequencer;
              readAnyBatches := readAnyBatches v |}
  else Some v.

(** [to := from + blocksToFetch], capped at [currentHeight]. *)
Definition scanTo (v : ScanVars) : Z :=
  let to := fromValue v + blocksToFetch in
  if to >? currentHeight v then currentHeight v else to.

(** [if !ir.caughtUp && to.Cmp(currentHeight) == 0 { ... }] *)
Definition signalCaughtUp (to currentHeight : Z) : M W (option error) unit :=
  alreadyCaughtUp <- gets (fun s => caughtUp (reader s)) ;;
  if negb alreadyCaughtUp && (to =? currentHeight) then sendCaughtUp
  else ret tt.

(** [if firstBatch.SequenceNumber > 0 { ... }], started with
    [reorgingSequencer = false]; its value is [reorgingSequencer]. *)
Definition checkFirstBatch (firstBatch : SequencerInboxBatch) : M W (option error) bool :=
  if SequenceNumber firstBatch >? 0 then
    r <- tracker_GetBatchAcc (SequenceNumber firstBatch - 1) ;;
    match r with
    | Err err =>
        if errors_Is err accumulatorNotFound then ret true
        else exit (Some err)
    | Ok haveAcc => ret (negb (haveAcc =? BeforeInboxAcc firstBatch))
    end
  else ret false.

(** [for len(sequencerBatches) > 0 { ... }]: drops the batches the
    tracker already has. *)
Fixpoint skipKnownBatches (sequencerBatches : list SequencerInboxBatch)
  : M W (option error) (list SequencerInboxBatch) :=
  match sequencerBatches with
  | [] => ret []
  | batch :: rest =>
      r <- tracker_GetBatchAcc (SequenceNumber batch) ;;
      match r with
      | Err err =>
          if errors_Is err accumulatorNotFound then ret sequencerBatches
          else exit (Some err)
      | Ok haveAcc =>
          if haveAcc =? BeforeInboxAcc batch then skipKnownBatches rest
          else ret sequencerBatches
      end
  end.

(** [if len(sequencerBatches) > 0 { ... } else if missingSequencer && ...];
    its value is [(missingSequencer, reorgingSequencer, sequencerBatches)]. *)
Definition analyseSequencer (missingSequencer reorgingSequencer : bool)
    (to currentHeight : Z) (sequencerBatches : list SequencerInboxBatch)
  : M W (option error) (bool * bool * list SequencerInboxBatch) :=
  match sequencerBatches with
  | firstBatch :: _ =>
      reorgingSequencer <- checkFirstBatch firstBatch ;;
      if negb reorgingSequencer then
        sequencerBatches <- skipKnownBatches sequencerBatches ;;
        ret (false, reorgingSequencer, sequencerBatches)
      else ret (false, reorgingSequencer, sequencerBatches)
  | [] =>
      if missingSequencer && (to >=? currentHeight) then
        ret (missingSequencer, true, sequencerBatches)
      else ret (missingSequencer, reorgingSequencer, sequencerBatches)
  end.

(** [if beforeCount > 0 { ... }], started with [reorgingDelayed = false];
    its value is [reorgingDelayed]. *)
Definition checkFirstMessage (firstMsg : DelayedInboxMessage) : M W (option error) bool :=
  let beforeAcc := Delayed_BeforeInboxAcc firstMsg in
  beforeCount <-! ret (SeqNum (Header (Message firstMsg))) ;;
  if beforeCount >? 0 then
    r <- tracker_GetDelayedAcc (beforeCount - 1) ;;
    match r with
    | Err err =>
        if errors_Is err accumulatorNotFound then ret true
        else exit (Some err)
    | Ok haveAcc => ret (negb (haveAcc =? beforeAcc))
    end
  else ret false.

(** [if len(delayedMessages) > 0 { ... } else if missingDelayed && ...];
    its value is [(missingDelayed, reorgingDelayed)]. *)
Definition analyseDelayed (missingDelayed reorgingDelayed : bool)
    (to currentHeight : Z) (delayedMessages : list DelayedInboxMessage)
  : M W (option error) (bool * bool) :=
  match delayedMessages with
  | firstMsg :: _ =>
      reorgingDelayed <- checkFirstMessage firstMsg ;;
      ret (false, reorgingDelayed)
  | [] =>
      if missingDelayed && (to >=? currentHeight) then ret (missingDelayed, true)
      else ret (missingDelayed, reorgingDelayed)
  end.

Definition isEmpty {A} (l : list A) : bool :=
  match l with [] => true | _ :: _ => false end.

(** [if len(sequencerBatches) > 0 { readAnyBatches = true; ... }] *)
Definition publishRead (to : Z) (sequencerBatches : list SequencerInboxBatch)
    (readAnyBatches : bool) : M W (option error) bool :=
  match sequencerBatches with
  | [] => ret readAnyBatches
  | firstBatch :: rest =>
      let lastBatch := last rest firstBatch in
      storeLastRead (BigUint64 to) (wrap64 (SequenceNumber lastBatch + 1)) ;;
      storeSeenBatchCount ;;
      ret true
  end.

(** [if !reorgingDelayed && !reorgingSequencer && (len(delayedMessages) != 0
    || len(sequencerBatches) != 0) { ... }]; its value is
    [(reorgingDelayed, readAnyBatches)]. *)
Definition applyBundle (reorgingDelayed reorgingSequencer readAnyBatches : bool)
    (to : Z) (sequencerBatches : list SequencerInboxBatch)
    (delayedMessages : list DelayedInboxMessage)
  : M W (option error) (bool * bool) :=
  if negb reorgingDelayed && negb reorgingSequencer &&
     (negb (isEmpty delayedMessages) || negb (isEmpty sequencerBatches)) then
    delayedMismatch <-! invoke (addMessages sequencerBatches delayedMessages) ;;
    let reorgingDelayed := if delayedMismatch then true else reorgingDelayed in
    readAnyBatches <- publishRead to sequencerBatches readAnyBatches ;;
    ret (reorgingDelayed, readAnyBatches)
  else ret (reorgingDelayed, readAnyBatches).

(** [if reorgingDelayed || reorgingSequencer { from, err =
    ir.getPrevBlockForReorg(from) ... } else { from = from.Add(to,
    big.NewInt(1)) }].  [from.Add] writes the sum into the integer [from]
    points to, which is [currentHeight]'s after [from = currentHeight]. *)
Definition advance (v : ScanVars) (to : Z) : M W (option error) ScanVars :=
  if reorgingDelayed v || reorgingSequencer v then
    newFrom <-! ret (getPrevBlockForReorg (fromValue v)) ;;
    ret {| currentHeight := currentHeight v;
           from := FromOwn newFrom;
           missingDelayed := missingDelayed v;
           reorgingDelayed := reorgingDelayed v;
           missingSequencer := missingSequencer v;
           reorgingSequencer := reorgingSequencer v;
           readAnyBatches := readAnyBatches v |}
  else
    match from v with
    | FromOwn _ =>
        ret {| currentHeight := currentHeight v;
               from := FromOwn (to + 1);
               missingDelayed := missingDelayed v;
               reorgingDelayed := reorgingDelayed v;
               missingSequencer := missingSequencer v;
               reorgingSequencer := reorgingSequencer v;
               readAnyBatches := readAnyBatches v |}
    | FromCurrentHeight =>
        emit (CurrentHeightOverwritten (to + 1)) ;;
        ret {| currentHeight := to + 1;
               from := FromCurrentHeight;
               missingDelayed := missingDelayed v;
               reorgingDelayed := reorgingDelayed v;
               missingSequencer := missingSequencer v;
               reorgingSequencer := reorgingSequencer v;
               readAnyBatches := readAnyBatches v |}
    end.

(** One iteration of the inner [for] of [run]; [None] is [break]. *)
Definition scanIteration (v0 : ScanVars) : M W (option error) (option ScanVars) :=
  cancelled <- ctx_Err ;;
  if cancelled then exit None
  else
    match pastCurrentHeight v0 with
    | None => ret None
    | Some v =>
        let to := scanTo v in
        delayedMessages <-! delayedBridge_LookupMessagesInRange (fromValue v) to ;;
        sequencerBatches <-! sequencerInbox_LookupBatchesInRange (fromValue v) to ;;
        signalCaughtUp to (currentHeight v) ;;
        ' (missingSequencer, reorgingSequencer, sequencerBatches) <-
          analyseSequencer (missingSequencer v) (reorgingSequencer v)
                           to (currentHeight v) sequencerBatches ;;
        ' (missingDelayed, reorgingDelayed) <-
          analyseDelayed (missingDelayed v) (reorgingDelayed v)
                         to (currentHeight v) delayedMessages ;;
        ' (reorgingDelayed, readAnyBatches) <-
          applyBundle reorgingDelayed reorgingSequencer (readAnyBatches v)
                      to sequencerBatches delayedMessages ;;
        v' <- advance {| currentHeight := currentHeight v;
                         from := from v;
                         missingDelayed := missingDelayed;
                         reorgingDelayed := reorgingDelayed;
                         missingSequencer := missingSequencer;
                         reorgingSequencer := reorgingSequencer;
                         readAnyBatches := readAnyBatches |} to ;;
        ret (Some v')
    end.

(** The inner [for] of [run]; its value holds the variables at [break]. *)
Fixpoint scanLoop (fuel : nat) (v : ScanVars) : M W (option error) ScanVars :=
  match fuel with
  | O => outOfFuel
  | S fuel' =>
      next <- scanIteration v ;;
      match next with
      | None => ret v
      | Some v' => scanLoop fuel' v'
      end
  end.

(** The variables of a pass when its range scan starts. *)
Definition scanStart (currentHeight from : Z)
    (missingDelayed reorgingDelayed missingSequencer reorgingSequencer : bool)
  : ScanVars :=
  {| currentHeight := currentHeight;
     from := FromOwn from;
     missingDelayed := missingDelayed;
     reorgingDelayed := reorgingDelayed;
     missingSequencer := missingSequencer;
     reorgingSequencer := reorgingSequencer;
     readAnyBatches := false |}.

(** [if !readAnyBatches { ... }] after the inner [for]. *)
Definition passEpilogue (v : ScanVars) (checkingBatchCount : Z)
  : M W (option error) unit :=
  if negb (readAnyBatches v) then
    storeLastRead (BigUint64 (currentHeight v)) checkingBatchCount ;;
    storeSeenBatchCount
  else ret tt.

(** One iteration of the outer [for] of [run] (a pass), from the delay
    window on; its value is the [from] of the next pass. *)
Definition passAt (fuel : nat) (from currentHeight : Z) : M W (option error) Z :=
  ' (missingDelayed, reorgingDelayed) <- probeDelayed currentHeight ;;
  ' (checkingBatchCount, missingSequencer, reorgingSequencer) <-
    probeSequencer currentHeight ;;
  if negb missingDelayed && negb reorgingDelayed &&
     negb missingSequencer && negb reorgingSequencer then
    let from := arbmath.BigAddByUint currentHeight 1 in
    storeLastRead (BigUint64 currentHeight) checkingBatchCount ;;
    storeSeenBatchCount ;;
    ret from
  else
    v <- scanLoop fuel (scanStart currentHeight from missingDelayed reorgingDelayed
                                  missingSequencer reorgingSequencer) ;;
    passEpilogue v checkingBatchCount ;;
    ret (fromValue v).

(** The pacing of a pass; its value is [currentHeight] before the delay
    window. *)
Definition pacing (fuel : nat) (from : Z) : M W (option error) Z :=
  latestHeader <-! l1Reader_LastHeader ;;
  latestHeaderIs latestHeader ;;
  let currentHeight := Number latestHeader in
  let neededBlockHeight := arbmath.BigAddByUint from neededBlockAdvance in
  waitForHeight fuel neededBlockHeight currentHeight.

(** One iteration of the outer [for] of [run]: a pass. *)
Definition pass (fuel : nat) (from : Z) : M W (option error) Z :=
  currentHeight <- pacing fuel from ;;
  passAt fuel from (delayWindow currentHeight).

(** The outer [for] of [run]: it only ends through [return]. *)
Fixpoint passes (fuel : nat) (n : nat) (from : Z) : M W (option error) Empty_set :=
  match n with
  | O => outOfFuel
  | S n' =>
      from' <- pass fuel from ;;
      passes fuel n' from'
  end.

Definition run (fuel : nat) : M W (option error) Empty_set :=
  from <-! invoke getNextBlockToRead ;;
  l1Reader_Subscribe ;;
  defer
    (modify (set_seenBatchCount 0) ;;
     modify (set_seenBatchCountStored MaxUint64) ;;
     defer (passes fuel fuel from) storeSeenBatchCount)
    l1Reader_unsubscribe.

(** *** The goroutine of the reader loop *)

(** [err := r.run(ctx)]: a call of a function that returns only its
    error. *)
Definition callReturning {X Y : Type} (m : M W X Empty_set) : M W Y X :=
  fun s =>
    match m s with
    | (Val impossible, _, _) => match impossible with end
    | (Exit x, s', t) => (Val x, s', t)
    | (OutOfFuel, s', t) => (OutOfFuel, s', t)
    end.

(** The closure [Start] hands to [CallIteratively]: it calls [run] and,
    whatever [run] returned, asks to be called again after a second.  (The
    warning it logs is not an action of the model.) *)
Definition readerLoopIteration (fuel : nat) : M W unit Z :=
  err <- callReturning (run fuel) ;;
  ret Second.

(** Modelled from the spec: [CallIteratively] of the stop-waiter calls the
    closure, sleeps for the duration the closure returned and calls it
    again ("log + sleep 1 s + retry"); [n] bounds the number of calls. *)
Fixpoint callIteratively (n : nat) (closure : M W unit Z) : M W unit unit :=
  match n with
  | O => ret tt
  | S n' =>
      interval <- closure ;;
      time_Sleep interval ;;
      callIteratively n' closure
  end.

End InboxReader.

(** * Vocabulary of the properties *)

Section Vocabulary.
Context {W : Type}.

(** [wp m Q s]: running [m] from [s] ends in an outcome, a state and a
    trace of actions that satisfy [Q]. *)
Definition wp {X A} (m : M W X A)
    (Q : Outcome X A -> State W -> list Event -> Prop) (s : State W) : Prop :=
  let '(r, s', t) := m s in Q r s' t.

(** The parts of a run. *)
Definition outcomeOf {X A} (run : Outcome X A * State W * list Event)
  : Outcome X A := fst (fst run).
Definition stateOf {X A} (run : Outcome X A * State W * list Event)
  : State W := snd (fst run).
Definition traceOf {X A} (run : Outcome X A * State W * list Event)
  : list Event := snd run.

(** What a Go function returning [(A, error)] hands back. *)
Definition returned {A} (o : Outcome error A) : option (res A) :=
  match o with
  | Val a => Some (Ok a)
  | Exit e => Some (Err e)
  | OutOfFuel => None
  end.

(** The first entry of a slice with the wanted sequence number. *)
Definition findBatch (seqNum : Z) (seqBatches : list SequencerInboxBatch)
  : option SequencerInboxBatch :=
  find (fun batch => SequenceNumber batch =? seqNum) seqBatches.

(** The range queries among recorded actions. *)
Definition batchRangeQueries (l : list Event) : list (Z * Z) :=
  flat_map (fun ev =>
              match ev with
              | SequencerInbox_LookupBatchesInRange from to => [(from, to)]
              | _ => []
              end) l.

(** [zeroPolls k w]: the world after [k] polls of the tracker's batch
    count from [w] that each found no batch and were each followed by the
    100 ms sleep; [None] when one of them found a batch or failed. *)
Fixpoint zeroPolls (C : Collaborators W) (k : nat) (w : W) : option W :=
  match k with
  | O => Some w
  | S k' =>
      match InboxTracker.GetBatchCount (tracker C) w with
      | (Ok batchCount, w1) =>
          if batchCount >? 0 then None
          else zeroPolls C k' (Runtime.Sleep (runtime C) (Millisecond * 100) w1)
      | (Err _, _) => None
      end
  end.

End Vocabulary.

(** Actions outside the range scan: neither a range query nor the
    caught-up signal. *)
Definition outsideScan (ev : Event) : Prop :=
  match ev with
  | SendCaughtUp
  | DelayedBridge_LookupMessagesInRange _ _
  | SequencerInbox_LookupBatchesInRange _ _ => False
  | _ => True
  end.

(** Reads of the tracker. *)
Definition trackerRead (ev : Event) : Prop :=
  match ev with
  | Tracker_GetBatchCount
  | Tracker_GetBatchAcc _
  | Tracker_GetBatchMetadata _
  | Tracker_GetDelayedCount
  | Tracker_GetDelayedAcc _
  | Tracker_GetDelayedMessage _ => True
  | _ => False
  end.

(** The actions of the pacing of a pass. *)
Definition pacingEvent (ev : Event) : Prop :=
  match ev with
  | HeaderReader_LastHeader | LatestHeader _ | Select => True
  | _ => False
  end.

(** The actions of the divergence probe at [currentHeight]. *)
Definition probeEvent (currentHeight : Z) (ev : Event) : Prop :=
  match ev with
  | DelayedBridge_GetMessageCount atBlock
  | DelayedBridge_GetAccumulator _ atBlock
  | SequencerInbox_GetBatchCount atBlock
  | SequencerInbox_GetAccumulator _ atBlock => atBlock = currentHeight
  | Tracker_ReorgBatchesTo _ | Tracker_ReorgDelayedTo _ => True
  | _ => trackerRead ev
  end.

(** The latest header a trace received, if any. *)
Definition latestHeaderOf (t : list Event) : option types_Header :=
  fold_left (fun latest ev =>
               match ev with
               | LatestHeader latestHeader => Some latestHeader
               | _ => latest
               end) t None.

Arguments latestHeaderOf : simpl never.

Definition notSend (ev : Event) : Prop :=
  match ev with SendCaughtUp => False | _ => True end.

(** [currentHeight] as the recorded actions fix it: a received header sets
    it to the header's number put through the delay window, and the
    in-place overwrite sets it to the value written. *)
Definition heightStep (config : InboxReaderConfig) (firstMessageBlock : Z)
    (currentHeight : Z) (ev : Event) : Z :=
  match ev with
  | LatestHeader latestHeader =>
      delayWindow config firstMessageBlock (Number latestHeader)
  | CurrentHeightOverwritten value => value
  | _ => currentHeight
  end.

Definition heightAfter (config : InboxReaderConfig) (firstMessageBlock : Z)
    (currentHeight : Z) (t : list Event) : Z :=
  fold_left (heightStep config firstMessageBlock) t currentHeight.

(** An action that leaves [currentHeight] as it is. *)
Definition still (ev : Event) : Prop :=
  match ev with
  | LatestHeader _ | CurrentHeightOverwritten _ => False
  | _ => True
  end.

(** [sendsFromScan config firstMessageBlock currentHeight prev t]: every
    caught-up signal of the trace [t] is sent inside the range scan, right
    after a range query to the sequencer inbox whose upper end [to] is
    [currentHeight] as it is at that moment.  [prev] is the action before
    the trace and [currentHeight] the height before it. *)
Fixpoint sendsFromScan (config : InboxReaderConfig) (firstMessageBlock : Z)
    (currentHeight : Z) (prev : option Event) (t : list Event) : Prop :=
  match t with
  | [] => True
  | ev :: t' =>
      match ev with
      | SendCaughtUp =>
          exists from,
            prev = Some (SequencerInbox_LookupBatchesInRange from currentHeight)
      | _ => True
      end /\
      sendsFromScan config firstMessageBlock
        (heightStep config firstMessageBlock currentHeight ev) (Some ev) t'
  end.

(** A chunk was applied: a non-empty list of sequencer batches was handed
    to the tracker, the tracker answered without an error other than the
    delayed-messages-mismatch signal, and the last-read counters were
    stored right after. *)
Definition chunkApplied {W : Type} (C : Collaborators W) (t : list Event) : Prop :=
  exists pre batches block batchCount post w answer w',
    batches <> [] /\
    t = pre ++ Tracker_AddSequencerBatches batches
              :: StoreLastRead block batchCount :: post /\
    InboxTracker.AddSequencerBatches (tracker C) batches w = (answer, w') /\
    match answer with
    | None => True
    | Some err => errors_Is err delayedMessagesMismatch = true
    end.

(** No query and no applied message of the action refers to a
    parent-chain block above [bound]. *)
Definition withinHeight (bound : Z) (ev : Event) : Prop :=
  match ev with
  | DelayedBridge_GetMessageCount atBlock
  | DelayedBridge_GetAccumulator _ atBlock
  | SequencerInbox_GetBatchCount atBlock
  | SequencerInbox_GetAccumulator _ atBlock => atBlock <= bound
  | DelayedBridge_LookupMessagesInRange from to
  | SequencerInbox_LookupBatchesInRange from to => from <= bound /\ to <= bound
  | Tracker_AddDelayedMessages messages =>
      Forall (fun m => BlockNumber (Header (Message m)) <= bound) messages
  | Tracker_AddSequencerBatches batches =>
      Forall (fun b => ParentBlockNumber b <= bound) batches
  | _ => True
  end.

Definition notHeader (ev : Event) : Prop :=
  match ev with LatestHeader _ => False | _ => True end.

(** An action other than the in-place overwrite of [currentHeight]. *)
Definition notOverwrite (ev : Event) : Prop :=
  match ev with CurrentHeightOverwritten _ => False | _ => True end.

(** [from] has an integer of its own, and points at or below
    [currentHeight] unless no flag is up (when the scan is about to
    end). *)
Definition ownFrom (v : ScanVars) : Prop :=
  exists value,
    from v = FromOwn value /\
    (value <= currentHeight v \/
     (missingDelayed v = false /\ reorgingDelayed v = false /\
      missingSequencer v = false /\ reorgingSequencer v = false)).

(** The integer of [currentHeight] was overwritten in place. *)
Definition overwritten (t : list Event) : Prop :=
  exists value, In (CurrentHeightOverwritten value) t.

(** What a recorded action does to the fields of the reader that other
    goroutines can see. *)
Definition applyEvent (ev : Event) (r : InboxReader) : InboxReader :=
  match ev with
  | StoreLastRead block batchCount =>
      {| caughtUp := caughtUp r;
         caughtUpChan := caughtUpChan r;
         lastSeenBatchCount := lastSeenBatchCount r;
         lastReadBlock := block;
         lastReadBatchCount := batchCount |}
  | StoreLastSeenBatchCount count =>
      {| caughtUp := caughtUp r;
         caughtUpChan := caughtUpChan r;
         lastSeenBatchCount := count;
         lastReadBlock := lastReadBlock r;
         lastReadBatchCount := lastReadBatchCount r |}
  | SendCaughtUp =>
      {| caughtUp := true;
         caughtUpChan := caughtUpChan r ++ [true];
         lastSeenBatchCount := lastSeenBatchCount r;
         lastReadBlock := lastReadBlock r;
         lastReadBatchCount := lastReadBatchCount r |}
  | _ => r
  end.

(** The reader after a trace. *)
Definition replay (t : list Event) (r : InboxReader) : InboxReader :=
  fold_left (fun r ev => applyEvent ev r) t r.

(** The reader as other goroutines can observe it after each action of a
    trace. *)
Fixpoint snapshots (t : list Event) (r : InboxReader) : list InboxReader :=
  match t with
  | [] => []
  | ev :: t' => applyEvent ev r :: snapshots t' (applyEvent ev r)
  end.

(** An action that writes no published counter. *)
Definition notStore (ev : Event) : Prop :=
  match ev with
  | StoreLastRead _ _ | StoreLastSeenBatchCount _ => False
  | _ => True
  end.

(** An action that leaves the reader as it is. *)
Definition inert (ev : Event) : Prop :=
  match ev with
  | StoreLastRead _ _ | StoreLastSeenBatchCount _ | SendCaughtUp => False
  | _ => True
  end.

(** [okAfter seen prev ev]: a store of the seen batch count stores [seen]
    and directly follows a store of the last-read counters; a store of the
    last-read counters publishes a batch count that is at most [seen], or
    is one more than the sequence number of the last batch of the non-empty
    list that was handed to the tracker directly before. *)
Definition okAfter (seen : Z) (prev : option Event) (ev : Event) : Prop :=
  match ev with
  | StoreLastSeenBatchCount count =>
      count = seen /\
      match prev with Some (StoreLastRead _ _) => True | _ => False end
  | StoreLastRead _ batchCount =>
      batchCount <= seen \/
      match prev with
      | Some (Tracker_AddSequencerBatches (firstBatch :: rest)) =>
          batchCount = wrap64 (SequenceNumber (last rest firstBatch) + 1)
      | _ => False
      end
  | _ => True
  end.

(** Every store of a trace is [okAfter] the action before it; [prev] is
    the action before the trace. *)
Fixpoint published (seen : Z) (prev : option Event) (t : list Event) : Prop :=
  match t with
  | [] => True
  | ev :: t' => okAfter seen prev ev /\ published seen (Some ev) t'
  end.

(** The blocks published as [lastReadBlock] never go below [low] and
    never go back. *)
Fixpoint blocksFrom (low : Z) (t : list Event) : Prop :=
  match t with
  | [] => True
  | StoreLastRead block _ :: t' => low <= block /\ blocksFrom block t'
  | _ :: t' => blocksFrom low t'
  end.

(** The block published last in a trace, [low] if there is none. *)
Definition lastBlock (low : Z) (t : list Event) : Z :=
  fold_left (fun block ev =>
               match ev with
               | StoreLastRead block' _ => block'
               | _ => block
               end) t low.

(** The batch counts published as [lastReadBatchCount] never go below
    [low] and never go back. *)
Fixpoint countsFrom (low : Z) (t : list Event) : Prop :=
  match t with
  | [] => True
  | StoreLastRead _ batchCount :: t' => low <= batchCount /\ countsFrom batchCount t'
  | _ :: t' => countsFrom low t'
  end.

(** The batch count published last in a trace, [low] if there is none. *)
Definition lastCount (low : Z) (t : list Event) : Z :=
  fold_left (fun batchCount ev =>
               match ev with
               | StoreLastRead _ batchCount' => batchCount'
               | _ => batchCount
               end) t low.

(** Right after every store of [lastSeenBatchCount] in the trace, the
    reader that other goroutines observe has [lastReadBatchCount] at or
    below [lastSeenBatchCount]; [r] is the reader before the trace. *)
Fixpoint seenCoversRead (r : InboxReader) (t : list Event) : Prop :=
  match t with
  | [] => True
  | ev :: t' =>
      match ev with
      | StoreLastSeenBatchCount _ =>
          lastReadBatchCount (applyEvent ev r) <= lastSeenBatchCount (applyEvent ev r)
      | _ => True
      end /\
      seenCoversRead (applyEvent ev r) t'
  end.

(** The batch count that follows a non-empty list of batches:
    [sequencerBatches[len(sequencerBatches)-1].SequenceNumber + 1]. *)
Definition countAfter (firstBatch : SequencerInboxBatch)
    (rest : list SequencerInboxBatch) : Z :=
  wrap64 (SequenceNumber (last rest firstBatch) + 1).

(** The non-empty lists of batches handed to the tracker are numbered
    upward: each ends at or above [low], the end of the list before it,
    and at or below [seen]. *)
Fixpoint handedFrom (low seen : Z) (t : list Event) : Prop :=
  match t with
  | [] => True
  | Tracker_AddSequencerBatches (firstBatch :: rest) :: t' =>
      low <= countAfter firstBatch rest <= seen /\
      handedFrom (countAfter firstBatch rest) seen t'
  | _ :: t' => handedFrom low seen t'
  end.

(** Every store of the last-read counters in the trace directly follows
    the handing of a non-empty list of batches to the tracker and
    publishes the batch count that follows the list; [prev] is the action
    before the trace. *)
Fixpoint handedStores (prev : option Event) (t : list Event) : Prop :=
  match t with
  | [] => True
  | ev :: t' =>
      match ev with
      | StoreLastRead _ batchCount =>
          match prev with
          | Some (Tracker_AddSequencerBatches (firstBatch :: rest)) =>
              batchCount = countAfter firstBatch rest
          | _ => False
          end
      | _ => True
      end /\
      handedStores (Some ev) t'
  end.

(** An action other than a store of the last-read counters. *)
Definition notRead (ev : Event) : Prop :=
  match ev with StoreLastRead _ _ => False | _ => True end.

Arguments lastBlock : simpl never.
Arguments lastCount : simpl never.
Arguments handedStores : simpl never.
Arguments sendsFromScan : simpl never.
Arguments heightAfter : simpl never.
Arguments replay : simpl never.
Arguments published : simpl never.

Section Vocabulary2.
Context {W : Type}.
Variable C : Collaborators W.
Variable config : InboxReaderConfig.
Variable firstMessageBlock : Z.

(** The range scan only moves forward: every iteration starts at or below
    [currentHeight], so nothing is searched in the past, and the scan goes
    on right after the range it has read, so no reorg sends it back. *)
Fixpoint steadyScan (fuel : nat) (v : ScanVars) (s : State W) : Prop :=
  match fuel with
  | O => True
  | S fuel' =>
      match scanIteration C firstMessageBlock v s with
      | (Val None, _, _) => True
      | (Val (Some v'), s', _) =>
          fromValue v <= currentHeight v /\
          from v' = FromOwn (scanTo v + 1) /\
          steadyScan fuel' v' s'
      | (_, _, _) => fromValue v <= currentHeight v
      end
  end.

(** A pass in steady state: the parent-chain head has not moved back
    behind the block before [from], [currentHeight] is a [uint64], and the
    range scan, if there is one, only moves forward. *)
Definition steadyPass (fuel : nat) (from : Z) (s : State W) : Prop :=
  match pacing C config fuel from s with
  | (Val latest, s1, _) =>
      let currentHeight := delayWindow config firstMessageBlock latest in
      0 <= currentHeight <= MaxUint64 /\ from - 1 <= currentHeight /\
      match probeDelayed C config currentHeight s1 with
      | (Val (missingDelayed, reorgingDelayed), s2, _) =>
          match probeSequencer C config currentHeight s2 with
          | (Val (_, missingSequencer, reorgingSequencer), s3, _) =>
              if negb missingDelayed && negb reorgingDelayed &&
                 negb missingSequencer && negb reorgingSequencer
              then True
              else steadyScan fuel
                     (scanStart currentHeight from missingDelayed reorgingDelayed
                                missingSequencer reorgingSequencer) s3
          | (_, _, _) => True
          end
      | (_, _, _) => True
      end
  | (_, _, _) => True
  end.

(** The batch count that the divergence probe of the pass checks: the
    smaller of the tracker's batch count and the sequencer inbox's at
    [currentHeight]; [None] when the pass ends before it is known. *)
Definition checkedCount (fuel : nat) (from : Z) (s : State W) : option Z :=
  match pacing C config fuel from s with
  | (Val latest, s1, _) =>
      let currentHeight := delayWindow config firstMessageBlock latest in
      match probeDelayed C config currentHeight s1 with
      | (Val _, s2, _) =>
          match probeSequencer C config currentHeight s2 with
          | (Val (checkingBatchCount, _, _), _, _) => Some checkingBatchCount
          | (_, _, _) => None
          end
      | (_, _, _) => None
      end
  | (_, _, _) => None
  end.

(** The batch counts of a pass are steady: the batch count the probe
    checks is not below [lastReadBatchCount], and the lists of batches the
    pass hands to the tracker are numbered upward from
    [lastReadBatchCount] and end at or below the seen batch count of the
    pass. *)
Definition steadyCounts (fuel : nat) (from : Z) (s : State W) : Prop :=
  match checkedCount fuel from s with
  | Some checkingBatchCount => lastReadBatchCount (reader s) <= checkingBatchCount
  | None => True
  end /\
  let result := pass C config firstMessageBlock fuel from s in
  handedFrom (lastReadBatchCount (reader s)) (seenBatchCount (stateOf result))
             (traceOf result).

(** The first [n] passes of a run are in steady state. *)
Fixpoint steadyPasses (fuel : nat) (n : nat) (from : Z) (s : State W) : Prop :=
  match n with
  | O => True
  | S n' =>
      steadyPass fuel from s /\ steadyCounts fuel from s /\
      match pass C config firstMessageBlock fuel from s with
      | (Val from', s', _) => steadyPasses fuel n' from' s'
      | (_, _, _) => True
      end
  end.

(** The divergence probe of the pass raises none of the four flags: at
    [currentHeight] the tracker matches the view of the parent chain. *)
Definition matchesChain (fuel : nat) (from : Z) (s : State W) : Prop :=
  match pacing C config fuel from s with
  | (Val latest, s1, _) =>
      let currentHeight := delayWindow config firstMessageBlock latest in
      match probeDelayed C config currentHeight s1 with
      | (Val (missingDelayed, reorgingDelayed), s2, _) =>
          match probeSequencer C config currentHeight s2 with
          | (Val (_, missingSequencer, reorgingSequencer), _, _) =>
              missingDelayed = false /\ reorgingDelayed = false /\
              missingSequencer = false /\ reorgingSequencer = false
          | (_, _, _) => True
          end
      | (_, _, _) => True
      end
  | (_, _, _) => True
  end.

(** The tracker matches in each of the first [n] passes. *)
Fixpoint alwaysMatches (fuel : nat) (n : nat) (from : Z) (s : State W) : Prop :=
  match n with
  | O => True
  | S n' =>
      matchesChain fuel from s /\
      match pass C config firstMessageBlock fuel from s with
      | (Val from', s', _) => alwaysMatches fuel n' from' s'
      | (_, _, _) => True
      end
  end.

(** The state in which the loop of [run] begins, after [Subscribe] and
    the initialisation of the two locals. *)
Definition loopStart (s : State W) : State W :=
  set_seenBatchCountStored MaxUint64
    (set_seenBatchCount 0
       (set_world (HeaderReader.Subscribe (l1Reader C) (world s)) s)).

(** The tracker matches in every pass that [run] makes. *)
Definition trackerAlwaysMatches (fuel : nat) (s : State W) : Prop :=
  match getNextBlockToRead C firstMessageBlock s with
  | (Val from, s0, _) => alwaysMatches fuel fuel from (loopStart s0)
  | (_, _, _) => True
  end.

(** The caught-up flag and channel are as they were. *)
Definition sameCaughtUp (s s' : State W) : Prop :=
  caughtUp (reader s') = caughtUp (reader s) /\
  caughtUpChan (reader s') = caughtUpChan (reader s).
(** The published counters and the stored copy of the seen batch count
    are as they were. *)
Definition keepsReader (s s' : State W) : Prop :=
  reader s' = reader s /\
  seenBatchCountStored s' = seenBatchCountStored s /\
  seenBatchCount s' = seenBatchCount s.

(** The three published counters, and the stored copy of the seen batch
    count, are as they were. *)
Definition sameCounters (s s' : State W) : Prop :=
  lastReadBlock (reader s') = lastReadBlock (reader s) /\
  lastReadBatchCount (reader s') = lastReadBatchCount (reader s) /\
  lastSeenBatchCount (reader s') = lastSeenBatchCount (reader s) /\
  seenBatchCountStored s' = seenBatchCountStored s.

(** The counters are as they were unless a chunk was applied. *)
Definition countersGuarded (s s' : State W) (t : list Event) : Prop :=
  chunkApplied C t \/ sameCounters s s'.

(** The range queries of both adapters return only entries posted at or
    below the upper end of the range. *)
Definition lookupsHonourRange : Prop :=
  (forall from to w messages w',
     DelayedBridge.LookupMessagesInRange (delayedBridge C) from to w
     = (Ok messages, w') ->
     Forall (fun m => BlockNumber (Header (Message m)) <= to) messages) /\
  (forall from to w batches w',
     SequencerInbox.LookupBatchesInRange (sequencerInbox C) from to w
     = (Ok batches, w') ->
     Forall (fun b => ParentBlockNumber b <= to) batches).

(** The computation runs outside the range scan and keeps the caught-up
    flag and channel. *)
Definition quiet {X A} (m : M W X A) : Prop :=
  forall s, wp m (fun _ s' t => sameCaughtUp s s' /\ Forall outsideScan t) s.
End Vocabulary2.
(** ** Further vocabulary *)

(** [n] steps of the reorg walker, each from the block the step before
    gave; the first failure ends the walk. *)
Fixpoint walkBack (firstMessageBlock : Z) (n : nat) (from : Z) : res Z :=
  match n with
  | O => Ok from
  | S n' =>
      match getPrevBlockForReorg firstMessageBlock from with
      | Ok newFrom => walkBack firstMessageBlock n' newFrom
      | Err e => Err e
      end
  end.

(** How many of the recorded actions satisfy [p]. *)
Definition countEvents (p : Event -> bool) (t : list Event) : nat :=
  List.length (filter p t).

Definition isPoll (ev : Event) : bool :=
  match ev with Tracker_GetBatchCount => true | _ => false end.

Definition isSleep (ev : Event) : bool :=
  match ev with Sleep _ => true | _ => false end.

Definition isSend (ev : Event) : bool :=
  match ev with SendCaughtUp => true | _ => false end.

(** The actions of [Start]: the start of the reader loop, polls of the
    tracker's batch count, sleeps of 100 ms and the read of delayed
    message 0. *)
Definition startEvent (ev : Event) : Prop :=
  match ev with
  | CallIteratively | Tracker_GetBatchCount => True
  | Sleep d => d = Millisecond * 100
  | Tracker_GetDelayedMessage seqNum => seqNum = 0
  | _ => False
  end.

(** The actions open to the reader loop between subscribing to new
    headers and unsubscribing: it does not subscribe again, sleep,
    serialize a batch or start another loop, and it erases entries of the
    tracker only when [HardReorg] is set. *)
Definition loopEvent (config : InboxReaderConfig) (ev : Event) : Prop :=
  match ev with
  | HeaderReader_Subscribe | HeaderReader_unsubscribe | Sleep _
  | CallIteratively | SequencerInbox_Serialize _ => False
  | Tracker_ReorgBatchesTo _ | Tracker_ReorgDelayedTo _ => HardReorg config = true
  | _ => True
  end.

(** How the caught-up flag and channel can differ between two states of
    the reader: not at all, or by the one send that raises the flag. *)
Definition caughtUpStep (r r' : InboxReader) : Prop :=
  (caughtUp r' = caughtUp r /\ caughtUpChan r' = caughtUpChan r) \/
  (caughtUp r = false /\ caughtUp r' = true /\
   caughtUpChan r' = caughtUpChan r ++ [true]).

(** The stored copy of the seen batch count is in step with
    [lastSeenBatchCount]: either nothing was stored yet (the copy is the
    initial [MaxUint64]) and [lastSeenBatchCount] is as it was in [before],
    or [lastSeenBatchCount] is the copy. *)
Definition seenInSync {W : Type} (before : InboxReader) (s : State W) : Prop :=
  (seenBatchCountStored s = MaxUint64 /\
   lastSeenBatchCount (reader s) = lastSeenBatchCount before) \/
  lastSeenBatchCount (reader s) = seenBatchCountStored s.

(** The context is never cancelled and the subscription to new headers is
    never closed. *)
Definition neverShutDown {W : Type} (C : Collaborators W) : Prop :=
  (forall w, fst (Runtime.ctxErr (runtime C) w) = false) /\
  (forall checkDelay w,
     match fst (Runtime.selectHeader (runtime C) checkDelay w) with
     | CtxDone | NewHeader None => False
     | _ => True
     end).

(** What is handed to the tracker comes from the parent chain: the delayed
    messages are the answer of a range query to the delayed bridge, and the
    sequencer batches are the answer of a range query to the sequencer
    inbox, less some of its leading batches. *)
Definition fromChain {W : Type} (C : Collaborators W) (ev : Event) : Prop :=
  match ev with
  | Tracker_AddDelayedMessages messages =>
      exists from to w w',
        DelayedBridge.LookupMessagesInRange (delayedBridge C) from to w
        = (Ok messages, w')
  | Tracker_AddSequencerBatches batches =>
      exists from to w w' skipped,
        SequencerInbox.LookupBatchesInRange (sequencerInbox C) from to w
        = (Ok (skipped ++ batches), w')
  | _ => True
  end.

(** An erasure from the tracker cuts it down to the count the parent chain
    gave, and happens only with [HardReorg] set and a tracker that holds
    more than that count. *)
Definition erasureToChain {W : Type} (C : Collaborators W)
    (config : InboxReaderConfig) (ev : Event) : Prop :=
  match ev with
  | Tracker_ReorgDelayedTo count =>
      HardReorg config = true /\
      exists atBlock w w' ourCount w1 w1',
        DelayedBridge.GetMessageCount (delayedBridge C) atBlock w = (Ok count, w') /\
        InboxTracker.GetDelayedCount (tracker C) w1 = (Ok ourCount, w1') /\
        count < ourCount
  | Tracker_ReorgBatchesTo count =>
      HardReorg config = true /\
      exists atBlock w w' ourCount w1 w1',
        SequencerInbox.GetBatchCount (sequencerInbox C) atBlock w = (Ok count, w') /\
        InboxTracker.GetBatchCount (tracker C) w1 = (Ok ourCount, w1') /\
        count < ourCount
  | _ => True
  end.

(** The check-delay timer never ends the wait for new headers. *)
Definition timerNeverFires {W : Type} (C : Collaborators W) : Prop :=
  forall checkDelay w,
    fst (Runtime.selectHeader (runtime C) checkDelay w) <> CheckDelayTimer.

(** An action that hands entries to the tracker or publishes a counter. *)
Definition writes (ev : Event) : Prop :=
  match ev with
  | Tracker_AddDelayedMessages _ | Tracker_AddSequencerBatches _
  | StoreLastRead _ _ | StoreLastSeenBatchCount _ => True
  | _ => False
  end.

(** The last-read counters were published. *)
Definition publishes (t : list Event) : Prop :=
  exists block batchCount, In (StoreLastRead block batchCount) t.
(** * A simulated world

    Concrete collaborators, for running the reader on examples: a parent
    chain whose delayed inbox and sequencer inbox hold fixed lists of
    entries, a tracker that stores the entries it is given, and a clock
    that advances by one at every call.  A scenario fixes the chain, the
    head seen at each tick, the ticks at which a call fails or the context
    is cancelled, and the tick at which the tracker has been filled by the
    reader loop while [Start] sleeps. *)

Module Sim.

Record World := {
  clock : nat;
  dbDelayed : list DelayedInboxMessage;
  dbBatches : list SequencerInboxBatch
}.

Record Scenario := {
  headAt : nat -> Z;
  l1Delayed : list DelayedInboxMessage;
  l1Batches : list SequencerInboxBatch;
  fault : nat -> option error;
  cancelledAt : nat -> bool;
  syncedAt : nat -> bool;
  chainId : Z
}.

Definition tick (w : World) : World :=
  {| clock := S (clock w); dbDelayed := dbDelayed w; dbBatches := dbBatches w |}.

Definition genesis : World := {| clock := O; dbDelayed := []; dbBatches := [] |}.

(** The state of a fresh reader on a world, with the local variables of
    [run] as [run] initialises them. *)
Definition fresh (w : World) : State World :=
  {| world := w; reader := NewInboxReader; seenBatchCount := 0;
     seenBatchCountStored := MaxUint64 |}.

(** The accumulator after a delayed message. *)
Definition delayedAccAfter (m : DelayedInboxMessage) : Hash :=
  Delayed_BeforeInboxAcc m + 1.

Definition nthZ {A} (l : list A) (i : Z) : option A :=
  if i <? 0 then None else nth_error l (Z.to_nat i).

Section Scenario.
Variable sc : Scenario.

(** A read: it fails at the ticks of [fault]. *)
Definition answer {A} (r : res A) (w : World) : res A * World :=
  (match fault sc (clock w) with Some e => Err e | None => r end, tick w).

(** A write: at the ticks of [fault] it fails and changes nothing. *)
Definition perform (w' : World) (w : World) : option error * World :=
  match fault sc (clock w) with
  | Some e => (Some e, tick w)
  | None => (None, tick w')
  end.

Definition trackerOf : InboxTracker.t World :=
  {| InboxTracker.GetBatchCount := fun w =>
       answer (Ok (Z.of_nat (List.length (dbBatches w)))) w;
     InboxTracker.GetBatchAcc := fun seqNum w =>
       answer (match nthZ (dbBatches w) seqNum with
               | Some b => Ok (AfterInboxAcc b)
               | None => Err accumulatorNotFound
               end) w;
     InboxTracker.GetBatchMetadata := fun seqNum w =>
       answer (match nthZ (dbBatches w) seqNum with
               | Some b => Ok {| L1Block := ParentBlockNumber b |}
               | None => Err (errorString "no metadata for batch")
               end) w;
     InboxTracker.ReorgBatchesTo := fun count w =>
       perform {| clock := clock w; dbDelayed := dbDelayed w;
                  dbBatches := firstn (Z.to_nat count) (dbBatches w) |} w;
     InboxTracker.AddSequencerBatches := fun batches w =>
       match batches with
       | [] => perform w w
       | b :: _ =>
           perform {| clock := clock w; dbDelayed := dbDelayed w;
                      dbBatches := firstn (Z.to_nat (SequenceNumber b)) (dbBatches w)
                                   ++ batches |} w
       end;
     InboxTracker.GetDelayedCount := fun w =>
       answer (Ok (Z.of_nat (List.length (dbDelayed w)))) w;
     InboxTracker.GetDelayedAcc := fun seqNum w =>
       answer (match nthZ (dbDelayed w) seqNum with
               | Some m => Ok (delayedAccAfter m)
               | None => Err accumulatorNotFound
               end) w;
     InboxTracker.GetDelayedMessage := fun seqNum w =>
       answer (match nthZ (dbDelayed w) seqNum with
               | Some m => Ok (Message m)
               | None => Err (errorString "no such delayed message")
               end) w;
     InboxTracker.ReorgDelayedTo := fun count w =>
       perform {| clock := clock w;
                  dbDelayed := firstn (Z.to_nat count) (dbDelayed w);
                  dbBatches := dbBatches w |} w;
     InboxTracker.AddDelayedMessages := fun messages w =>
       match messages with
       | [] => perform w w
       | m :: _ =>
           match SeqNum (Header (Message m)) with
           | Ok seqNum =>
               perform {| clock := clock w;
                          dbDelayed := firstn (Z.to_nat seqNum) (dbDelayed w)
                                       ++ messages;
                          dbBatches := dbBatches w |} w
           | Err e => (Some e, tick w)
           end
       end;
     InboxTracker.ChainID := chainId sc |}.

Definition postedBy (atBlock : Z) (m : DelayedInboxMessage) : bool :=
  BlockNumber (Header (Message m)) <=? atBlock.

Definition postedIn (from to : Z) (m : DelayedInboxMessage) : bool :=
  (from <=? BlockNumber (Header (Message m))) &&
  (BlockNumber (Header (Message m)) <=? to).

Definition delayedBridgeOf : DelayedBridge.t World :=
  {| DelayedBridge.GetMessageCount := fun atBlock w =>
       answer (Ok (Z.of_nat (List.length (filter (postedBy atBlock) (l1Delayed sc))))) w;
     DelayedBridge.GetAccumulator := fun seqNum atBlock w =>
       answer (match nthZ (l1Delayed sc) seqNum with
               | Some m => Ok (delayedAccAfter m)
               | None => Err (errorString "no such delayed message")
               end) w;
     DelayedBridge.LookupMessagesInRange := fun from to w =>
       answer (Ok (filter (postedIn from to) (l1Delayed sc))) w |}.

Definition batchPostedBy (atBlock : Z) (b : SequencerInboxBatch) : bool :=
  ParentBlockNumber b <=? atBlock.

Definition batchPostedIn (from to : Z) (b : SequencerInboxBatch) : bool :=
  (from <=? ParentBlockNumber b) && (ParentBlockNumber b <=? to).

Definition sequencerInboxOf : SequencerInbox.t World :=
  {| SequencerInbox.GetBatchCount := fun atBlock w =>
       answer (Ok (Z.of_nat (List.length (filter (batchPostedBy atBlock) (l1Batches sc))))) w;
     SequencerInbox.GetAccumulator := fun seqNum atBlock w =>
       answer (match nthZ (l1Batches sc) seqNum with
               | Some b => Ok (AfterInboxAcc b)
               | None => Err (errorString "no such batch")
               end) w;
     SequencerInbox.LookupBatchesInRange := fun from to w =>
       answer (Ok (filter (batchPostedIn from to) (l1Batches sc))) w;
     SequencerInbox.Serialize := fun batch w =>
       answer (Ok [Byte.x62; Byte.x61; Byte.x74; Byte.x63; Byte.x68]) w |}.

Definition headerReaderOf : HeaderReader.t World :=
  {| HeaderReader.LastHeader := fun w =>
       answer (Ok {| Number := headAt sc (clock w) |}) w;
     HeaderReader.Subscribe := fun w => w;
     HeaderReader.unsubscribe := fun w => w |}.

Definition runtimeOf : Runtime.t World :=
  {| Runtime.ctxErr := fun w => (cancelledAt sc (clock w), tick w);
     Runtime.selectHeader := fun checkDelay w =>
       (if cancelledAt sc (clock w) then CtxDone
        else if headAt sc (S (clock w)) >? headAt sc (clock w)
             then NewHeader (Some {| Number := headAt sc (S (clock w)) |})
             else CheckDelayTimer,
        tick w);
     Runtime.Sleep := fun d w =>
       if syncedAt sc (clock w) then
         {| clock := S (clock w); dbDelayed := l1Delayed sc;
            dbBatches := l1Batches sc |}
       else tick w;
     Runtime.CallIteratively := fun w => w;
     Runtime.ParseInitMessage := fun message =>
       match L2msg message with
       | [b] => Ok (Z.of_N (Byte.to_N b))
       | _ => Err (errorString "invalid init message")
       end |}.

Definition collaborators : Collaborators World :=
  {| tracker := trackerOf;
     delayedBridge := delayedBridgeOf;
     sequencerInbox := sequencerInboxOf;
     l1Reader := headerReaderOf;
     runtime := runtimeOf |}.
End Scenario.

(** *** Entries of the simulated chain *)

(** Delayed message [seqNum], posted at [block], with a one-byte body. *)
Definition delayedMessage (seqNum block : Z) (body : Byte.byte) : DelayedInboxMessage :=
  {| Delayed_BeforeInboxAcc := seqNum;
     Message := {| Header := {| BlockNumber := block; SeqNum := Ok seqNum |};
                   L2msg := [body] |} |}.

(** Batch [seqNum], posted at [block]; the accumulator after batch [n] is
    [100 + n], and 0 before the first batch. *)
Definition batch (seqNum block : Z) : SequencerInboxBatch :=
  {| SequenceNumber := seqNum;
     BeforeInboxAcc := if seqNum =? 0 then 0 else 100 + seqNum - 1;
     AfterInboxAcc := 100 + seqNum;
     ParentBlockNumber := block |}.

Definition never {A} (n : nat) : option A := None.
Definition no (n : nat) : bool := false.

End Sim.

(** *** Scenarios *)

Module Scenarios.
Import Sim.

(** The init message: delayed message 0, posted at block 11, whose body
    is the chain-id 42. *)
Definition initMessage : DelayedInboxMessage := delayedMessage 0 11 Byte.x2a.

(** A chain whose head stays at [head]: the init message and three
    batches, posted at blocks 12, 15 and 18. *)
Definition chain (head : Z) (faults : nat -> option error) (chainId : Z)
    (synced : nat -> bool) : Scenario :=
  {| headAt := fun _ => head;
     l1Delayed := [initMessage];
     l1Batches := [batch 0 12; batch 1 15; batch 2 18];
     fault := faults;
     cancelledAt := no;
     syncedAt := synced;
     chainId := chainId |}.

(** The same chain without faults, cancellation or start-up filling. *)
Definition quietChain (head : Z) : Collaborators World :=
  collaborators (chain head never 42 no).

(** A tracker that holds the whole chain. *)
Definition synced : World :=
  {| clock := O; dbDelayed := [initMessage];
     dbBatches := [batch 0 12; batch 1 15; batch 2 18] |}.

(** A chain whose head moves from block 20 to block 30 at tick 12, with
    two more batches posted at blocks 25 and 28. *)
Definition growingChain : Scenario :=
  {| headAt := fun n => if (n <? 12)%nat then 20 else 30;
     l1Delayed := [initMessage];
     l1Batches := [batch 0 12; batch 1 15; batch 2 18; batch 3 25; batch 4 28];
     fault := never;
     cancelledAt := no;
     syncedAt := no;
     chainId := 42 |}.

(** A chain whose init message and first batch were both posted at the
    head, block 20. *)
Definition youngChain : Scenario :=
  {| headAt := fun _ => 20;
     l1Delayed := [delayedMessage 0 20 Byte.x2a];
     l1Batches := [batch 0 20];
     fault := never;
     cancelledAt := no;
     syncedAt := no;
     chainId := 42 |}.

(** A chain whose head is one block higher at every tick. *)
Definition risingChain : Scenario :=
  {| headAt := fun n => Z.of_nat n;
     l1Delayed := [initMessage];
     l1Batches := [batch 0 12; batch 1 15; batch 2 18];
     fault := never;
     cancelledAt := no;
     syncedAt := no;
     chainId := 42 |}.

(** A tracker whose delayed message 0 has an empty body, which does not
    parse as an init message. *)
Definition badInit : World :=
  {| clock := O;
     dbDelayed := [{| Delayed_BeforeInboxAcc := 0;
                      Message := {| Header := {| BlockNumber := 11; SeqNum := Ok 0 |};
                                    L2msg := [] |} |}];
     dbBatches := [batch 0 12] |}.

Definition failAt (n : nat) (k : nat) : option error :=
  if Nat.eqb k n then Some (errorString "connection refused") else None.

Definition delayedConfig : InboxReaderConfig :=
  {| DelayBlocks := 5; CheckDelay := Minute; HardReorg := false;
     MinBlocksToRead := 1 |}.
End Scenarios.
(** * Properties *)

(** ** Reasoning about computations *)

Section Logic.
Context {W : Type}.

Lemma wp_run {X A} (m : M W X A) Q s r s' t :
  wp m Q s -> m s = (r, s', t) -> Q r s' t.
Proof. unfold wp. intros H E. rewrite E in H. exact H. Qed.

Lemma wp_intro {X A} (m : M W X A) (Q : Outcome X A -> State W -> list Event -> Prop) s :
  (forall r s' t, m s = (r, s', t) -> Q r s' t) -> wp m Q s.
Proof. unfold wp. intros H. destruct (m s) as [[r s'] t]. auto. Qed.

Lemma wp_mono {X A} (m : M W X A)
    (Q Q' : Outcome X A -> State W -> list Event -> Prop) s :
  wp m Q s -> (forall r s' t, Q r s' t -> Q' r s' t) -> wp m Q' s.
Proof. unfold wp. destruct (m s) as [[r s'] t]. auto. Qed.

Lemma wp_ret {X A} (a : A) (Q : Outcome X A -> State W -> list Event -> Prop) s :
  Q (Val a) s [] -> wp (ret a) Q s.
Proof. auto. Qed.

Lemma wp_exit {X A} (x : X) (Q : Outcome X A -> State W -> list Event -> Prop) s :
  Q (Exit x) s [] -> wp (exit x) Q s.
Proof. auto. Qed.

Lemma wp_outOfFuel {X A} (Q : Outcome X A -> State W -> list Event -> Prop) s :
  Q OutOfFuel s [] -> wp outOfFuel Q s.
Proof. auto. Qed.

Lemma wp_bind {X A B} (m : M W X A) (k : A -> M W X B) Q s :
  wp m (fun r s1 t1 =>
          match r with
          | Val a => wp (k a) (fun r2 s2 t2 => Q r2 s2 (t1 ++ t2)) s1
          | Exit x => Q (Exit x) s1 t1
          | OutOfFuel => Q OutOfFuel s1 t1
          end) s ->
  wp (bind m k) Q s.
Proof.
  unfold wp, bind. destruct (m s) as [[[a | x | ] s1] t1]; auto.
  destruct (k a s1) as [[r2 s2] t2]. auto.
Qed.

Lemma wp_modify {X} (f : State W -> State W) (Q : Outcome X unit -> _) s :
  Q (Val tt) (f s) [] -> wp (modify f) Q s.
Proof. auto. Qed.

Lemma wp_gets {X A} (f : State W -> A) (Q : Outcome X A -> _) s :
  Q (Val (f s)) s [] -> wp (gets f) Q s.
Proof. auto. Qed.

Lemma wp_emit {X} ev (Q : Outcome X unit -> _) (s : State W) :
  Q (Val tt) s [ev] -> wp (emit ev) Q s.
Proof. auto. Qed.

Lemma wp_call {X A} ev (op : W -> A * W) (Q : Outcome X A -> _) s :
  (forall a w, op (world s) = (a, w) -> Q (Val a) (set_world w s) [ev]) ->
  wp (call ev op) Q s.
Proof.
  unfold wp, call. intros H. destruct (op (world s)) as [a w] eqn:E. auto.
Qed.

Lemma wp_callUnit {X} ev (op : W -> W) (Q : Outcome X unit -> _) s :
  Q (Val tt) (set_world (op (world s)) s) [ev] ->
  wp (callUnit ev op) Q s.
Proof. auto. Qed.

Lemma wp_invoke {X A} (m : M W error A) (Q : Outcome X (res A) -> _) s :
  wp m (fun r s' t =>
          match r with
          | Val a => Q (Val (Ok a)) s' t
          | Exit e => Q (Val (Err e)) s' t
          | OutOfFuel => Q OutOfFuel s' t
          end) s ->
  wp (invoke m) Q s.
Proof.
  unfold wp, invoke. destruct (m s) as [[[a | x | ] s1] t1]; auto.
Qed.

Lemma wp_orReturn {X} `{Returns X} (m : M W X (option error)) Q s :
  wp m (fun r s' t =>
          match r with
          | Val None => Q (Val tt) s' (t ++ [])
          | Val (Some e) => Q (Exit (returnErr e)) s' (t ++ [])
          | Exit x => Q (Exit x) s' t
          | OutOfFuel => Q OutOfFuel s' t
          end) s ->
  wp (orReturn m) Q s.
Proof.
  unfold orReturn. intros Hm. apply wp_bind. eapply wp_mono; [exact Hm |].
  intros [[e | ] | x | ] s' t; simpl; auto.
Qed.

Lemma wp_defer {X A} (body : M W X A) (d : M W X unit) Q s :
  wp body (fun r s1 t1 =>
             match r with
             | OutOfFuel => Q OutOfFuel s1 t1
             | _ => wp d (fun _ s2 t2 => Q r s2 (t1 ++ t2)) s1
             end) s ->
  wp (defer body d) Q s.
Proof.
  unfold wp, defer. destruct (body s) as [[[a | x | ] s1] t1]; auto;
    destruct (d s1) as [[r2 s2] t2]; auto.
Qed.
End Logic.

Ltac unfold_calls :=
  unfold tracker_GetBatchCount, tracker_GetBatchAcc, tracker_GetBatchMetadata,
    tracker_ReorgBatchesTo, tracker_AddSequencerBatches, tracker_GetDelayedCount,
    tracker_GetDelayedAcc, tracker_GetDelayedMessage, tracker_ReorgDelayedTo,
    tracker_AddDelayedMessages, delayedBridge_GetMessageCount,
    delayedBridge_GetAccumulator, delayedBridge_LookupMessagesInRange,
    sequencerInbox_GetBatchCount, sequencerInbox_GetAccumulator,
    sequencerInbox_LookupBatchesInRange, batch_Serialize, l1Reader_LastHeader,
    l1Reader_Subscribe, l1Reader_unsubscribe, ctx_Err, select_newHeaders,
    time_Sleep, stopWaiter_CallIteratively, latestHeaderIs, storeLastRead,
    atomic_StoreLastSeenBatchCount, sendCaughtUp.

Ltac unfold_monad :=
  unfold orReturn in *;
  unfold bind, ret, exit, outOfFuel, modify, gets, emit, call, callUnit, invoke,
    returnErr, Returns_error, Returns_nilable in *;
  cbv beta in *.

(** Symbolic execution: one step through the computation under [wp].
    [hook] is tried first on computations that are neither monad
    operations nor case distinctions. *)
Ltac wp_step hook :=
  lazymatch goal with
  | |- wp (bind _ _) _ _ => apply wp_bind
  | |- wp (ret _) _ _ => apply wp_ret
  | |- wp (exit _) _ _ => apply wp_exit
  | |- wp outOfFuel _ _ => apply wp_outOfFuel
  | |- wp (modify _) _ _ => apply wp_modify
  | |- wp (gets _) _ _ => apply wp_gets
  | |- wp (emit _) _ _ => apply wp_emit
  | |- wp (call _ _) _ _ => apply wp_call; intros ? ? ?
  | |- wp (callUnit _ _) _ _ => apply wp_callUnit
  | |- wp (orReturn _) _ _ => apply wp_orReturn
  | |- wp (invoke _) _ _ => apply wp_invoke
  | |- wp (defer _ _) _ _ => apply wp_defer
  | |- wp (match ?x with _ => _ end) _ _ => destruct x eqn:?
  | |- wp (let (_, _) := ?x in _) _ _ => destruct x eqn:?
  | |- wp _ _ _ => first [ progress hook | progress unfold_calls ]
  | |- match ?x with _ => _ end => destruct x eqn:?
  end;
  cbv beta iota.

Ltac wp_go hook := repeat wp_step hook.

(** Use a lemma about a sub-computation. *)
Ltac wp_use lem :=
  eapply wp_mono; [ eapply lem | cbv beta; intros ? ? ? ? ].
(** ** The reorg walker and the query helpers *)

Section Helpers.
Context {W : Type}.
Variable C : Collaborators W.
Variable config : InboxReaderConfig.
Variable firstMessageBlock : Z.

(** C4.  For every block [from]: above [firstMessageBlock] the reorg
    walker returns [max (from - 10) firstMessageBlock]; at or below it, it
    fails with the error that no older messages can be had. *)
Theorem getPrevBlockForReorg_spec (from : Z) :
  (from > firstMessageBlock ->
   getPrevBlockForReorg firstMessageBlock from
   = Ok (Z.max (from - 10) firstMessageBlock)) /\
  (from <= firstMessageBlock ->
   getPrevBlockForReorg firstMessageBlock from
   = Err (errorString "can't get older messages")).
Proof.
  unfold getPrevBlockForReorg. split; intros Hcmp.
  - destruct (Z.leb_spec from firstMessageBlock) as [Hle | Hgt]; [lia |].
    f_equal. destruct (Z.ltb_spec (from - 10) firstMessageBlock); lia.
  - destruct (Z.leb_spec from firstMessageBlock) as [Hle | Hgt]; [reflexivity | lia].
Qed.

(** C5.  With no delayed message in the tracker the next start block is
    [firstMessageBlock]; otherwise it is the larger of the block number of
    the last stored delayed message and [firstMessageBlock]. *)
Theorem getNextBlockToRead_spec (s : State W) :
  (forall w,
     InboxTracker.GetDelayedCount (tracker C) (world s) = (Ok 0, w) ->
     outcomeOf (getNextBlockToRead C firstMessageBlock s) = Val firstMessageBlock) /\
  (forall delayedCount w msg w',
     InboxTracker.GetDelayedCount (tracker C) (world s) = (Ok delayedCount, w) ->
     delayedCount <> 0 ->
     InboxTracker.GetDelayedMessage (tracker C) (delayedCount - 1) w = (Ok msg, w') ->
     outcomeOf (getNextBlockToRead C firstMessageBlock s)
     = Val (Z.max (BlockNumber (Header msg)) firstMessageBlock)).
Proof.
  unfold getNextBlockToRead, tracker_GetDelayedCount, tracker_GetDelayedMessage.
  unfold_monad. split.
  - intros w E. rewrite E. reflexivity.
  - intros n w msg w' E Hn Emsg. rewrite E.
    destruct (Z.eqb_spec n 0) as [-> | _]; [contradiction |].
    simpl. rewrite Emsg. simpl. unfold outcomeOf. simpl. f_equal.
    unfold arbmath.BigLessThan.
    destruct (Z.ltb_spec (BlockNumber (Header msg)) firstMessageBlock); lia.
Qed.

Lemma serializeMatching_spec seqNum seqBatches (s : State W) :
  serializeMatching C seqNum seqBatches s =
  match findBatch seqNum seqBatches with
  | Some batch =>
      let (r, w) := SequencerInbox.Serialize (sequencerInbox C) batch (world s) in
      (match r with Ok bytes => Val bytes | Err e => Exit e end,
       set_world w s, [SequencerInbox_Serialize batch])
  | None => (Exit (errorString "sequencer batch not found"), s, [])
  end.
Proof.
  unfold findBatch. induction seqBatches as [| batch rest IH]; simpl.
  - reflexivity.
  - destruct (SequenceNumber batch =? seqNum); [| exact IH].
    unfold batch_Serialize. unfold_monad.
    destruct (SequencerInbox.Serialize (sequencerInbox C) batch (world s))
      as [[bytes | e] w]; reflexivity.
Qed.

(** C8.  [GetSequencerMessageBytes seqNum] looks up the stored metadata of
    the batch, queries the sequencer inbox once, on the range that starts
    and ends at the metadata's parent-chain block, serializes the first
    returned entry whose sequence number is [seqNum] and returns the outcome
    of that serialization; without such an entry it fails with the
    not-found error. *)
Theorem GetSequencerMessageBytes_spec (seqNum : Z) (s : State W)
    metadata w1 seqBatches w2 :
  InboxTracker.GetBatchMetadata (tracker C) seqNum (world s) = (Ok metadata, w1) ->
  SequencerInbox.LookupBatchesInRange (sequencerInbox C)
    (L1Block metadata) (L1Block metadata) w1 = (Ok seqBatches, w2) ->
  let run := GetSequencerMessageBytes C seqNum s in
  batchRangeQueries (traceOf run) = [(L1Block metadata, L1Block metadata)] /\
  match findBatch seqNum seqBatches with
  | Some batch =>
      SequenceNumber batch = seqNum /\ In batch seqBatches /\
      returned (outcomeOf run)
      = Some (fst (SequencerInbox.Serialize (sequencerInbox C) batch w2))
  | None =>
      (forall batch, In batch seqBatches -> SequenceNumber batch <> seqNum) /\
      returned (outcomeOf run) = Some (Err (errorString "sequencer batch not found"))
  end.
Proof.
  intros Emd Elk.
  unfold GetSequencerMessageBytes, tracker_GetBatchMetadata,
    sequencerInbox_LookupBatchesInRange.
  unfold_monad. rewrite Emd. simpl. rewrite Elk. simpl.
  rewrite serializeMatching_spec. unfold outcomeOf, traceOf.
  destruct (findBatch seqNum seqBatches) as [batch | ] eqn:Ef; simpl.
  - apply find_some in Ef. destruct Ef as [Hin Heq]. apply Z.eqb_eq in Heq.
    destruct (SequencerInbox.Serialize (sequencerInbox C) batch w2)
      as [[bytes | e] w3]; simpl; auto.
  - split; [reflexivity |]. split; [| reflexivity].
    intros batch Hin Heq.
    pose proof (find_none _ _ Ef batch Hin) as Hne. simpl in Hne.
    apply Z.eqb_neq in Hne. contradiction.
Qed.

(** ** The bootstrap gate *)

Lemma readInitMessage_zeroPolls (k : nat) :
  forall (fuel : nat) (i : Z) (s : State W) (w : W),
    zeroPolls C k (world s) = Some w ->
    0 <= i -> i + Z.of_nat k <= 300 ->
    exists s', world s' = w /\
      outcomeOf (readInitMessage C (k + fuel) i s)
      = outcomeOf (readInitMessage C fuel (i + Z.of_nat k) s').
Proof.
  induction k as [| k IH]; intros fuel i s w Hz Hi Hk.
  - simpl in Hz. injection Hz as <-. exists s. split; [reflexivity |].
    simpl. rewrite Z.add_0_r. reflexivity.
  - simpl in Hz.
    destruct (InboxTracker.GetBatchCount (tracker C) (world s))
      as [[batchCount | e] w1] eqn:Ecount; [| discriminate].
    destruct (batchCount >? 0) eqn:Epos; [discriminate |].
    set (s1 := set_world (Runtime.Sleep (runtime C) (Millisecond * 100) w1)
                 (set_world w1 s)).
    destruct (IH fuel (i + 1) s1 w Hz) as [s' [Hw Hrun]]; [lia | lia |].
    exists s'. split; [exact Hw |].
    replace (i + Z.of_nat (S k)) with (i + 1 + Z.of_nat k) by lia.
    rewrite <- Hrun. clear Hrun. simpl.
    unfold tracker_GetBatchCount, time_Sleep. unfold_monad.
    rewrite Ecount. simpl. rewrite Epos.
    destruct (Z.eqb_spec i 300) as [-> | _]; [lia |].
    subst s1. simpl. unfold outcomeOf.
    match goal with
    | |- context [readInitMessage ?c ?f ?j ?st] =>
        destruct (readInitMessage c f j st) as [[[a | x | ] s2] t2]
    end; reflexivity.
Qed.

(** C6 (as amended).  [Start] polls the tracker's batch count at most 301
    times, sleeping 100 ms after each of the first 300 polls.  When all 301
    polls find no batch it returns the error "failed to read init message".
    When one of them finds a batch and delayed message 0 parses to a
    chain-id, it returns success if that chain-id is the configured one and
    otherwise the error that shows the configured and the parsed chain-id. *)
Theorem Start_spec (s : State W) :
  let w0 := Runtime.CallIteratively (runtime C) (world s) in
  (forall w batchCount w1,
     zeroPolls C 300 w0 = Some w ->
     InboxTracker.GetBatchCount (tracker C) w = (Ok batchCount, w1) ->
     batchCount <= 0 ->
     outcomeOf (Start C s) = Exit (errorString "failed to read init message")) /\
  (forall k w batchCount w1 message w2 initChainId,
     (k <= 300)%nat ->
     zeroPolls C k w0 = Some w ->
     InboxTracker.GetBatchCount (tracker C) w = (Ok batchCount, w1) ->
     batchCount > 0 ->
     InboxTracker.GetDelayedMessage (tracker C) 0 w1 = (Ok message, w2) ->
     Runtime.ParseInitMessage (runtime C) message = Ok initChainId ->
     (initChainId <> InboxTracker.ChainID (tracker C) ->
      outcomeOf (Start C s)
      = Exit (errorString
                ("expected L2 chain ID " ++ showZ (InboxTracker.ChainID (tracker C)) ++
                 " but read L2 chain ID " ++ showZ initChainId ++
                 " from init message in L1 inbox"))) /\
     (initChainId = InboxTracker.ChainID (tracker C) ->
      outcomeOf (Start C s) = Val tt)).
Proof.
  intros w0.
  set (s0 := set_world w0 s).
  assert (Hstart : outcomeOf (Start C s) = outcomeOf (readInitMessage C 301 0 s0)).
  { unfold Start, stopWaiter_CallIteratively. unfold_monad. fold w0. fold s0.
    unfold outcomeOf.
    destruct (readInitMessage C 301 0 s0) as [[[a | x | ] s2] t2]; reflexivity. }
  split.
  - intros w batchCount w1 Hz Ecount Hle.
    destruct (@readInitMessage_zeroPolls 300 1 0 s0 w Hz) as [s' [Hw Hrun]];
      [lia | lia |].
    rewrite Hstart. change 301%nat with (300 + 1)%nat. rewrite Hrun.
    simpl. unfold tracker_GetBatchCount. unfold_monad.
    rewrite Hw, Ecount. simpl.
    destruct (Z.gtb_spec batchCount 0); [lia |]. reflexivity.
  - intros k w batchCount w1 message w2 initChainId Hk Hz Ecount Hpos Emsg Eparse.
    destruct (@readInitMessage_zeroPolls k (301 - k) 0 s0 w Hz) as [s' [Hw Hrun]];
      [lia | lia |].
    rewrite Hstart. replace 301%nat with (k + (301 - k))%nat by lia.
    rewrite Hrun.
    destruct (301 - k)%nat as [| fuel] eqn:Efuel; [lia |].
    simpl. unfold tracker_GetBatchCount, tracker_GetDelayedMessage. unfold_monad.
    rewrite Hw, Ecount. simpl.
    destruct (Z.gtb_spec batchCount 0); [| lia].
    simpl. rewrite Emsg. simpl. rewrite Eparse.
    split; intros Hid.
    + destruct (Z.eqb_spec initChainId (InboxTracker.ChainID (tracker C)));
        [contradiction | reflexivity].
    + rewrite Hid, Z.eqb_refl. reflexivity.
Qed.

End Helpers.
(** ** Steps of the range scan *)

Section ScanSteps.
Context {W : Type}.
Variable C : Collaborators W.
Variable config : InboxReaderConfig.
Variable firstMessageBlock : Z.

(** C9.  When the first batch of a range query has sequence number 0, or
    the first delayed message has sequence number 0, the comparison of its
    [BeforeInboxAcc] with the tracker's previous accumulator is not made:
    the check calls nothing, changes nothing and leaves the reorg flag of
    its stream lowered. *)
Theorem genesis_entry_not_chained :
  (forall firstBatch (s : State W),
     SequenceNumber firstBatch = 0 ->
     checkFirstBatch C firstBatch s = (Val false, s, [])) /\
  (forall firstMsg (s : State W),
     SeqNum (Header (Message firstMsg)) = Ok 0 ->
     checkFirstMessage C firstMsg s = (Val false, s, [])) /\
  (forall missingSequencer reorgingSequencer to currentHeight firstBatch rest
          (s : State W),
     SequenceNumber firstBatch = 0 ->
     match outcomeOf (analyseSequencer C missingSequencer reorgingSequencer to
                        currentHeight (firstBatch :: rest) s) with
     | Val (_, reorgingSequencer', _) => reorgingSequencer' = false
     | _ => True
     end) /\
  (forall missingDelayed reorgingDelayed to currentHeight firstMsg rest
          (s : State W),
     SeqNum (Header (Message firstMsg)) = Ok 0 ->
     analyseDelayed C missingDelayed reorgingDelayed to currentHeight
       (firstMsg :: rest) s = (Val (false, false), s, [])).
Proof.
  assert (Hb : forall firstBatch (s : State W),
             SequenceNumber firstBatch = 0 ->
             checkFirstBatch C firstBatch s = (Val false, s, [])).
  { intros firstBatch s H0. unfold checkFirstBatch. rewrite H0. reflexivity. }
  assert (Hm : forall firstMsg (s : State W),
             SeqNum (Header (Message firstMsg)) = Ok 0 ->
             checkFirstMessage C firstMsg s = (Val false, s, [])).
  { intros firstMsg s H0. unfold checkFirstMessage. unfold_monad.
    rewrite H0. reflexivity. }
  repeat split; auto.
  - intros ms rs to ch firstBatch rest s H0.
    unfold analyseSequencer. unfold bind at 1. rewrite (Hb _ _ H0).
    cbn [negb]. generalize (skipKnownBatches C (firstBatch :: rest)).
    intros skipped. unfold bind, ret, outcomeOf.
    destruct (skipped s) as [[[bs | x | ] s1] t1]; simpl; auto.
  - intros md rd to ch firstMsg rest s H0.
    unfold analyseDelayed. unfold bind. rewrite (Hm _ _ H0). reflexivity.
Qed.

Lemma BigUint64_small (x : Z) : 0 <= x <= MaxUint64 -> BigUint64 x = x.
Proof.
  unfold BigUint64, MaxUint64. intros H.
  rewrite Z.abs_eq by lia. apply Z.mod_small. lia.
Qed.

Lemma wrap64_small (x : Z) : 0 <= x <= MaxUint64 -> wrap64 x = x.
Proof. unfold wrap64, MaxUint64. intros H. apply Z.mod_small. lia. Qed.

(** C2.  When the reader loop applies a fetched bundle, the delayed
    messages are handed to the tracker first and the sequencer batches
    only after that call succeeded; the delayed-messages-mismatch signal of
    [AddSequencerBatches] raises [reorgingDelayed] and is not returned as
    an error; and when [AddSequencerBatches] succeeds on at least one batch
    the loop publishes [lastReadBlock = to] and [lastReadBatchCount] = the
    sequence number of the last applied batch plus one (both as [uint64]). *)
Theorem applyBundle_spec (to : Z) (sequencerBatches : list SequencerInboxBatch)
    (delayedMessages : list DelayedInboxMessage) (readAnyBatches : bool)
    (s : State W) :
  delayedMessages <> [] \/ sequencerBatches <> [] ->
  let run :=
    applyBundle C false false readAnyBatches to sequencerBatches delayedMessages s in
  (forall e w1,
     InboxTracker.AddDelayedMessages (tracker C) delayedMessages (world s)
     = (Some e, w1) ->
     outcomeOf run = Exit (Some e) /\
     traceOf run = [Tracker_AddDelayedMessages delayedMessages]) /\
  (forall w1 r w2,
     InboxTracker.AddDelayedMessages (tracker C) delayedMessages (world s)
     = (None, w1) ->
     InboxTracker.AddSequencerBatches (tracker C) sequencerBatches w1 = (r, w2) ->
     world (stateOf run) = w2 /\
     (exists tr,
        traceOf run = Tracker_AddDelayedMessages delayedMessages
                      :: Tracker_AddSequencerBatches sequencerBatches :: tr) /\
     (forall e, r = Some e -> errors_Is e delayedMessagesMismatch = true ->
        exists readAnyBatches', outcomeOf run = Val (true, readAnyBatches')) /\
     (r = None ->
      forall firstBatch rest, sequencerBatches = firstBatch :: rest ->
        let lastBatch := last rest firstBatch in
        outcomeOf run = Val (false, true) /\
        lastReadBlock (reader (stateOf run)) = BigUint64 to /\
        lastReadBatchCount (reader (stateOf run))
        = wrap64 (SequenceNumber lastBatch + 1) /\
        (0 <= to <= MaxUint64 -> lastReadBlock (reader (stateOf run)) = to) /\
        (0 <= SequenceNumber lastBatch < MaxUint64 ->
         lastReadBatchCount (reader (stateOf run)) = SequenceNumber lastBatch + 1))).
Proof.
  intros Hne.
  assert (Hcond : negb (isEmpty delayedMessages) || negb (isEmpty sequencerBatches)
                  = true).
  { destruct Hne as [H | H].
    - destruct delayedMessages; [contradiction | reflexivity].
    - destruct sequencerBatches; [contradiction |].
      simpl. apply orb_true_r. }
  unfold applyBundle. rewrite Hcond. cbn [negb andb].
  unfold addMessages, tracker_AddDelayedMessages, tracker_AddSequencerBatches.
  unfold_monad. unfold outcomeOf, stateOf, traceOf.
  destruct (InboxTracker.AddDelayedMessages (tracker C) delayedMessages (world s))
    as [[e1 | ] w1'] eqn:Edel; simpl.
  - split.
    + intros e w1 H. injection H as <- <-. split; reflexivity.
    + intros w1 r w2 H. discriminate.
  - destruct (InboxTracker.AddSequencerBatches (tracker C) sequencerBatches w1')
      as [r' w2'] eqn:Eseq.
    assert (Hinv : forall w1 r w2,
              (@None error, w1') = (None, w1) ->
              InboxTracker.AddSequencerBatches (tracker C) sequencerBatches w1
              = (r, w2) -> r = r' /\ w2 = w2').
    { intros w1 r w2 H1 H2. injection H1 as <-. rewrite Eseq in H2.
      injection H2 as <- <-. auto. }
    unfold publishRead, storeSeenBatchCount, storeLastRead,
      atomic_StoreLastSeenBatchCount. unfold_monad.
    split; [intros ? ? H; discriminate |].
    intros w1 r w2 H1 H2. destruct (Hinv _ _ _ H1 H2) as [-> ->].
    clear Hinv H1 H2.
    destruct r' as [e | ]; cbv beta iota.
    + destruct (errors_Is e delayedMessagesMismatch) eqn:Eis; cbv beta iota.
      * destruct sequencerBatches as [| firstBatch rest]; cbv beta iota.
        -- simpl. repeat split; eauto; try discriminate.
        -- simpl.
           match goal with |- context [if ?b then _ else _] => destruct b end;
             simpl; repeat split; eauto; try discriminate.
      * simpl. repeat split; eauto; try discriminate.
        intros e' He' Hmis. injection He' as <-. congruence.
    + destruct sequencerBatches as [| firstBatch rest]; cbv beta iota.
      * simpl. repeat split; eauto; try discriminate.
      * assert (Hfin : forall firstBatch' rest',
                  firstBatch :: rest = firstBatch' :: rest' ->
                  firstBatch' = firstBatch /\ rest' = rest).
        { intros ? ? H. injection H as -> ->. auto. }
        cbn [fst snd app].
        match goal with |- context [if ?b then _ else _] => destruct b end;
          cbn [fst snd app world set_world set_reader set_seenBatchCountStored
               reader lastReadBlock lastReadBatchCount];
          (split; [reflexivity |]);
          (split; [eexists; reflexivity |]);
          (split; [intros e He; discriminate |]);
          intros _ firstBatch' rest' Heq;
          destruct (Hfin _ _ Heq) as [-> ->];
          repeat split;
          solve [ reflexivity
                | intros Hr; apply BigUint64_small; exact Hr
                | intros Hr; apply wrap64_small; unfold MaxUint64 in *; lia ].
Qed.
End ScanSteps.
(** ** What the blocks of a pass touch *)

Section Frames.
Context {W : Type}.
Variable C : Collaborators W.
Variable config : InboxReaderConfig.
Variable firstMessageBlock : Z.

Lemma latestHeaderOf_app t1 t2 :
  latestHeaderOf (t1 ++ t2)
  = match latestHeaderOf t2 with
    | Some h => Some h
    | None => latestHeaderOf t1
    end.
Proof.
  unfold latestHeaderOf. rewrite fold_left_app.
  generalize (fold_left
                (fun latest ev =>
                   match ev with
                   | LatestHeader latestHeader => Some latestHeader
                   | _ => latest
                   end) t1 None).
  intros acc. revert acc.
  induction t2 as [| ev t2 IH]; intros acc; simpl.
  - reflexivity.
  - rewrite IH. rewrite (IH (match ev with LatestHeader h => Some h | _ => None end)).
    destruct (fold_left _ t2 None); [reflexivity |].
    destruct ev; reflexivity.
Qed.

Lemma latestHeaderOf_cons ev t :
  latestHeaderOf (ev :: t)
  = match latestHeaderOf t with
    | Some h => Some h
    | None => match ev with LatestHeader h => Some h | _ => None end
    end.
Proof.
  change (ev :: t) with ([ev] ++ t). rewrite latestHeaderOf_app.
  destruct (latestHeaderOf t); [reflexivity |]. destruct ev; reflexivity.
Qed.

Lemma trackerRead_probeEvent currentHeight ev :
  trackerRead ev -> probeEvent currentHeight ev.
Proof. destruct ev; simpl; tauto. Qed.

Ltac frame_leaf :=
  unfold keepsReader in *; cbn in *;
  repeat match goal with
         | H : _ /\ _ |- _ => destruct H
         end;
  repeat split;
  try solve [ congruence
            | repeat (first [ apply Forall_app; split
                            | apply Forall_cons
                            | apply Forall_nil
                            | assumption
                            | exact I
                            | reflexivity ]) ].

Lemma waitForHeight_frame fuel : forall needed current s,
  wp (waitForHeight C config fuel needed current)
     (fun r s' t =>
        keepsReader s s' /\ Forall pacingEvent t /\
        forall currentHeight, r = Val currentHeight ->
          currentHeight = match latestHeaderOf t with
                          | Some h => Number h
                          | None => current
                          end) s.
Proof.
  induction fuel as [| fuel IH]; intros needed current s; simpl.
  - wp_go idtac; frame_leaf; intros ? [= <-]; reflexivity.
  - wp_go ltac:(wp_use IH); frame_leaf;
      try (intros ? [= <-]; reflexivity); try discriminate.
    intros ch ->.
    match goal with
    | H : forall c, Val ?x = Val c -> _ |- _ => rewrite (H x eq_refl)
    end.
    rewrite !latestHeaderOf_cons.
    match goal with
    | |- context [latestHeaderOf ?t] => destruct (latestHeaderOf t)
    end; reflexivity.
Qed.

Lemma pacing_frame fuel from s :
  wp (pacing C config fuel from)
     (fun r s' t =>
        keepsReader s s' /\ Forall pacingEvent t /\
        forall currentHeight, r = Val currentHeight ->
          exists latestHeader,
            latestHeaderOf t = Some latestHeader /\
            currentHeight = Number latestHeader) s.
Proof.
  unfold pacing. wp_go ltac:(wp_use waitForHeight_frame); frame_leaf;
    try discriminate.
  intros ch ->.
  match goal with
  | H : forall c, Val ?x = Val c -> _ |- _ => rewrite (H x eq_refl)
  end.
  rewrite !latestHeaderOf_cons.
  match goal with
  | |- context [latestHeaderOf ?t] => destruct (latestHeaderOf t)
  end; eexists; split; reflexivity.
Qed.

Lemma probeDelayed_frame currentHeight s :
  wp (probeDelayed C config currentHeight)
     (fun _ s' t => keepsReader s s' /\ Forall (probeEvent currentHeight) t) s.
Proof. unfold probeDelayed. wp_go idtac; frame_leaf. Qed.

Lemma probeSequencer_frame currentHeight s :
  wp (probeSequencer C config currentHeight)
     (fun r s' t =>
        reader s' = reader s /\
        seenBatchCountStored s' = seenBatchCountStored s /\
        Forall (probeEvent currentHeight) t /\
        forall checkingBatchCount missingSequencer reorgingSequencer,
          r = Val (checkingBatchCount, missingSequencer, reorgingSequencer) ->
          checkingBatchCount <= seenBatchCount s' /\
          (missingSequencer = false -> checkingBatchCount = seenBatchCount s')) s.
Proof.
  unfold probeSequencer. wp_go idtac; frame_leaf; try discriminate;
    repeat match goal with
           | H : Val _ = Val _ |- _ => inversion H; subst; clear H
           | H : (_ <? _) = true |- _ => apply Z.ltb_lt in H
           | H : (_ <? _) = false |- _ => apply Z.ltb_ge in H
           end;
    first [ lia | discriminate | reflexivity ].
Qed.

Lemma checkFirstBatch_frame firstBatch s :
  wp (checkFirstBatch C firstBatch)
     (fun _ s' t => keepsReader s s' /\ Forall trackerRead t) s.
Proof. unfold checkFirstBatch. wp_go idtac; frame_leaf. Qed.

Lemma skipKnownBatches_frame sequencerBatches : forall s,
  wp (skipKnownBatches C sequencerBatches)
     (fun r s' t =>
        keepsReader s s' /\ Forall trackerRead t /\
        forall rest, r = Val rest -> exists skipped, sequencerBatches = skipped ++ rest) s.
Proof.
  induction sequencerBatches as [| batch rest IH]; intros s; simpl.
  - wp_go idtac; frame_leaf. intros ? [= <-]. exists []. reflexivity.
  - wp_go ltac:(wp_use IH); frame_leaf; try discriminate;
      try (intros ? [= <-]; exists []; reflexivity).
    intros rest' ->.
    match goal with
    | H : forall r, Val ?x = Val r -> _ |- _ =>
        destruct (H x eq_refl) as [skipped ->]
    end.
    exists (batch :: skipped). reflexivity.
Qed.

Lemma analyseSequencer_frame missingSequencer reorgingSequencer to currentHeight
    sequencerBatches s :
  wp (analyseSequencer C missingSequencer reorgingSequencer to currentHeight
        sequencerBatches)
     (fun r s' t =>
        keepsReader s s' /\ Forall trackerRead t /\
        forall missing reorging rest, r = Val (missing, reorging, rest) ->
          exists skipped, sequencerBatches = skipped ++ rest) s.
Proof.
  unfold analyseSequencer.
  wp_go ltac:(first [ wp_use checkFirstBatch_frame
                    | wp_use skipKnownBatches_frame ]);
    frame_leaf; try discriminate;
    try (intros ? ? ? [= <- <- <-]; exists []; reflexivity).
  intros ? ? ? [= <- <- <-].
  match goal with
  | H : forall r, Val ?x = Val r -> _ |- _ => exact (H x eq_refl)
  end.
Qed.

Lemma analyseDelayed_frame missingDelayed reorgingDelayed to currentHeight
    delayedMessages s :
  wp (analyseDelayed C missingDelayed reorgingDelayed to currentHeight
        delayedMessages)
     (fun _ s' t => keepsReader s s' /\ Forall trackerRead t) s.
Proof.
  unfold analyseDelayed, checkFirstMessage. wp_go idtac; frame_leaf.
Qed.
End Frames.
(** ** The caught-up signal *)

Section CaughtUp.
Context {W : Type}.
Variable C : Collaborators W.
Variable config : InboxReaderConfig.
Variable firstMessageBlock : Z.

Ltac quiet_leaf :=
  unfold sameCaughtUp in *; cbn in *;
  repeat match goal with
         | H : _ /\ _ |- _ => destruct H
         end;
  repeat split;
  try solve [ congruence
            | repeat (first [ apply Forall_app; split
                            | apply Forall_cons
                            | apply Forall_nil
                            | assumption
                            | exact I ]) ].

Lemma quiet_waitForHeight fuel : forall needed current,
  quiet (waitForHeight C config fuel needed current).
Proof.
  induction fuel as [| fuel IH]; intros needed current s; simpl.
  - wp_go idtac; quiet_leaf.
  - wp_go ltac:(wp_use IH); quiet_leaf.
Qed.

Lemma quiet_pacing fuel from : quiet (pacing C config fuel from).
Proof.
  intros s. unfold pacing.
  wp_go ltac:(wp_use quiet_waitForHeight); quiet_leaf.
Qed.

Lemma quiet_probeDelayed currentHeight : quiet (probeDelayed C config currentHeight).
Proof. intros s. unfold probeDelayed. wp_go idtac; quiet_leaf. Qed.

Lemma quiet_probeSequencer currentHeight :
  quiet (probeSequencer C config currentHeight).
Proof. intros s. unfold probeSequencer. wp_go idtac; quiet_leaf. Qed.

Lemma quiet_storeSeenBatchCount {X} : quiet (@storeSeenBatchCount W X).
Proof.
  intros s. unfold storeSeenBatchCount. wp_go idtac; quiet_leaf.
Qed.

Lemma quiet_getNextBlockToRead : quiet (getNextBlockToRead C firstMessageBlock).
Proof. intros s. unfold getNextBlockToRead. wp_go idtac; quiet_leaf. Qed.

Lemma quiet_storeLastRead {X} block batchCount :
  quiet (@storeLastRead W X block batchCount).
Proof. intros s. wp_go idtac; quiet_leaf. Qed.

Ltac forall_events :=
  repeat (first [ apply Forall_app; split
                | apply Forall_cons
                | apply Forall_nil
                | assumption
                | exact I
                | reflexivity
                | solve [ eapply Forall_impl; [| eassumption];
                          intros []; simpl; tauto ] ]).

Ltac scan_blocks :=
  first [ wp_use (@analyseSequencer_frame W C)
        | wp_use (@analyseDelayed_frame W C)
        | unfold applyBundle, addMessages, publishRead, advance, signalCaughtUp,
            storeSeenBatchCount ].

(** An iteration of the range scan sends the caught-up signal only when
    the reader had not caught up and the scan reaches [currentHeight];
    otherwise it leaves the flag and the channel alone. *)
Lemma scanIteration_send v s :
  wp (scanIteration C firstMessageBlock v)
     (fun _ s' t =>
        (sameCaughtUp s s' /\ Forall notSend t) \/
        (caughtUp (reader s) = false /\
         (exists v1, pastCurrentHeight v = Some v1 /\
                     scanTo v1 = currentHeight v1) /\
         caughtUp (reader s') = true /\
         caughtUpChan (reader s') = caughtUpChan (reader s) ++ [true])) s.
Proof.
  unfold scanIteration.
  wp_go scan_blocks;
    unfold keepsReader, sameCaughtUp in *; cbn in *;
    repeat match goal with
           | H : _ /\ _ |- _ => destruct H
           | H : reader _ = _ |- _ => rewrite H in *; clear H
           end;
    cbn in *;
    first [ left; split; [split; reflexivity | solve [forall_events]]
          | right;
            match goal with
            | H : negb _ && (_ =? _) = true |- _ =>
                apply andb_prop in H; destruct H as [Hc Hto];
                apply negb_true_iff in Hc; apply Z.eqb_eq in Hto
            end;
            repeat split; eauto ].
Qed.

Lemma pastCurrentHeight_height v v1 :
  pastCurrentHeight v = Some v1 -> currentHeight v1 = currentHeight v.
Proof.
  unfold pastCurrentHeight.
  destruct (fromValue v >? currentHeight v); [| intros [= <-]; reflexivity].
  destruct (negb _ && negb _); [discriminate |]. intros [= <-]. reflexivity.
Qed.

Lemma notSend_outsideScan ev : outsideScan ev -> notSend ev.
Proof. destruct ev; simpl; tauto. Qed.

Lemma heightAfter_app ch t1 t2 :
  heightAfter config firstMessageBlock ch (t1 ++ t2)
  = heightAfter config firstMessageBlock
      (heightAfter config firstMessageBlock ch t1) t2.
Proof. unfold heightAfter. apply fold_left_app. Qed.

Lemma heightAfter_cons ch ev t :
  heightAfter config firstMessageBlock ch (ev :: t)
  = heightAfter config firstMessageBlock
      (heightStep config firstMessageBlock ch ev) t.
Proof. reflexivity. Qed.

Lemma heightAfter_nil ch : heightAfter config firstMessageBlock ch [] = ch.
Proof. reflexivity. Qed.

Lemma heightAfter_still ch t :
  Forall still t -> heightAfter config firstMessageBlock ch t = ch.
Proof.
  intros H. revert ch. induction H as [| ev t Hev _ IH]; intros ch.
  - reflexivity.
  - rewrite heightAfter_cons, IH. destruct ev; simpl in Hev; try tauto; reflexivity.
Qed.

Lemma heightAfter_pacing ch t :
  Forall pacingEvent t ->
  heightAfter config firstMessageBlock ch t
  = match latestHeaderOf t with
    | Some latestHeader =>
        delayWindow config firstMessageBlock (Number latestHeader)
    | None => ch
    end.
Proof.
  intros H. revert ch. induction H as [| ev t Hev _ IH]; intros ch.
  - reflexivity.
  - rewrite heightAfter_cons, IH, latestHeaderOf_cons.
    destruct (latestHeaderOf t); [reflexivity |].
    destruct ev; simpl in Hev; try tauto; reflexivity.
Qed.

Lemma still_trackerRead ev : trackerRead ev -> still ev.
Proof. destruct ev; simpl; tauto. Qed.

Lemma still_probeEvent ch ev : probeEvent ch ev -> still ev.
Proof. destruct ev; simpl; tauto. Qed.

Lemma notSend_trackerRead ev : trackerRead ev -> notSend ev.
Proof. destruct ev; simpl; tauto. Qed.

Lemma notSend_probeEvent ch ev : probeEvent ch ev -> notSend ev.
Proof. destruct ev; simpl; tauto. Qed.

Lemma notSend_pacingEvent ev : pacingEvent ev -> notSend ev.
Proof. destruct ev; simpl; tauto. Qed.

Lemma sendsFromScan_nil ch prev : sendsFromScan config firstMessageBlock ch prev [].
Proof. exact I. Qed.

Lemma sendsFromScan_cons ch prev ev t :
  match ev with
  | SendCaughtUp =>
      exists from, prev = Some (SequencerInbox_LookupBatchesInRange from ch)
  | _ => True
  end ->
  sendsFromScan config firstMessageBlock
    (heightStep config firstMessageBlock ch ev) (Some ev) t ->
  sendsFromScan config firstMessageBlock ch prev (ev :: t).
Proof. intros H1 H2. split; assumption. Qed.

Lemma sendsFromScan_quiet t :
  Forall notSend t ->
  forall ch prev, sendsFromScan config firstMessageBlock ch prev t.
Proof.
  induction 1 as [| ev t Hev _ IH]; intros ch prev.
  - exact I.
  - apply sendsFromScan_cons; [| apply IH].
    destruct ev; simpl in Hev; try tauto; exact I.
Qed.

Lemma sendsFromScan_app ch prev t1 t2 :
  sendsFromScan config firstMessageBlock ch prev t1 ->
  (forall p, sendsFromScan config firstMessageBlock
               (heightAfter config firstMessageBlock ch t1) p t2) ->
  sendsFromScan config firstMessageBlock ch prev (t1 ++ t2).
Proof.
  revert ch prev. induction t1 as [| ev t1 IH]; intros ch prev H1 H2.
  - apply H2.
  - destruct H1 as [Hev H1]. simpl. apply sendsFromScan_cons; [exact Hev |].
    apply IH; [exact H1 |]. intros p. rewrite heightAfter_cons in H2. apply H2.
Qed.

(** Normalise the hypotheses left by the frames. *)
Ltac sends_facts :=
  unfold keepsReader in *; cbn in *;
  repeat match goal with
         | H : _ /\ _ |- _ => destruct H
         end;
  repeat match goal with
         | H : Forall trackerRead ?t |- _ =>
             lazymatch goal with
             | _ : forall ch, heightAfter _ _ ch t = ch |- _ => fail
             | _ =>
                 let Hh := fresh "Hh" in
                 let Hq := fresh "Hq" in
                 assert (Hh : forall ch, heightAfter config firstMessageBlock ch t = ch)
                   by (intros; apply heightAfter_still;
                       eapply Forall_impl; [| exact H]; exact still_trackerRead);
                 assert (Hq : forall ch prev,
                            sendsFromScan config firstMessageBlock ch prev t)
                   by (apply sendsFromScan_quiet;
                       eapply Forall_impl; [| exact H]; exact notSend_trackerRead)
             end
         | H : Forall (probeEvent ?c) ?t |- _ =>
             lazymatch goal with
             | _ : forall ch, heightAfter _ _ ch t = ch |- _ => fail
             | _ =>
                 let Hh := fresh "Hh" in
                 let Hq := fresh "Hq" in
                 assert (Hh : forall ch, heightAfter config firstMessageBlock ch t = ch)
                   by (intros; apply heightAfter_still;
                       eapply Forall_impl; [| exact H]; apply still_probeEvent);
                 assert (Hq : forall ch prev,
                            sendsFromScan config firstMessageBlock ch prev t)
                   by (apply sendsFromScan_quiet;
                       eapply Forall_impl; [| exact H]; apply notSend_probeEvent)
             end
         end;
  repeat match goal with
         | H : negb _ && (_ =? _) = true |- _ =>
             apply andb_prop in H; destruct H as [? H]; apply Z.eqb_eq in H
         | H : pastCurrentHeight _ = Some _ |- _ =>
             apply pastCurrentHeight_height in H
         end.

Ltac height_solve :=
  repeat first [ rewrite heightAfter_app
               | rewrite heightAfter_cons
               | rewrite heightAfter_nil ];
  cbn [heightStep];
  repeat match goal with
         | H : forall ch, heightAfter _ _ ch ?t = ch
           |- context [heightAfter _ _ _ ?t] => rewrite H
         end;
  repeat first [ rewrite heightAfter_app
               | rewrite heightAfter_cons
               | rewrite heightAfter_nil ];
  cbn [heightStep];
  repeat match goal with
         | H : forall ch, heightAfter _ _ ch ?t = ch
           |- context [heightAfter _ _ _ ?t] => rewrite H
         end.

Ltac sends_solve :=
  repeat lazymatch goal with
         | |- sendsFromScan _ _ _ _ [] => apply sendsFromScan_nil
         | |- sendsFromScan _ _ _ _ (SendCaughtUp :: _) =>
             apply sendsFromScan_cons;
             [ eexists; f_equal; f_equal; solve [ congruence | lia ] |];
             cbn [heightStep]
         | |- sendsFromScan _ _ _ _ (_ :: _) =>
             apply sendsFromScan_cons; [exact I |]; cbn [heightStep]
         | |- sendsFromScan _ _ _ _ (_ ++ _) =>
             apply sendsFromScan_app; [solve [auto] | intros ?]
         | |- sendsFromScan _ _ _ _ _ => solve [auto]
         end.

Lemma scanIteration_sends v s :
  wp (scanIteration C firstMessageBlock v)
     (fun r _ t =>
        (forall prev,
           sendsFromScan config firstMessageBlock (currentHeight v) prev t) /\
        forall v', r = Val (Some v') ->
          heightAfter config firstMessageBlock (currentHeight v) t
          = currentHeight v') s.
Proof.
  unfold scanIteration.
  wp_go scan_blocks; sends_facts;
    (split;
     [ intros prev; solve [sends_solve]
     | try discriminate; intros v' [= <-]; height_solve; cbn; congruence ]).
Qed.

Lemma scanLoop_sends fuel : forall v s,
  wp (scanLoop C firstMessageBlock fuel v)
     (fun _ _ t =>
        forall prev,
          sendsFromScan config firstMessageBlock (currentHeight v) prev t) s.
Proof.
  induction fuel as [| fuel IH]; intros v s; simpl.
  - wp_go idtac. intros prev. apply sendsFromScan_nil.
  - wp_go ltac:(first [ wp_use scanIteration_sends | wp_use IH ]);
      repeat match goal with
             | H : _ /\ _ |- _ => destruct H
             end;
      intros prev; rewrite ?app_nil_r; auto.
    apply sendsFromScan_app; [auto |]. intros p.
    match goal with
    | H : forall v1, Val (Some ?x) = Val (Some v1) -> _ |- _ =>
        rewrite (H x eq_refl)
    end.
    auto.
Qed.

Lemma passAt_sends fuel from currentHeight s :
  wp (passAt C config firstMessageBlock fuel from currentHeight)
     (fun _ _ t =>
        forall prev,
          sendsFromScan config firstMessageBlock currentHeight prev t) s.
Proof.
  unfold passAt.
  wp_go ltac:(first [ wp_use scanLoop_sends
                    | wp_use (@probeDelayed_frame W C)
                    | wp_use (@probeSequencer_frame W C)
                    | unfold passEpilogue, storeSeenBatchCount ]);
    sends_facts; intros prev;
    repeat (apply sendsFromScan_app; [solve [auto] | intros ?]; height_solve);
    try solve [sends_solve].
Qed.

Lemma pass_sends fuel from s :
  wp (pass C config firstMessageBlock fuel from)
     (fun _ _ t =>
        forall ch prev, sendsFromScan config firstMessageBlock ch prev t) s.
Proof.
  unfold pass.
  apply wp_bind. wp_use (@pacing_frame W C).
  destruct H as [_ [Hpace Hheight]].
  assert (Hq : forall ch prev, sendsFromScan config firstMessageBlock ch prev t).
  { apply sendsFromScan_quiet. eapply Forall_impl; [| exact Hpace].
    exact notSend_pacingEvent. }
  destruct r as [latest | x | ]; [| auto | auto].
  destruct (Hheight latest eq_refl) as [latestHeader [Hlatest ->]].
  wp_use passAt_sends. intros ch prev.
  apply sendsFromScan_app; [apply Hq |]. intros p.
  rewrite (heightAfter_pacing _ Hpace), Hlatest. apply H.
Qed.

Lemma passes_sends fuel n : forall from s,
  wp (passes C config firstMessageBlock fuel n from)
     (fun _ _ t =>
        forall ch prev, sendsFromScan config firstMessageBlock ch prev t) s.
Proof.
  induction n as [| n IH]; intros from s; simpl.
  - wp_go idtac. intros ch prev. apply sendsFromScan_nil.
  - wp_go ltac:(first [ wp_use pass_sends | wp_use IH ]);
      intros ch prev; rewrite ?app_nil_r; auto.
    apply sendsFromScan_app; auto.
Qed.

Lemma run_sends fuel s :
  wp (run C config firstMessageBlock fuel)
     (fun _ _ t =>
        forall ch prev, sendsFromScan config firstMessageBlock ch prev t) s.
Proof.
  unfold run.
  wp_go ltac:(first [ wp_use quiet_getNextBlockToRead
                    | wp_use passes_sends
                    | unfold storeSeenBatchCount ]);
    repeat match goal with
           | H : _ /\ _ |- _ => destruct H
           end;
    repeat match goal with
           | H : Forall outsideScan ?t |- _ =>
               assert (forall ch prev,
                         sendsFromScan config firstMessageBlock ch prev t)
                 by (apply sendsFromScan_quiet;
                     eapply Forall_impl; [| exact H]; exact notSend_outsideScan);
               clear H
           end;
    intros ch prev; cbn; rewrite <- ?app_assoc; cbn;
    repeat first [ apply sendsFromScan_app; [solve [auto] | intros ?]
                 | apply sendsFromScan_cons; [exact I |]
                 | apply sendsFromScan_nil
                 | solve [auto] ].
Qed.

(** A pass in which the tracker matches the parent chain makes no range
    query and sends nothing. *)
Lemma pass_matching fuel from s :
  matchesChain C config firstMessageBlock fuel from s ->
  wp (pass C config firstMessageBlock fuel from)
     (fun _ s' t => sameCaughtUp s s' /\ Forall outsideScan t) s.
Proof.
  intros Hm. unfold matchesChain in Hm. unfold pass.
  apply wp_bind. apply wp_intro. intros r1 s1 t1 E1. rewrite E1 in Hm.
  pose proof (quiet_pacing fuel from s) as Hq1. unfold wp in Hq1.
  rewrite E1 in Hq1.
  destruct r1 as [latest | x | ]; [| exact Hq1 | exact Hq1].
  unfold passAt.
  apply wp_bind. apply wp_intro. intros r2 s2 t2 E2. rewrite E2 in Hm.
  pose proof (quiet_probeDelayed
                (delayWindow config firstMessageBlock latest) s1) as Hq2.
  unfold wp in Hq2. rewrite E2 in Hq2.
  destruct r2 as [[md rd] | x | ]; [| quiet_leaf | quiet_leaf].
  apply wp_bind. apply wp_intro. intros r3 s3 t3 E3. rewrite E3 in Hm.
  pose proof (quiet_probeSequencer
                (delayWindow config firstMessageBlock latest) s2) as Hq3.
  unfold wp in Hq3. rewrite E3 in Hq3.
  destruct r3 as [[[cnt ms] rs] | x | ]; [| quiet_leaf | quiet_leaf].
  destruct Hm as [-> [-> [-> ->]]]. cbn [negb andb].
  wp_go ltac:(first [ wp_use (@quiet_storeLastRead (option error))
                    | wp_use (@quiet_storeSeenBatchCount (option error)) ]);
    quiet_leaf.
Qed.

Lemma passes_matching fuel n : forall from s,
  alwaysMatches C config firstMessageBlock fuel n from s ->
  wp (passes C config firstMessageBlock fuel n from)
     (fun _ s' t => sameCaughtUp s s' /\ Forall outsideScan t) s.
Proof.
  induction n as [| n IH]; intros from s Hm; simpl.
  - wp_go idtac; quiet_leaf.
  - destruct Hm as [Hfirst Hrest].
    apply wp_bind. apply wp_intro. intros r1 s1 t1 E1. rewrite E1 in Hrest.
    pose proof (@pass_matching fuel from s Hfirst) as Hp. unfold wp in Hp.
    rewrite E1 in Hp.
    destruct r1 as [from' | x | ]; [| exact Hp | exact Hp].
    wp_use IH; [exact Hrest |]. quiet_leaf.
Qed.

(** C10.  The caught-up signal is sent only inside the range scan: in
    every run of the reader loop, each send comes right after a range
    query to the sequencer inbox whose upper end [to] equals
    [currentHeight], and an iteration of the scan sends only while the
    reader has not caught up and its [to] equals [currentHeight].  A pass
    whose divergence probe raises none of the four flags makes no range
    query, so a reader whose tracker matches the parent chain in every
    pass never sends the signal: however long [run] goes on, it performs
    no range query and no send, and the caught-up flag and channel stay as
    they were. *)
Theorem caught_up_only_from_scan :
  (forall fuel (s : State W) currentHeight,
     sendsFromScan config firstMessageBlock currentHeight None
       (traceOf (run C config firstMessageBlock fuel s))) /\
  (forall v (s : State W),
     In SendCaughtUp (traceOf (scanIteration C firstMessageBlock v s)) ->
     caughtUp (reader s) = false /\
     exists v1, pastCurrentHeight v = Some v1 /\ scanTo v1 = currentHeight v1) /\
  (forall fuel from (s : State W),
     matchesChain C config firstMessageBlock fuel from s ->
     Forall outsideScan (traceOf (pass C config firstMessageBlock fuel from s))) /\
  (forall fuel (s : State W),
     trackerAlwaysMatches C config firstMessageBlock fuel s ->
     let result := run C config firstMessageBlock fuel s in
     Forall outsideScan (traceOf result) /\
     caughtUp (reader (stateOf result)) = caughtUp (reader s) /\
     caughtUpChan (reader (stateOf result)) = caughtUpChan (reader s)).
Proof.
  split; [| split; [| split]].
  - intros fuel s ch.
    pose proof (run_sends fuel s) as Hr. unfold wp in Hr. unfold traceOf.
    destruct (run C config firstMessageBlock fuel s) as [[r s'] t]. apply Hr.
  - intros v s Hin.
    pose proof (scanIteration_send v s) as Hs. unfold wp in Hs.
    unfold traceOf in Hin.
    destruct (scanIteration C firstMessageBlock v s) as [[r s'] t].
    simpl in Hin. destruct Hs as [[_ Hno] | [Hc [Hv _]]]; [| auto].
    rewrite Forall_forall in Hno. destruct (Hno _ Hin).
  - intros fuel from s Hm.
    pose proof (@pass_matching fuel from s Hm) as Hp. unfold wp in Hp.
    unfold traceOf.
    destruct (pass C config firstMessageBlock fuel from s) as [[r s'] t].
    exact (proj2 Hp).
  - intros fuel s Hm result. subst result.
    assert (Hrun : wp (run C config firstMessageBlock fuel)
                      (fun _ s' t => sameCaughtUp s s' /\ Forall outsideScan t) s).
    { unfold trackerAlwaysMatches in Hm. unfold run.
      apply wp_bind. apply wp_invoke. apply wp_intro. intros r0 s0 t0 E0.
      rewrite E0 in Hm.
      pose proof (quiet_getNextBlockToRead s) as Hq. unfold wp in Hq.
      rewrite E0 in Hq.
      destruct r0 as [from | e | ]; [| wp_go idtac; quiet_leaf | exact Hq].
      cbv beta iota. apply wp_bind. unfold l1Reader_Subscribe, l1Reader_unsubscribe.
      apply wp_callUnit. apply wp_defer. apply wp_bind. apply wp_modify.
      apply wp_bind. apply wp_modify. apply wp_defer.
      wp_use passes_matching; [exact Hm |].
      wp_go ltac:(wp_use (@quiet_storeSeenBatchCount (option error)));
        quiet_leaf. }
    unfold wp in Hrun. unfold traceOf, stateOf.
    destruct (run C config firstMessageBlock fuel s) as [[r s'] t].
    destruct Hrun as [[H1 H2] H3]. auto.
Qed.
End CaughtUp.
(** ** Passes that end in an error *)

Section FailedPass.
Context {W : Type}.
Variable C : Collaborators W.
Variable config : InboxReaderConfig.
Variable firstMessageBlock : Z.

Lemma chunkApplied_app_l t1 t2 : chunkApplied C t1 -> chunkApplied C (t1 ++ t2).
Proof.
  intros [pre [bs [block [cnt [post [w [answer [w' [Hne [-> H]]]]]]]]]].
  exists pre, bs, block, cnt, (post ++ t2), w, answer, w'.
  split; [exact Hne |]. split; [| exact H].
  rewrite <- app_assoc. reflexivity.
Qed.

Lemma chunkApplied_app_r t1 t2 : chunkApplied C t2 -> chunkApplied C (t1 ++ t2).
Proof.
  intros [pre [bs [block [cnt [post [w [answer [w' [Hne [-> H]]]]]]]]]].
  exists (t1 ++ pre), bs, block, cnt, post, w, answer, w'.
  split; [exact Hne |]. split; [| exact H].
  rewrite <- app_assoc. reflexivity.
Qed.

Lemma chunkApplied_cons ev t : chunkApplied C t -> chunkApplied C (ev :: t).
Proof. apply (chunkApplied_app_r [ev]). Qed.

Lemma chunkApplied_here batch rest block batchCount post w answer w' :
  InboxTracker.AddSequencerBatches (tracker C) (batch :: rest) w = (answer, w') ->
  match answer with
  | None => True
  | Some err => errors_Is err delayedMessagesMismatch = true
  end ->
  chunkApplied C (Tracker_AddSequencerBatches (batch :: rest)
                  :: StoreLastRead block batchCount :: post).
Proof.
  intros Hcall Hok.
  exists [], (batch :: rest), block, batchCount, post, w, answer, w'.
  split; [discriminate |]. split; [reflexivity |]. split; assumption.
Qed.

Ltac applied_solve :=
  solve [ repeat (first [ assumption
                        | eapply chunkApplied_here;
                          [ eassumption | first [ exact I | assumption ] ]
                        | apply chunkApplied_app_l; assumption
                        | apply chunkApplied_app_r
                        | apply chunkApplied_cons ]) ].

Ltac guarded_leaf :=
  unfold countersGuarded, keepsReader, sameCounters in *; cbn in *;
  repeat match goal with
         | H : _ /\ _ |- _ => destruct H
         end;
  repeat match goal with
         | H : chunkApplied _ _ \/ _ |- _ => destruct H as [H | H]
         | H : _ /\ _ |- _ => destruct H
         end;
  first [ left; applied_solve
        | right;
          repeat match goal with
                 | H : reader _ = _ |- _ => rewrite H in *; clear H
                 end;
          cbn in *; repeat split; congruence ].

Ltac guarded_blocks :=
  first [ wp_use (@analyseSequencer_frame W C)
        | wp_use (@analyseDelayed_frame W C)
        | wp_use (@probeDelayed_frame W C)
        | wp_use (@probeSequencer_frame W C)
        | wp_use (@pacing_frame W C)
        | unfold applyBundle, addMessages, publishRead, advance, signalCaughtUp,
            storeSeenBatchCount, passEpilogue ].

Lemma scanIteration_guarded v s :
  wp (scanIteration C firstMessageBlock v)
     (fun _ s' t => countersGuarded C s s' t) s.
Proof. unfold scanIteration. wp_go guarded_blocks; guarded_leaf. Qed.

Lemma scanLoop_guarded fuel : forall v s,
  wp (scanLoop C firstMessageBlock fuel v)
     (fun _ s' t => countersGuarded C s s' t) s.
Proof.
  induction fuel as [| fuel IH]; intros v s; simpl.
  - wp_go idtac; guarded_leaf.
  - wp_go ltac:(first [ wp_use scanIteration_guarded | wp_use IH ]);
      guarded_leaf.
Qed.

Lemma passAt_guarded fuel from currentHeight s :
  wp (passAt C config firstMessageBlock fuel from currentHeight)
     (fun r s' t =>
        match r with
        | Exit _ => countersGuarded C s s' t
        | _ => True
        end) s.
Proof.
  unfold passAt.
  wp_go ltac:(first [ wp_use scanLoop_guarded | guarded_blocks ]);
    try exact I; guarded_leaf.
Qed.

Lemma pass_guarded fuel from s :
  wp (pass C config firstMessageBlock fuel from)
     (fun r s' t =>
        match r with
        | Exit _ => countersGuarded C s s' t
        | _ => True
        end) s.
Proof.
  unfold pass.
  wp_go ltac:(first [ wp_use (@pacing_frame W C) | wp_use passAt_guarded ]);
    try exact I; guarded_leaf.
Qed.

(** C1 (as amended).  A pass that ends in an error leaves
    [lastReadBlock], [lastReadBatchCount] and [lastSeenBatchCount] as they
    were before it, whatever query or tracker call failed, unless the pass
    had applied a chunk before it failed: it had handed a non-empty list of
    sequencer batches to the tracker, [AddSequencerBatches] had answered
    with no error or with the delayed-messages-mismatch signal, and the
    pass had stored the last-read counters right after.  When [run] then
    returns the error, its deferred [storeSeenBatchCount] leaves the two
    last-read counters alone and overwrites [lastSeenBatchCount] with the
    current [seenBatchCount] unless that is the value stored last;
    [seenBatchCount] is 0 when the sequencer inbox's batch-count query is
    what failed. *)
Theorem failed_pass_counters (fuel : nat) (from : Z) (s : State W) (e : error) :
  let result := pass C config firstMessageBlock fuel from s in
  outcomeOf result = Exit (Some e) ->
  let s' := stateOf result in
  let final := stateOf (@storeSeenBatchCount W (option error) s') in
  (~ chunkApplied C (traceOf result) ->
   lastReadBlock (reader s') = lastReadBlock (reader s) /\
   lastReadBatchCount (reader s') = lastReadBatchCount (reader s) /\
   lastSeenBatchCount (reader s') = lastSeenBatchCount (reader s) /\
   seenBatchCountStored s' = seenBatchCountStored s) /\
  (lastReadBlock (reader final) = lastReadBlock (reader s') /\
   lastReadBatchCount (reader final) = lastReadBatchCount (reader s') /\
   lastSeenBatchCount (reader final)
   = if seenBatchCountStored s' =? seenBatchCount s'
     then lastSeenBatchCount (reader s') else seenBatchCount s') /\
  (forall currentHeight (s0 : State W) err w,
     SequencerInbox.GetBatchCount (sequencerInbox C) currentHeight (world s0)
     = (Err err, w) ->
     outcomeOf (probeSequencer C config currentHeight s0) = Exit (Some err) /\
     seenBatchCount (stateOf (probeSequencer C config currentHeight s0)) = 0).
Proof.
  intros result Hout s' final.
  pose proof (pass_guarded fuel from s) as Hp. unfold wp in Hp.
  subst final s'. unfold outcomeOf, stateOf, traceOf in *.
  fold result in Hp. destruct result as [[r s'] t]. simpl in *. subst r.
  split; [| split].
  - intros Hna. destruct Hp as [Happ | Hsame]; [contradiction | exact Hsame].
  - unfold storeSeenBatchCount, atomic_StoreLastSeenBatchCount. unfold_monad.
    destruct (seenBatchCountStored s' =? seenBatchCount s'); simpl; auto.
  - intros currentHeight s0 err w E.
    unfold probeSequencer, sequencerInbox_GetBatchCount. unfold_monad.
    rewrite E. simpl. auto.
Qed.
End FailedPass.
(** ** The delay window *)

Section DelayWindow.
Context {W : Type}.
Variable C : Collaborators W.
Variable config : InboxReaderConfig.
Variable firstMessageBlock : Z.
Hypothesis Hrange : lookupsHonourRange C.

Lemma pastCurrentHeight_spec v v1 :
  pastCurrentHeight v = Some v1 ->
  currentHeight v1 = currentHeight v /\ fromValue v1 <= currentHeight v1.
Proof.
  unfold pastCurrentHeight.
  destruct (Z.gtb_spec (fromValue v) (currentHeight v)) as [Hgt | Hle].
  - destruct (negb _ && negb _); [discriminate |].
    intros [= <-]. unfold fromValue. simpl. split; [reflexivity | lia].
  - intros [= <-]. split; [reflexivity | lia].
Qed.

Lemma scanTo_le v : scanTo v <= currentHeight v.
Proof.
  unfold scanTo.
  destruct (Z.gtb_spec (fromValue v + blocksToFetch) (currentHeight v)); lia.
Qed.

Lemma overwritten_app_l t1 t2 : overwritten t1 -> overwritten (t1 ++ t2).
Proof. intros [x Hin]. exists x. apply in_or_app. auto. Qed.

Lemma overwritten_app_r t1 t2 : overwritten t2 -> overwritten (t1 ++ t2).
Proof. intros [x Hin]. exists x. apply in_or_app. auto. Qed.

Lemma overwritten_cons ev t : overwritten t -> overwritten (ev :: t).
Proof. apply (overwritten_app_r [ev]). Qed.

Lemma overwritten_here x t : overwritten (CurrentHeightOverwritten x :: t).
Proof. exists x. left. reflexivity. Qed.

Lemma withinHeight_trackerRead bound ev : trackerRead ev -> withinHeight bound ev.
Proof. destruct ev; simpl; tauto. Qed.

Lemma notHeader_trackerRead ev : trackerRead ev -> notHeader ev.
Proof. destruct ev; simpl; tauto. Qed.

Lemma withinHeight_probeEvent bound ev : probeEvent bound ev -> withinHeight bound ev.
Proof. destruct ev; simpl; try tauto; intros ->; lia. Qed.

Lemma notHeader_probeEvent bound ev : probeEvent bound ev -> notHeader ev.
Proof. destruct ev; simpl; tauto. Qed.

Lemma withinHeight_pacingEvent bound ev : pacingEvent ev -> withinHeight bound ev.
Proof. destruct ev; simpl; tauto. Qed.

Ltac overwritten_solve :=
  solve [ repeat (first [ assumption
                        | apply overwritten_here
                        | apply overwritten_app_l; assumption
                        | apply overwritten_app_r
                        | apply overwritten_cons ]) ].

Ltac window_facts :=
  repeat match goal with
         | H : _ /\ _ |- _ => destruct H
         | H : pastCurrentHeight _ = Some ?v1 |- _ =>
             pose proof (scanTo_le v1);
             apply pastCurrentHeight_spec in H
         | H : DelayedBridge.LookupMessagesInRange _ _ _ _ = (Ok _, _) |- _ =>
             apply (proj1 Hrange) in H
         | H : SequencerInbox.LookupBatchesInRange _ _ _ _ = (Ok _, _) |- _ =>
             apply (proj2 Hrange) in H
         | H : forall m r rest, Val (_, _, _) = Val (m, r, rest) -> _ |- _ =>
             destruct (H _ _ _ eq_refl) as [? ?]; clear H; subst
         | H : Forall _ (_ ++ _) |- _ => apply Forall_app in H
         end.

Ltac window_event :=
  simpl;
  first [ exact I
        | lia
        | split; lia
        | apply Forall_nil
        | eapply Forall_impl; [| eassumption]; simpl; intros; lia ].

Ltac window_trace :=
  repeat (first [ apply Forall_app; split
                | apply Forall_nil
                | apply Forall_cons; [solve [window_event] |]
                | solve [ eapply Forall_impl; [| eassumption];
                          first [ apply withinHeight_trackerRead
                                | apply notHeader_trackerRead
                                | apply withinHeight_probeEvent
                                | apply notHeader_probeEvent ] ]
                | assumption ]).

Ltac window_blocks :=
  first [ wp_use (@analyseSequencer_frame W C)
        | wp_use (@analyseDelayed_frame W C)
        | wp_use (@probeDelayed_frame W C)
        | wp_use (@probeSequencer_frame W C)
        | unfold applyBundle, addMessages, publishRead, advance, signalCaughtUp,
            storeSeenBatchCount, passEpilogue ].

Lemma scanIteration_window v s :
  wp (scanIteration C firstMessageBlock v)
     (fun r _ t =>
        Forall notHeader t /\
        Forall (withinHeight (currentHeight v)) t /\
        forall v', r = Val (Some v') ->
          currentHeight v' = currentHeight v \/ overwritten t) s.
Proof.
  unfold scanIteration.
  wp_go window_blocks; cbn in *; window_facts;
    (split; [solve [window_trace] |]);
    (split; [ match goal with
              | H : currentHeight _ = currentHeight v |- _ => rewrite <- H
              | _ => idtac
              end; solve [window_trace] |]);
    try discriminate;
    intros v' [= <-]; cbn;
    first [ left; congruence | right; overwritten_solve ].
Qed.

Lemma scanLoop_window fuel : forall v s,
  wp (scanLoop C firstMessageBlock fuel v)
     (fun r _ t =>
        Forall notHeader t /\
        (overwritten t \/
         (Forall (withinHeight (currentHeight v)) t /\
          forall v', r = Val v' -> currentHeight v' = currentHeight v))) s.
Proof.
  induction fuel as [| fuel IH]; intros v s; simpl.
  - wp_go idtac. split; [apply Forall_nil | right].
    split; [apply Forall_nil | discriminate].
  - wp_go ltac:(first [ wp_use scanIteration_window | wp_use IH ]);
      cbn in *;
      repeat match goal with
             | H : _ /\ _ |- _ => destruct H
             end;
      (split; [solve [window_trace] |]).
    all: try solve [ right; split;
                     [ solve [window_trace]
                     | first [ discriminate
                             | intros v' [= <-]; reflexivity ] ] ].
    all: match goal with
         | H : forall v', Val (Some ?x) = Val (Some v') -> _ |- _ =>
             destruct (H x eq_refl) as [Hch | Hov]
         end; [| left; overwritten_solve].
    all: match goal with
         | H : overwritten _ \/ _ |- _ => destruct H as [Hov | [Hw Hres]]
         end; [left; overwritten_solve |].
    all: right; rewrite Hch in *; split; [solve [window_trace] |].
    all: intros v' Hv'; exact (Hres v' Hv').
Qed.

Lemma passAt_window fuel from currentHeight s :
  wp (passAt C config firstMessageBlock fuel from currentHeight)
     (fun _ _ t =>
        Forall notHeader t /\
        (overwritten t \/ Forall (withinHeight currentHeight) t)) s.
Proof.
  unfold passAt.
  wp_go ltac:(first [ wp_use scanLoop_window | window_blocks ]);
    cbn in *;
    repeat match goal with
           | H : _ /\ _ |- _ => destruct H
           end;
    (split; [solve [window_trace] |]);
    try match goal with
        | H : overwritten _ \/ _ |- _ => destruct H as [Hov | [Hw Hres]]
        end;
    first [ left; overwritten_solve | right; solve [window_trace] ].
Qed.

Lemma analyseSequencer_flags missingSequencer reorgingSequencer to currentHeight
    sequencerBatches s :
  wp (analyseSequencer C missingSequencer reorgingSequencer to currentHeight
        sequencerBatches)
     (fun r _ t =>
        Forall trackerRead t /\
        forall missing reorging rest, r = Val (missing, reorging, rest) ->
          missing = true -> currentHeight <= to -> reorging = true) s.
Proof.
  unfold analyseSequencer.
  wp_go ltac:(first [ wp_use (@checkFirstBatch_frame W C)
                    | wp_use (@skipKnownBatches_frame W C) ]);
    unfold keepsReader in *; cbn in *;
    repeat match goal with
           | H : _ /\ _ |- _ => destruct H
           end;
    (split;
     [ repeat (first [ apply Forall_app; split | apply Forall_nil | assumption ])
     | try discriminate; intros ? ? ? [= <- <- <-]; try discriminate ]).
  - intros _ Hto.
    match goal with
    | H : _ && (_ >=? _) = true |- _ => reflexivity
    end.
  - intros Hm Hto. subst.
    match goal with
    | H : true && (?a >=? ?b) = false |- _ =>
        simpl in H; rewrite Z.geb_leb in H; apply Z.leb_gt in H; lia
    end.
Qed.

Lemma analyseDelayed_flags missingDelayed reorgingDelayed to currentHeight
    delayedMessages s :
  wp (analyseDelayed C missingDelayed reorgingDelayed to currentHeight
        delayedMessages)
     (fun r _ t =>
        Forall trackerRead t /\
        forall missing reorging, r = Val (missing, reorging) ->
          missing = true -> currentHeight <= to -> reorging = true) s.
Proof.
  unfold analyseDelayed, checkFirstMessage.
  wp_go idtac; cbn in *;
    (split;
     [ repeat (first [ apply Forall_cons | apply Forall_nil | exact I ])
     | try discriminate; intros ? ? [= <- <-]; try discriminate ]).
  - intros _ Hto. reflexivity.
  - intros Hm Hto. subst.
    match goal with
    | H : true && (?a >=? ?b) = false |- _ =>
        simpl in H; rewrite Z.geb_leb in H; apply Z.leb_gt in H; lia
    end.
Qed.

Lemma pastCurrentHeight_own v v1 :
  ownFrom v -> pastCurrentHeight v = Some v1 ->
  v1 = v /\ fromValue v <= currentHeight v.
Proof.
  intros [x [Hfrom Hinv]]. unfold pastCurrentHeight, fromValue. rewrite Hfrom.
  destruct (Z.gtb_spec x (currentHeight v)) as [Hgt | Hle].
  - destruct Hinv as [Hle | [-> [-> [-> ->]]]]; [lia | discriminate].
  - intros [= <-]. split; [reflexivity | exact Hle].
Qed.

Lemma getPrevBlockForReorg_le from newFrom :
  getPrevBlockForReorg firstMessageBlock from = Ok newFrom -> newFrom <= from.
Proof.
  unfold getPrevBlockForReorg.
  destruct (Z.leb_spec from firstMessageBlock); [discriminate |].
  destruct (Z.ltb_spec (from - 10) firstMessageBlock); intros [= <-]; lia.
Qed.

Lemma notOverwrite_trackerRead ev : trackerRead ev -> notOverwrite ev.
Proof. destruct ev; simpl; tauto. Qed.

Lemma notOverwrite_probeEvent bound ev : probeEvent bound ev -> notOverwrite ev.
Proof. destruct ev; simpl; tauto. Qed.

Ltac own_trace :=
  repeat (first [ apply Forall_app; split
                | apply Forall_nil
                | apply Forall_cons; [exact I |]
                | solve [ eapply Forall_impl; [| eassumption];
                          first [ apply notOverwrite_trackerRead
                                | apply notOverwrite_probeEvent ] ]
                | assumption ]).

Ltac own_blocks :=
  first [ wp_use analyseSequencer_flags
        | wp_use analyseDelayed_flags
        | wp_use (@probeDelayed_frame W C)
        | wp_use (@probeSequencer_frame W C)
        | unfold applyBundle, addMessages, publishRead, advance, signalCaughtUp,
            storeSeenBatchCount, passEpilogue ].

(** An iteration that starts with an integer of its own for [from] does
    not overwrite [currentHeight], and leaves [from] with an integer of
    its own. *)
Lemma scanIteration_own v s :
  ownFrom v ->
  wp (scanIteration C firstMessageBlock v)
     (fun r _ t =>
        Forall notOverwrite t /\
        forall v', r = Val (Some v') -> ownFrom v') s.
Proof.
  intros Hown. unfold scanIteration.
  apply wp_bind. unfold ctx_Err. apply wp_call. intros cancelled w Ectx.
  destruct cancelled; [wp_go idtac; split; [own_trace | discriminate] |].
  destruct (pastCurrentHeight v) as [v1 | ] eqn:Epast;
    [| wp_go idtac; split; [own_trace | discriminate]].
  destruct (pastCurrentHeight_own Hown Epast) as [-> Hle].
  destruct Hown as [x [Hfrom _]].
  pose proof (scanTo_le v) as Hto.
  unfold fromValue in Hle. rewrite Hfrom in Hle.
  wp_go own_blocks; cbn in *;
    repeat match goal with
           | H : _ /\ _ |- _ => destruct H
           | H : forall m r rest, Val (_, _, _) = Val (m, r, rest) -> _ |- _ =>
               specialize (H _ _ _ eq_refl)
           | H : forall m r, Val (_, _) = Val (m, r) -> _ |- _ =>
               specialize (H _ _ eq_refl)
           end;
    try match goal with
        | H : from v = FromOwn _, H' : from v = FromCurrentHeight |- _ =>
            rewrite H in H'; discriminate H'
        end;
    (split; [solve [own_trace] |]);
    try discriminate;
    intros v' [= <-]; unfold ownFrom; cbn;
    eexists; (split; [reflexivity |]).
  all: try match goal with
           | H : getPrevBlockForReorg _ _ = Ok _ |- _ =>
               apply getPrevBlockForReorg_le in H;
               unfold fromValue in H; cbn in H; rewrite Hfrom in H
           end.
  all: try solve [left; lia].
  all: destruct (Z.ltb_spec (scanTo v) (currentHeight v)); [left; lia | right].
  all: repeat match goal with
              | H : _ || _ = false |- _ => apply orb_false_elim in H; destruct H
              | H : (if ?b then true else _) = false |- _ =>
                  destruct b; [discriminate H |]
              end;
       subst;
       repeat match goal with
              | H : ?m = true -> _ -> false = true |- _ =>
                  destruct m;
                  [ exfalso; assert (false = true) by (apply H; [reflexivity | lia]);
                    discriminate
                  | clear H ]
              end;
       repeat split; reflexivity.
Qed.

Lemma scanLoop_own fuel : forall v s,
  ownFrom v ->
  wp (scanLoop C firstMessageBlock fuel v)
     (fun _ _ t => Forall notOverwrite t) s.
Proof.
  induction fuel as [| fuel IH]; intros v s Hown; simpl.
  - wp_go idtac. apply Forall_nil.
  - apply wp_bind. wp_use scanIteration_own; [exact Hown |].
    destruct H as [Ht Hnext].
    destruct r as [[v' | ] | x | ]; try assumption.
    + wp_use IH; [apply Hnext; reflexivity |].
      apply Forall_app. split; assumption.
    + wp_go idtac. rewrite app_nil_r. assumption.
Qed.

Lemma passAt_own fuel from currentHeight s :
  from <= currentHeight ->
  wp (passAt C config firstMessageBlock fuel from currentHeight)
     (fun _ _ t => Forall notOverwrite t) s.
Proof.
  intros Hfrom. unfold passAt.
  wp_go ltac:(first [ wp_use scanLoop_own; [exists from; split; [reflexivity | left; exact Hfrom] |]
                    | own_blocks ]);
    cbn in *;
    repeat match goal with
           | H : _ /\ _ |- _ => destruct H
           end;
    solve [own_trace].
Qed.

Lemma overwritten_notOverwrite t : Forall notOverwrite t -> ~ overwritten t.
Proof.
  intros Hall [value Hin]. rewrite Forall_forall in Hall.
  exact (Hall _ Hin).
Qed.

Lemma latestHeaderOf_notHeader t :
  Forall notHeader t -> latestHeaderOf t = None.
Proof.
  induction 1 as [| ev t Hev _ IH]; [reflexivity |].
  rewrite latestHeaderOf_cons, IH. destruct ev; simpl in Hev; tauto.
Qed.

Lemma passAt_window_own fuel from currentHeight s :
  wp (passAt C config firstMessageBlock fuel from currentHeight)
     (fun _ _ t =>
        Forall notHeader t /\
        (overwritten t \/ Forall (withinHeight currentHeight) t) /\
        (from <= currentHeight -> Forall (withinHeight currentHeight) t)) s.
Proof.
  pose proof (passAt_window fuel from currentHeight s) as Hwindow.
  pose proof (@passAt_own fuel from currentHeight s) as Hown.
  unfold wp in *.
  destruct (passAt C config firstMessageBlock fuel from currentHeight s) as [[r s'] t].
  destruct Hwindow as [Hheader Hcases].
  split; [exact Hheader |]. split; [exact Hcases |].
  intros Hfrom. destruct Hcases as [Hov | Hw]; [| exact Hw].
  exfalso. exact (overwritten_notOverwrite (Hown Hfrom) Hov).
Qed.

Lemma delayWindow_max currentHeight :
  delayWindow config firstMessageBlock currentHeight =
  if DelayBlocks config >? 0
  then Z.max (currentHeight - DelayBlocks config) firstMessageBlock
  else currentHeight.
Proof.
  unfold delayWindow. destruct (DelayBlocks config >? 0); [| reflexivity].
  destruct (Z.ltb_spec (currentHeight - DelayBlocks config) firstMessageBlock); lia.
Qed.

(** C3 (as amended).  In every pass, the latest header the pass received
    fixes [currentHeight]: when [DelayBlocks] is above 0, the larger of
    the header's number less [DelayBlocks] and [firstMessageBlock];
    otherwise the header's number itself.  In every pass that starts with
    [from <= currentHeight], and in every other pass in which the integer
    of [currentHeight] is not overwritten in place, no query to the
    delayed bridge or the sequencer inbox and no message or batch handed
    to the tracker refers to a parent-chain block above [currentHeight]
    (a range query being taken to answer within its range).  A pass that
    received no header makes no such query.  The passes left out are those
    that start with [from] above [currentHeight] and overwrite its
    integer: they can query above it. *)
Theorem pass_within_delay_window (fuel : nat) (from : Z) (s : State W) :
  let t := traceOf (pass C config firstMessageBlock fuel from s) in
  match latestHeaderOf t with
  | None => forall bound, Forall (withinHeight bound) t
  | Some latestHeader =>
      let currentHeight :=
        if DelayBlocks config >? 0
        then Z.max (Number latestHeader - DelayBlocks config) firstMessageBlock
        else Number latestHeader in
      (from <= currentHeight -> Forall (withinHeight currentHeight) t) /\
      (overwritten t \/ Forall (withinHeight currentHeight) t)
  end.
Proof.
  intros t. subst t.
  assert (Hpass :
    wp (pass C config firstMessageBlock fuel from)
       (fun _ _ t =>
          (Forall pacingEvent t /\ latestHeaderOf t = None) \/
          (exists latestHeader,
             let currentHeight :=
               delayWindow config firstMessageBlock (Number latestHeader) in
             latestHeaderOf t = Some latestHeader /\
             (Forall pacingEvent t \/
              ((overwritten t \/ Forall (withinHeight currentHeight) t) /\
               (from <= currentHeight ->
                Forall (withinHeight currentHeight) t))))) s).
  { unfold pass.
    wp_go ltac:(first [ wp_use (@pacing_frame W C)
                      | wp_use passAt_window_own ]);
      repeat match goal with
             | H : _ /\ _ |- _ => destruct H
             end.
    - match goal with
      | H : forall c, Val ?x = Val c -> _ |- _ =>
          destruct (H x eq_refl) as [h [Hh ->]]
      end.
      right. exists h. cbv zeta. split.
      + rewrite latestHeaderOf_app.
        rewrite latestHeaderOf_notHeader by assumption. exact Hh.
      + right. split.
        * match goal with
          | H : overwritten _ \/ _ |- _ => destruct H as [Hov | Hw]
          end; [left; overwritten_solve | right].
          apply Forall_app. split; [| exact Hw].
          eapply Forall_impl; [| eassumption]. apply withinHeight_pacingEvent.
        * intros Hfrom. apply Forall_app. split; [| auto].
          eapply Forall_impl; [| eassumption]. apply withinHeight_pacingEvent.
    - destruct (latestHeaderOf t) as [h | ] eqn:Eh.
      + right. exists h. cbv zeta. auto.
      + left. auto.
    - destruct (latestHeaderOf t) as [h | ] eqn:Eh.
      + right. exists h. cbv zeta. auto.
      + left. auto. }
  unfold wp in Hpass. unfold traceOf.
  destruct (pass C config firstMessageBlock fuel from s) as [[r s'] t].
  simpl. destruct Hpass as [[Hp Hnone] | [h [Hsome Hcases]]].
  - rewrite Hnone. intros bound.
    eapply Forall_impl; [| exact Hp]. apply withinHeight_pacingEvent.
  - rewrite Hsome. rewrite <- delayWindow_max.
    destruct Hcases as [Hp | [Hcases Hown]].
    + assert (Hw : Forall (withinHeight
                             (delayWindow config firstMessageBlock (Number h))) t).
      { eapply Forall_impl; [| exact Hp]. apply withinHeight_pacingEvent. }
      split; auto.
    + split; assumption.
Qed.
End DelayWindow.
(** ** What a pass publishes *)

Section Published.
Context {W : Type}.
Variable C : Collaborators W.
Variable config : InboxReaderConfig.
Variable firstMessageBlock : Z.

Lemma replay_app t1 t2 r : replay (t1 ++ t2) r = replay t2 (replay t1 r).
Proof. unfold replay. apply fold_left_app. Qed.

Lemma replay_cons ev t r : replay (ev :: t) r = replay t (applyEvent ev r).
Proof. reflexivity. Qed.

Lemma replay_inert t r : Forall inert t -> replay t r = r.
Proof.
  intros H. revert r. induction H as [| ev t Hev _ IH]; intros r.
  - reflexivity.
  - rewrite replay_cons, IH. destruct ev; simpl in Hev; try tauto; reflexivity.
Qed.

Lemma inert_trackerRead ev : trackerRead ev -> inert ev.
Proof. destruct ev; simpl; tauto. Qed.

Lemma inert_probeEvent ch ev : probeEvent ch ev -> inert ev.
Proof. destruct ev; simpl; tauto. Qed.

Lemma inert_pacingEvent ev : pacingEvent ev -> inert ev.
Proof. destruct ev; simpl; tauto. Qed.

Lemma notStore_inert ev : inert ev -> notStore ev.
Proof. destruct ev; simpl; tauto. Qed.

Lemma published_notStore seen t :
  Forall notStore t -> forall prev, published seen prev t.
Proof.
  induction 1 as [| ev t Hev _ IH]; intros prev; simpl.
  - exact I.
  - split; [| apply IH]. destruct ev; simpl in Hev; try tauto; exact I.
Qed.

Lemma published_cons seen prev ev t :
  okAfter seen prev ev -> published seen (Some ev) t ->
  published seen prev (ev :: t).
Proof. intros H1 H2. split; assumption. Qed.

Lemma published_nil seen prev : published seen prev [].
Proof. exact I. Qed.

Lemma published_app seen t1 t2 prev :
  published seen prev t1 ->
  (forall p, published seen p t2) ->
  published seen prev (t1 ++ t2).
Proof.
  revert prev. induction t1 as [| ev t1 IH]; intros prev H1 H2; simpl.
  - apply H2.
  - destruct H1 as [Hev H1]. split; [exact Hev | apply IH; assumption].
Qed.

Lemma replay_of t r (P : Event -> Prop) :
  (forall ev, P ev -> inert ev) -> Forall P t -> replay t r = r.
Proof.
  intros HP H. apply replay_inert. eapply Forall_impl; [| exact H]. exact HP.
Qed.

Lemma published_of seen t (P : Event -> Prop) :
  (forall ev, P ev -> inert ev) -> Forall P t ->
  forall prev, published seen prev t.
Proof.
  intros HP H. apply published_notStore.
  eapply Forall_impl; [| exact H]. intros ev Hev. apply notStore_inert. auto.
Qed.

Ltac inert_events :=
  first [ exact inert_trackerRead
        | apply inert_probeEvent
        | exact inert_pacingEvent ].

Ltac inert_trace H := eapply replay_of; [| exact H]; inert_events.

Ltac quiet_trace H := eapply published_of; [| exact H]; inert_events.

(** Normalise the hypotheses left by the frames. *)
Ltac pub_facts :=
  unfold keepsReader in *; cbn in *;
  repeat match goal with
         | H : _ /\ _ |- _ => destruct H
         end;
  repeat match goal with
         | H : Forall _ ?t |- _ =>
             lazymatch goal with
             | _ : forall r, replay t r = r |- _ => fail
             | _ =>
                 let Hr := fresh "Hr" in
                 let Hp := fresh "Hp" in
                 assert (Hr : forall r, replay t r = r)
                   by (intros; inert_trace H);
                 assert (Hp : forall seen prev, published seen prev t)
                   by (intros; quiet_trace H)
             end
         end;
  repeat match goal with
         | H : forall c m r, Val (?x, ?y, ?z) = Val (c, m, r) -> _ |- _ =>
             specialize (H x y z eq_refl)
         | H : _ /\ _ |- _ => destruct H
         end;
  repeat match goal with
         | H : seenBatchCount _ = _ |- _ => rewrite H in *; clear H
         end.

Lemma replay_nil r : replay [] r = r.
Proof. reflexivity. Qed.

Ltac replay_solve :=
  repeat first [ rewrite replay_app | rewrite replay_cons | rewrite replay_nil ];
  repeat match goal with
         | H : forall r, replay ?t r = r |- context [replay ?t _] => rewrite H
         end;
  cbn [applyEvent];
  repeat match goal with
         | H : reader _ = _ |- _ => rewrite H; clear H
         end;
  repeat match goal with
         | H : forall r, replay ?t r = r |- context [replay ?t _] => rewrite H
         end;
  reflexivity.

Ltac okAfter_solve :=
  cbn;
  first [ exact I
        | split; [reflexivity | exact I]
        | right; reflexivity
        | left; lia ].

Ltac published_solve :=
  repeat lazymatch goal with
         | |- published _ _ [] => apply published_nil
         | |- published _ _ (_ :: _) =>
             apply published_cons; [solve [okAfter_solve] |]
         | |- published _ _ (_ ++ _) =>
             apply published_app; [solve [auto] | intros ?]
         | |- published _ _ _ => solve [auto]
         end.

Ltac pub_blocks :=
  first [ wp_use (@analyseSequencer_frame W C)
        | wp_use (@analyseDelayed_frame W C)
        | wp_use (@probeDelayed_frame W C)
        | wp_use (@probeSequencer_frame W C)
        | wp_use (@pacing_frame W C)
        | unfold applyBundle, addMessages, publishRead, advance, signalCaughtUp,
            storeSeenBatchCount, passEpilogue ].

Lemma scanIteration_published v s :
  wp (scanIteration C firstMessageBlock v)
     (fun _ s' t =>
        seenBatchCount s' = seenBatchCount s /\
        reader s' = replay t (reader s) /\
        forall prev, published (seenBatchCount s) prev t) s.
Proof.
  unfold scanIteration.
  wp_go pub_blocks; pub_facts;
    (split; [reflexivity |]);
    (split; [solve [replay_solve] | intros prev; solve [published_solve]]).
Qed.

Lemma scanLoop_published fuel : forall v s,
  wp (scanLoop C firstMessageBlock fuel v)
     (fun _ s' t =>
        seenBatchCount s' = seenBatchCount s /\
        reader s' = replay t (reader s) /\
        forall prev, published (seenBatchCount s) prev t) s.
Proof.
  induction fuel as [| fuel IH]; intros v s; simpl.
  - wp_go idtac. split; [reflexivity |]. split; [reflexivity |].
    intros prev. apply published_nil.
  - wp_go ltac:(first [ wp_use scanIteration_published | wp_use IH ]);
      pub_facts;
      (split; [reflexivity |]);
      (split; [solve [replay_solve] | intros prev; solve [published_solve]]).
Qed.

Lemma passAt_published fuel from currentHeight s :
  wp (passAt C config firstMessageBlock fuel from currentHeight)
     (fun _ s' t =>
        reader s' = replay t (reader s) /\
        forall prev, published (seenBatchCount s') prev t) s.
Proof.
  unfold passAt.
  wp_go ltac:(first [ wp_use scanLoop_published | pub_blocks ]);
    pub_facts;
    (split; [solve [replay_solve] | intros prev; solve [published_solve]]).
Qed.

Lemma pass_published fuel from s :
  wp (pass C config firstMessageBlock fuel from)
     (fun _ s' t =>
        reader s' = replay t (reader s) /\
        forall prev, published (seenBatchCount s') prev t) s.
Proof.
  unfold pass.
  wp_go ltac:(first [ wp_use (@pacing_frame W C) | wp_use passAt_published ]);
    pub_facts;
    (split; [solve [replay_solve] | intros prev; solve [published_solve]]).
Qed.
End Published.
(** ** Progress in steady state *)

Section Monotone.
Context {W : Type}.
Variable C : Collaborators W.
Variable config : InboxReaderConfig.
Variable firstMessageBlock : Z.

Lemma blocksFrom_quiet low t t' :
  Forall inert t -> blocksFrom low t' -> blocksFrom low (t ++ t').
Proof.
  induction 1 as [| ev t Hev _ IH]; intros H'; simpl; [exact H' |].
  destruct ev; simpl in Hev; try tauto; apply IH; exact H'.
Qed.

Lemma lastBlock_quiet low t t' :
  Forall inert t -> lastBlock low (t ++ t') = lastBlock low t'.
Proof.
  unfold lastBlock. rewrite fold_left_app. intros H. f_equal.
  induction H as [| ev t Hev _ IH]; simpl; [reflexivity |].
  destruct ev; simpl in Hev; try tauto; exact IH.
Qed.

Lemma blocksFrom_inert low t : Forall inert t -> blocksFrom low t.
Proof.
  intros H. rewrite <- (app_nil_r t). apply blocksFrom_quiet; [exact H | exact I].
Qed.

Lemma lastBlock_inert low t : Forall inert t -> lastBlock low t = low.
Proof.
  intros H. rewrite <- (app_nil_r t). rewrite lastBlock_quiet by exact H.
  reflexivity.
Qed.

Lemma blocksFrom_app low t1 t2 :
  blocksFrom low t1 -> blocksFrom (lastBlock low t1) t2 ->
  blocksFrom low (t1 ++ t2).
Proof.
  revert low. induction t1 as [| ev t1 IH]; intros low H1 H2; simpl.
  - exact H2.
  - destruct ev; simpl in *; try (apply IH; assumption).
    destruct H1 as [Hle H1]. split; [exact Hle | apply IH; assumption].
Qed.

Lemma lastBlock_app low t1 t2 :
  lastBlock low (t1 ++ t2) = lastBlock (lastBlock low t1) t2.
Proof. unfold lastBlock. apply fold_left_app. Qed.

Lemma lastBlock_cons low ev t :
  lastBlock low (ev :: t)
  = lastBlock (match ev with StoreLastRead block _ => block | _ => low end) t.
Proof. reflexivity. Qed.

Lemma lastBlock_nil low : lastBlock low [] = low.
Proof. reflexivity. Qed.

Lemma blocksFrom_weaken low low' t :
  low' <= low -> blocksFrom low t -> blocksFrom low' t.
Proof.
  revert low low'. induction t as [| ev t IH]; intros low low' Hle H; simpl.
  - exact I.
  - destruct ev; simpl in *; try (eapply IH; eassumption).
    destruct H as [Hb H]. split; [lia | exact H].
Qed.

Lemma blocksFrom_lastBlock low t : blocksFrom low t -> low <= lastBlock low t.
Proof.
  revert low. induction t as [| ev t IH]; intros low H.
  - rewrite lastBlock_nil. lia.
  - rewrite lastBlock_cons.
    destruct ev; simpl in H; try (apply IH; exact H).
    destruct H as [Hle H]. apply IH in H. lia.
Qed.

Lemma pastCurrentHeight_within v :
  fromValue v <= currentHeight v -> pastCurrentHeight v = Some v.
Proof.
  intros H. unfold pastCurrentHeight.
  destruct (Z.gtb_spec (fromValue v) (currentHeight v)); [lia | reflexivity].
Qed.

Lemma scanTo_ge v : fromValue v <= currentHeight v -> fromValue v <= scanTo v.
Proof.
  intros H. unfold scanTo, blocksToFetch.
  destruct (Z.gtb_spec (fromValue v + 100) (currentHeight v)); lia.
Qed.

Ltac mono_blocks :=
  first [ wp_use (@analyseSequencer_frame W C)
        | wp_use (@analyseDelayed_frame W C)
        | unfold applyBundle, addMessages, publishRead, advance, signalCaughtUp,
            storeSeenBatchCount, passEpilogue ].

Ltac mono_facts :=
  unfold keepsReader in *; cbn in *;
  repeat match goal with
         | H : _ /\ _ |- _ => destruct H
         end;
  repeat match goal with
         | H : Forall trackerRead ?t |- _ =>
             apply (Forall_impl inert inert_trackerRead) in H
         end;
  repeat match goal with
         | H : reader _ = _ |- _ => rewrite H in *; clear H
         end;
  cbn in *.

Ltac mono_trace :=
  repeat first [ rewrite lastBlock_quiet by assumption
               | rewrite lastBlock_inert by assumption
               | rewrite lastBlock_cons
               | rewrite lastBlock_nil
               | apply blocksFrom_quiet; [assumption |]
               | apply blocksFrom_inert; assumption ];
  cbn.

Lemma scanIteration_forward v s f :
  from v = FromOwn f ->
  f <= currentHeight v -> 0 <= f -> currentHeight v <= MaxUint64 ->
  lastReadBlock (reader s) < f ->
  wp (scanIteration C firstMessageBlock v)
     (fun r s' t =>
        blocksFrom (lastReadBlock (reader s)) t /\
        lastReadBlock (reader s') = lastBlock (lastReadBlock (reader s)) t /\
        lastBlock (lastReadBlock (reader s)) t <= scanTo v /\
        forall v', r = Val (Some v') -> currentHeight v' = currentHeight v) s.
Proof.
  intros Hfrom Hle Hpos Hmax Hlow.
  assert (Hfv : fromValue v = f) by (unfold fromValue; rewrite Hfrom; reflexivity).
  assert (Hto : f <= scanTo v) by (rewrite <- Hfv; apply scanTo_ge; lia).
  pose proof (scanTo_le v) as Hto'.
  assert (Hbig : BigUint64 (scanTo v) = scanTo v)
    by (apply BigUint64_small; lia).
  unfold scanIteration. rewrite pastCurrentHeight_within by lia.
  wp_go mono_blocks; mono_facts; rewrite ?Hfrom in *;
    try rewrite Hbig in *;
    (split; [mono_trace; repeat split; try exact I; lia |]);
    (split; [mono_trace; try reflexivity |]);
    (split; [mono_trace; lia |]);
    try discriminate;
    intros v' [= <-]; reflexivity.
Qed.

(** An iteration that ends the scan has only asked the context. *)
Lemma scanIteration_break v s :
  wp (scanIteration C firstMessageBlock v)
     (fun r s' t =>
        r = Val None ->
        t = [CtxErr] /\ reader s' = reader s /\
        fromValue v > currentHeight v) s.
Proof.
  unfold scanIteration.
  wp_go mono_blocks; try discriminate.
  intros _. cbn. repeat split.
  match goal with
  | H : pastCurrentHeight v = None |- _ => unfold pastCurrentHeight in H
  end.
  destruct (Z.gtb_spec (fromValue v) (currentHeight v)); [lia |].
  discriminate.
Qed.

Lemma scanLoop_forward fuel : forall v s f,
  steadyScan C firstMessageBlock fuel v s ->
  from v = FromOwn f -> 0 <= f -> currentHeight v <= MaxUint64 ->
  lastReadBlock (reader s) < f ->
  wp (scanLoop C firstMessageBlock fuel v)
     (fun r s' t =>
        blocksFrom (lastReadBlock (reader s)) t /\
        lastReadBlock (reader s') = lastBlock (lastReadBlock (reader s)) t /\
        (lastBlock (lastReadBlock (reader s)) t = lastReadBlock (reader s) \/
         lastBlock (lastReadBlock (reader s)) t <= currentHeight v) /\
        forall v', r = Val v' ->
          currentHeight v' = currentHeight v /\
          fromValue v' > currentHeight v' /\
          lastReadBlock (reader s') < fromValue v') s.
Proof.
  induction fuel as [| fuel IH]; intros v s f Hsteady Hfrom Hpos Hmax Hlow.
  - simpl. wp_go idtac. rewrite lastBlock_nil.
    repeat split; auto; discriminate.
  - assert (Hfv : fromValue v = f)
      by (unfold fromValue; rewrite Hfrom; reflexivity).
    simpl scanLoop. apply wp_bind. apply wp_intro. intros r1 s1 t1 E1.
    simpl in Hsteady. rewrite E1 in Hsteady.
    pose proof (scanIteration_break v s) as Hbreak.
    unfold wp in Hbreak. rewrite E1 in Hbreak.
    destruct r1 as [[v1 | ] | x | ].
    + destruct Hsteady as [Hle [Hfrom1 Hsteady1]]. rewrite Hfv in Hle.
      pose proof (@scanIteration_forward v s f Hfrom Hle Hpos Hmax Hlow) as Hit.
      unfold wp in Hit. rewrite E1 in Hit.
      destruct Hit as [Hb [Hlast [Hbound Hch]]].
      specialize (Hch v1 eq_refl).
      pose proof (scanTo_le v) as Hto.
      assert (Hto' : f <= scanTo v) by (rewrite <- Hfv; apply scanTo_ge; lia).
      assert (Hlow1 : lastReadBlock (reader s1) < scanTo v + 1) by lia.
      assert (Hmax1 : currentHeight v1 <= MaxUint64) by lia.
      assert (Hpos1 : 0 <= scanTo v + 1) by lia.
      eapply wp_mono; [exact (IH v1 s1 _ Hsteady1 Hfrom1 Hpos1 Hmax1 Hlow1) |].
      cbv beta. intros r2 s2 t2 [Hb2 [Hlast2 [Hbound2 Hres2]]].
      rewrite Hlast in *.
      split; [apply blocksFrom_app; assumption |].
      split; [rewrite lastBlock_app; exact Hlast2 |].
      split.
      * right. rewrite lastBlock_app.
        destruct Hbound2 as [Heq | Hle2]; lia.
      * intros v' Hv'. destruct (Hres2 v' Hv') as [H1 [H2 H3]].
        repeat split; [lia | lia | exact H3].
    + destruct (Hbreak eq_refl) as [-> [Hreader Hgt]].
      wp_go idtac. cbn. rewrite lastBlock_cons, lastBlock_nil.
      rewrite Hreader. repeat split; auto; try lia;
        match goal with
        | H : Val v = Val _ |- _ => injection H as <-
        end; lia.
    + rewrite Hfv in Hsteady.
      pose proof (@scanIteration_forward v s f Hfrom Hsteady Hpos Hmax Hlow) as Hit.
      unfold wp in Hit. rewrite E1 in Hit.
      destruct Hit as [Hb [Hlast [Hbound Hch]]].
      pose proof (scanTo_le v) as Hto.
      repeat split; auto; try discriminate. right. lia.
    + rewrite Hfv in Hsteady.
      pose proof (@scanIteration_forward v s f Hfrom Hsteady Hpos Hmax Hlow) as Hit.
      unfold wp in Hit. rewrite E1 in Hit.
      destruct Hit as [Hb [Hlast [Hbound Hch]]].
      pose proof (scanTo_le v) as Hto.
      repeat split; auto; try discriminate. right. lia.
Qed.

Ltac use_frame lem E :=
  let Hf := fresh "Hframe" in
  pose proof lem as Hf; unfold wp in Hf; rewrite E in Hf.

Lemma pass_forward fuel from s :
  steadyPass C config firstMessageBlock fuel from s ->
  0 <= from -> lastReadBlock (reader s) < from ->
  wp (pass C config firstMessageBlock fuel from)
     (fun r s' t =>
        blocksFrom (lastReadBlock (reader s)) t /\
        lastReadBlock (reader s') = lastBlock (lastReadBlock (reader s)) t /\
        forall from', r = Val from' ->
          0 <= from' /\ lastReadBlock (reader s') < from') s.
Proof.
  intros Hsteady Hpos Hlow. unfold steadyPass in Hsteady.
  unfold pass. apply wp_bind. apply wp_intro. intros r0 s0 t0 E0.
  rewrite E0 in Hsteady. use_frame (pacing_frame C config fuel from s) E0.
  destruct Hframe as [[Hr0 _] [Ht0 _]].
  apply (Forall_impl inert inert_pacingEvent) in Ht0.
  destruct r0 as [latest | x | ];
    [| rewrite Hr0, lastBlock_inert by assumption;
       repeat split; auto using blocksFrom_inert; discriminate ..].
  destruct Hsteady as [[Hch0 Hchmax] [Hback Hsteady]].
  set (ch := delayWindow config firstMessageBlock latest) in *.
  assert (Hbig : BigUint64 ch = ch) by (apply BigUint64_small; lia).
  unfold passAt. apply wp_bind. apply wp_intro. intros r1 s1 t1 E1.
  rewrite E1 in Hsteady. use_frame (probeDelayed_frame C config ch s0) E1.
  destruct Hframe as [[Hr1 _] Ht1].
  apply (Forall_impl inert (@inert_probeEvent ch)) in Ht1.
  assert (Ht01 : Forall inert (t0 ++ t1)) by (apply Forall_app; auto).
  destruct r1 as [[md rd] | x | ];
    [| rewrite Hr1, Hr0, lastBlock_inert by assumption;
       repeat split; auto using blocksFrom_inert; discriminate ..].
  apply wp_bind. apply wp_intro. intros r2 s2 t2 E2.
  rewrite E2 in Hsteady. use_frame (probeSequencer_frame C config ch s1) E2.
  destruct Hframe as [Hr2 [_ [Ht2 _]]].
  apply (Forall_impl inert (@inert_probeEvent ch)) in Ht2.
  assert (Ht012 : Forall inert (t0 ++ t1 ++ t2))
    by (repeat (apply Forall_app; split); auto).
  assert (Hreader : reader s2 = reader s) by congruence.
  destruct r2 as [[[cnt ms] rs] | x | ];
    [| rewrite Hreader, lastBlock_inert by assumption;
       repeat split; auto using blocksFrom_inert; discriminate ..].
  destruct (negb md && negb rd && negb ms && negb rs) eqn:Eidle.
  - wp_go ltac:(unfold storeSeenBatchCount);
      cbn; rewrite ?Hreader, ?Hbig;
      rewrite !app_assoc, lastBlock_quiet by (rewrite <- ?app_assoc; assumption);
      rewrite ?lastBlock_cons, ?lastBlock_nil;
      (split; [ rewrite <- !app_assoc;
                repeat (apply blocksFrom_quiet; [assumption |]);
                cbn; repeat split; try exact I; lia |]);
      (split; [reflexivity |]);
      intros from' [= <-]; unfold arbmath.BigAddByUint; lia.
  - apply wp_bind. apply wp_intro. intros r3 s3 t3 E3.
    set (v0 := scanStart ch from md rd ms rs) in *.
    assert (Hlow2 : lastReadBlock (reader s2) < from) by (rewrite Hreader; lia).
    assert (Hmax0 : currentHeight v0 <= MaxUint64) by (simpl; lia).
    pose proof (@scanLoop_forward fuel v0 s2 from Hsteady eq_refl Hpos Hmax0 Hlow2)
      as Hloop.
    unfold wp in Hloop. rewrite E3 in Hloop. rewrite Hreader in Hloop.
    destruct Hloop as [Hb3 [Hlast3 [Hbound3 Hres3]]].
    assert (Hpre : forall t',
              lastBlock (lastReadBlock (reader s)) (t0 ++ t1 ++ t2 ++ t3 ++ t')
              = lastBlock (lastBlock (lastReadBlock (reader s)) t3) t').
    { intros t'. rewrite !app_assoc. rewrite <- (app_assoc _ t3 t').
      rewrite <- !app_assoc. rewrite (app_assoc t0), (app_assoc (t0 ++ t1)).
      rewrite lastBlock_quiet by (rewrite <- !app_assoc; assumption).
      apply lastBlock_app. }
    assert (Hpreb : forall t',
              blocksFrom (lastBlock (lastReadBlock (reader s)) t3) t' ->
              blocksFrom (lastReadBlock (reader s)) (t0 ++ t1 ++ t2 ++ t3 ++ t')).
    { intros t' Ht'. repeat (apply blocksFrom_quiet; [assumption |]).
      apply blocksFrom_app; assumption. }
    destruct r3 as [v3 | x | ].
    + destruct (Hres3 v3 eq_refl) as [Hch3 [Hgt3 Hlink3]].
      simpl in Hch3, Hbound3. rewrite Hlast3 in Hlink3. rewrite Hch3 in Hgt3.
      wp_go ltac:(unfold passEpilogue, storeSeenBatchCount);
        cbn; rewrite ?Hch3, ?Hbig, ?Hlast3;
        (split; [ apply Hpreb; cbn; repeat split; try exact I; lia |]);
        (split; [ rewrite Hpre; rewrite ?lastBlock_cons, ?lastBlock_nil;
                  reflexivity |]);
        intros from' [= <-]; lia.
    + cbn. rewrite Hlast3. split; [| split; [| discriminate]].
      * rewrite <- (app_nil_r t3). apply Hpreb. exact I.
      * rewrite <- (app_nil_r t3) at 2. rewrite Hpre, lastBlock_nil. reflexivity.
    + cbn. rewrite Hlast3. split; [| split; [| discriminate]].
      * rewrite <- (app_nil_r t3). apply Hpreb. exact I.
      * rewrite <- (app_nil_r t3) at 2. rewrite Hpre, lastBlock_nil. reflexivity.
Qed.

Lemma passes_forward fuel n : forall from s,
  steadyPasses C config firstMessageBlock fuel n from s ->
  0 <= from -> lastReadBlock (reader s) < from ->
  wp (passes C config firstMessageBlock fuel n from)
     (fun _ s' t =>
        blocksFrom (lastReadBlock (reader s)) t /\
        lastReadBlock (reader s') = lastBlock (lastReadBlock (reader s)) t) s.
Proof.
  induction n as [| n IH]; intros from s Hsteady Hpos Hlow; simpl.
  - wp_go idtac. split; [exact I | reflexivity].
  - destruct Hsteady as [Hfirst [_ Hrest]].
    apply wp_bind. apply wp_intro. intros r1 s1 t1 E1.
    rewrite E1 in Hrest.
    pose proof (@pass_forward fuel from s Hfirst Hpos Hlow) as Hp.
    unfold wp in Hp. rewrite E1 in Hp. destruct Hp as [Hb [Hlast Hlink]].
    destruct r1 as [from' | x | ]; [| split; assumption ..].
    destruct (Hlink from' eq_refl) as [Hpos' Hlow'].
    eapply wp_mono; [exact (IH from' s1 Hrest Hpos' Hlow') |].
    cbv beta. intros r2 s2 t2 [Hb2 Hlast2]. rewrite Hlast in *.
    split; [apply blocksFrom_app; assumption |].
    rewrite lastBlock_app. exact Hlast2.
Qed.

(** *** Batch counts *)

Lemma lastCount_app low t1 t2 :
  lastCount low (t1 ++ t2) = lastCount (lastCount low t1) t2.
Proof. unfold lastCount. apply fold_left_app. Qed.

Lemma lastCount_cons low ev t :
  lastCount low (ev :: t)
  = lastCount (match ev with StoreLastRead _ count => count | _ => low end) t.
Proof. reflexivity. Qed.

Lemma lastCount_nil low : lastCount low [] = low.
Proof. reflexivity. Qed.

Lemma countsFrom_app low t1 t2 :
  countsFrom low t1 -> countsFrom (lastCount low t1) t2 ->
  countsFrom low (t1 ++ t2).
Proof.
  revert low. induction t1 as [| ev t1 IH]; intros low H1 H2; simpl.
  - exact H2.
  - destruct ev; simpl in *; try (apply IH; assumption).
    destruct H1 as [Hle H1]. split; [exact Hle | apply IH; assumption].
Qed.

Lemma countsFrom_lastCount low t : countsFrom low t -> low <= lastCount low t.
Proof.
  revert low. induction t as [| ev t IH]; intros low H.
  - rewrite lastCount_nil. lia.
  - rewrite lastCount_cons.
    destruct ev; simpl in H; try (apply IH; exact H).
    destruct H as [Hle H]. apply IH in H. lia.
Qed.

Lemma lastCount_replay t : forall r,
  lastReadBatchCount (replay t r) = lastCount (lastReadBatchCount r) t.
Proof.
  induction t as [| ev t IH]; intros r; [reflexivity |].
  rewrite replay_cons, lastCount_cons, IH. destruct ev; reflexivity.
Qed.

Lemma seenCoversRead_app t1 : forall r t2,
  seenCoversRead r t1 -> seenCoversRead (replay t1 r) t2 ->
  seenCoversRead r (t1 ++ t2).
Proof.
  induction t1 as [| ev t1 IH]; intros r t2 H1 H2; simpl.
  - exact H2.
  - destruct H1 as [Hev H1]. split; [exact Hev |].
    apply IH; [exact H1 |]. rewrite replay_cons in H2. exact H2.
Qed.

Lemma handedStores_nil prev : handedStores prev [].
Proof. exact I. Qed.

Lemma handedStores_cons prev ev t :
  match ev with
  | StoreLastRead _ batchCount =>
      match prev with
      | Some (Tracker_AddSequencerBatches (firstBatch :: rest)) =>
          batchCount = countAfter firstBatch rest
      | _ => False
      end
  | _ => True
  end ->
  handedStores (Some ev) t -> handedStores prev (ev :: t).
Proof. intros H1 H2. split; assumption. Qed.

Lemma handedStores_app t1 : forall prev t2,
  handedStores prev t1 -> (forall p, handedStores p t2) ->
  handedStores prev (t1 ++ t2).
Proof.
  induction t1 as [| ev t1 IH]; intros prev t2 H1 H2; simpl.
  - apply H2.
  - destruct H1 as [Hev H1]. split; [exact Hev | apply IH; assumption].
Qed.

Lemma handedStores_notStore t :
  Forall notStore t -> forall prev, handedStores prev t.
Proof.
  induction 1 as [| ev t Hev _ IH]; intros prev.
  - exact I.
  - split; [| apply IH]. destruct ev; simpl in Hev; try tauto; exact I.
Qed.

Lemma notStore_trackerRead ev : trackerRead ev -> notStore ev.
Proof. destruct ev; simpl; tauto. Qed.

Lemma notStore_probeEvent ch ev : probeEvent ch ev -> notStore ev.
Proof. destruct ev; simpl; tauto. Qed.

Lemma notStore_pacingEvent ev : pacingEvent ev -> notStore ev.
Proof. destruct ev; simpl; tauto. Qed.

Ltac notStore_trace :=
  repeat (first [ apply Forall_app; split
                | apply Forall_nil
                | apply Forall_cons; [exact I |]
                | solve [ eapply Forall_impl; [| eassumption];
                          first [ exact notStore_trackerRead
                                | apply notStore_probeEvent
                                | exact notStore_pacingEvent ] ]
                | assumption ]).

Ltac handed_facts :=
  unfold keepsReader in *; cbn in *;
  repeat match goal with
         | H : _ /\ _ |- _ => destruct H
         end;
  repeat match goal with
         | H : Forall trackerRead ?t |- _ =>
             lazymatch goal with
             | _ : forall prev, handedStores prev t |- _ => fail
             | _ =>
                 let Hh := fresh "Hh" in
                 assert (Hh : forall prev, handedStores prev t)
                   by (apply handedStores_notStore;
                       eapply Forall_impl; [| exact H];
                       exact notStore_trackerRead)
             end
         end;
  repeat match goal with
         | H : seenBatchCount _ = _ |- _ => rewrite H in *; clear H
         end.

Ltac handed_solve :=
  repeat lazymatch goal with
         | |- handedStores _ [] => apply handedStores_nil
         | |- handedStores _ (_ :: _) =>
             apply handedStores_cons;
             [solve [cbn; first [exact I | reflexivity]] |]
         | |- handedStores _ (_ ++ _) =>
             apply handedStores_app; [solve [auto] | intros ?]
         | |- handedStores _ _ => solve [auto]
         end.

(** The stores of an iteration of the range scan follow the handing of
    batches; an iteration that leaves [readAnyBatches] false has stored
    nothing. *)
Lemma scanIteration_handed v s :
  wp (scanIteration C firstMessageBlock v)
     (fun r s' t =>
        seenBatchCount s' = seenBatchCount s /\
        (forall prev, handedStores prev t) /\
        (r = Val None -> Forall notStore t) /\
        forall v', r = Val (Some v') -> readAnyBatches v' = false ->
          readAnyBatches v = false /\ Forall notStore t) s.
Proof.
  unfold scanIteration.
  wp_go mono_blocks; handed_facts;
    (split; [reflexivity |]);
    (split; [intros prev; solve [handed_solve] |]);
    (split; [try discriminate; intros _; solve [notStore_trace] |]);
    try discriminate;
    intros v' [= <-]; cbn; try discriminate;
    intros Hread; unfold pastCurrentHeight in *;
    repeat match goal with
           | H : (if ?b then _ else _) = Some _ |- _ => destruct b
           | H : Some _ = Some _ |- _ => injection H as <-
           | H : None = Some _ |- _ => discriminate H
           end;
    cbn in *; (split; [assumption | solve [notStore_trace]]).
Qed.

Lemma scanLoop_handed fuel : forall v s,
  wp (scanLoop C firstMessageBlock fuel v)
     (fun r s' t =>
        seenBatchCount s' = seenBatchCount s /\
        (forall prev, handedStores prev t) /\
        forall v', r = Val v' -> readAnyBatches v' = false ->
          readAnyBatches v = false /\ Forall notStore t) s.
Proof.
  induction fuel as [| fuel IH]; intros v s; simpl.
  - wp_go idtac. split; [reflexivity |].
    split; [intros prev; apply handedStores_nil | discriminate].
  - apply wp_bind. wp_use scanIteration_handed.
    destruct H as [Hseen [Hh [Hbreak Hnext]]].
    destruct r as [[v1 | ] | x | ].
    + wp_use IH. destruct H as [Hseen2 [Hh2 Hnext2]].
      split; [congruence |].
      split; [intros prev; apply handedStores_app; auto |].
      intros v' Hv' Hread. destruct (Hnext2 v' Hv' Hread) as [Hread1 Ht2].
      destruct (Hnext v1 eq_refl Hread1) as [Hread0 Ht1].
      split; [exact Hread0 | apply Forall_app; split; assumption].
    + wp_go idtac. rewrite app_nil_r.
      split; [exact Hseen |]. split; [exact Hh |].
      intros v' [= <-] Hread. split; [exact Hread | apply Hbreak; reflexivity].
    + split; [exact Hseen |]. split; [exact Hh | discriminate].
    + split; [exact Hseen |]. split; [exact Hh | discriminate].
Qed.

(** The stores of a pass: either all of them follow the handing of
    batches, or the pass has stored the batch count its probe checked,
    once and with no store before it. *)
Lemma pass_shape fuel from s :
  wp (pass C config firstMessageBlock fuel from)
     (fun _ s' t =>
        (forall prev, handedStores prev t) \/
        (exists a block checking m,
           t = a ++ StoreLastRead block checking :: m /\
           Forall notStore a /\
           (m = [] \/ m = [StoreLastSeenBatchCount (seenBatchCount s')]) /\
           checkedCount C config firstMessageBlock fuel from s = Some checking /\
           checking <= seenBatchCount s')) s.
Proof.
  unfold pass. apply wp_bind. apply wp_intro. intros r0 s0 t0 E0.
  use_frame (pacing_frame C config fuel from s) E0.
  destruct Hframe as [_ [Ht0 _]].
  apply (Forall_impl notStore notStore_pacingEvent) in Ht0.
  destruct r0 as [latest | x | ];
    [| left; apply handedStores_notStore; assumption ..].
  set (ch := delayWindow config firstMessageBlock latest) in *.
  unfold passAt. apply wp_bind. apply wp_intro. intros r1 s1 t1 E1.
  use_frame (probeDelayed_frame C config ch s0) E1.
  destruct Hframe as [_ Ht1].
  apply (Forall_impl notStore (@notStore_probeEvent ch)) in Ht1.
  assert (Ht01 : Forall notStore (t0 ++ t1)) by (apply Forall_app; auto).
  destruct r1 as [[md rd] | x | ];
    [| left; apply handedStores_notStore; assumption ..].
  apply wp_bind. apply wp_intro. intros r2 s2 t2 E2.
  use_frame (probeSequencer_frame C config ch s1) E2.
  destruct Hframe as [_ [_ [Ht2 Hcnt]]].
  apply (Forall_impl notStore (@notStore_probeEvent ch)) in Ht2.
  assert (Ht012 : Forall notStore (t0 ++ t1 ++ t2))
    by (repeat (apply Forall_app; split); auto).
  destruct r2 as [[[cnt ms] rs] | x | ];
    [| left; apply handedStores_notStore; assumption ..].
  destruct (Hcnt cnt ms rs eq_refl) as [Hle _].
  assert (Hchecked : checkedCount C config firstMessageBlock fuel from s = Some cnt).
  { unfold checkedCount. rewrite E0. cbv zeta. fold ch. rewrite E1, E2.
    reflexivity. }
  destruct (negb md && negb rd && negb ms && negb rs) eqn:Eidle.
  - wp_go ltac:(unfold storeSeenBatchCount); cbn;
      right; exists (t0 ++ t1 ++ t2), (BigUint64 ch), cnt;
      eexists; (split; [rewrite <- !app_assoc; reflexivity |]);
      (split; [assumption |]);
      (split; [first [left; reflexivity | right; reflexivity] |]);
      split; assumption.
  - apply wp_bind.
    wp_use (scanLoop_handed fuel
              (scanStart ch from md rd ms rs) s2).
    destruct H as [Hseen3 [Hh3 Hnone3]].
    assert (Hh : forall prev, handedStores prev (t0 ++ t1 ++ t2 ++ t))
      by (intros prev; rewrite !app_assoc; apply handedStores_app;
          [ apply handedStores_notStore; rewrite <- !app_assoc; assumption
          | exact Hh3 ]).
    destruct r as [v3 | x | ]; [| left; exact Hh ..].
    unfold passEpilogue.
    destruct (readAnyBatches v3) eqn:Eread; cbn [negb].
    + wp_go idtac. left. rewrite !app_nil_r. exact Hh.
    + destruct (Hnone3 v3 eq_refl Eread) as [_ Ht3].
      wp_go ltac:(unfold storeSeenBatchCount); cbn;
        right; exists (t0 ++ t1 ++ t2 ++ t), (BigUint64 (currentHeight v3)), cnt;
        eexists; (split; [rewrite <- !app_assoc; reflexivity |]);
        (split; [repeat (apply Forall_app; split); assumption |]);
        (split; [first [left; reflexivity | right; reflexivity] |]);
        rewrite ?Hseen3; split; assumption.
Qed.

(** Stores that follow the handing of batches publish batch counts that
    go upward and stay at or below the seen batch count, when the lists
    handed do. *)
Lemma handed_counts seen : forall t prev r high,
  handedStores prev t -> published seen prev t -> handedFrom high seen t ->
  lastReadBatchCount r <= high ->
  (forall firstBatch rest,
     prev = Some (Tracker_AddSequencerBatches (firstBatch :: rest)) ->
     high = countAfter firstBatch rest /\ high <= seen) ->
  (forall block batchCount,
     prev = Some (StoreLastRead block batchCount) ->
     lastReadBatchCount r <= seen) ->
  countsFrom (lastReadBatchCount r) t /\ seenCoversRead r t.
Proof.
  induction t as [| ev t IH]; intros prev r high Hh Hp Hf Hle Hadd Hread.
  - split; exact I.
  - destruct Hh as [Hev Hh]. destruct Hp as [Hok Hp].
    destruct ev;
      try (simpl in Hf;
           destruct (IH _ r high Hh Hp Hf Hle) as [Hc Hs];
           [ intros ? ? [=] | intros ? ? [=] | ];
           split; [exact Hc | split; [exact I | exact Hs]]).
    + destruct batches as [| firstBatch rest].
      * simpl in Hf.
        destruct (IH _ r high Hh Hp Hf Hle) as [Hc Hs];
          [ intros ? ? [=] | intros ? ? [=] | ].
        split; [exact Hc | split; [exact I | exact Hs]].
      * simpl in Hf. destruct Hf as [Hbound Hf].
        destruct (IH _ r _ Hh Hp Hf) as [Hc Hs];
          [ lia | intros ? ? [= <- <-]; split; [reflexivity | lia]
          | intros ? ? [=] | ].
        split; [exact Hc | split; [exact I | exact Hs]].
    + destruct prev as [[] | ]; try contradiction.
      destruct batches as [| firstBatch rest]; [contradiction |].
      destruct (Hadd firstBatch rest eq_refl) as [Ehigh Hseen].
      subst batchCount. rewrite <- Ehigh in *.
      simpl in Hf.
      destruct (IH _ (applyEvent (StoreLastRead block high) r) high Hh Hp Hf)
        as [Hc Hs];
        [ cbn; lia | intros ? ? [=] | intros ? ? _; cbn; exact Hseen | ].
      split; [split; [exact Hle | exact Hc] | split; [exact I | exact Hs]].
    + destruct Hok as [-> Hprev].
      destruct prev as [[] | ]; try contradiction.
      specialize (Hread _ _ eq_refl). simpl in Hf.
      destruct (IH _ (applyEvent (StoreLastSeenBatchCount seen) r) high Hh Hp Hf)
        as [Hc Hs]; [ cbn; lia | intros ? ? [=] | intros ? ? [=] | ].
      split; [exact Hc | split; [cbn; exact Hread | exact Hs]].
    + simpl in Hf.
      destruct (IH _ (applyEvent SendCaughtUp r) high Hh Hp Hf) as [Hc Hs];
        [ cbn; exact Hle | intros ? ? [=] | intros ? ? [=] | ].
      split; [exact Hc | split; [exact I | exact Hs]].
Qed.

Lemma countsFrom_notRead low t : Forall notRead t -> countsFrom low t.
Proof.
  intros H. revert low. induction H as [| ev t Hev _ IH]; intros low.
  - exact I.
  - destruct ev; simpl in Hev; try tauto; apply IH.
Qed.

Lemma lastCount_notRead low t : Forall notRead t -> lastCount low t = low.
Proof.
  intros H. revert low. induction H as [| ev t Hev _ IH]; intros low.
  - reflexivity.
  - rewrite lastCount_cons, IH. destruct ev; simpl in Hev; tauto || reflexivity.
Qed.

Lemma notRead_notStore ev : notStore ev -> notRead ev.
Proof. destruct ev; simpl; tauto. Qed.

Lemma seenCoversRead_notStore t : forall r,
  Forall notStore t -> seenCoversRead r t.
Proof.
  induction t as [| ev t IH]; intros r H; [exact I |].
  inversion H as [| ? ? Hev Ht]; subst.
  split; [| apply IH; exact Ht].
  destruct ev; simpl in Hev; try tauto; exact I.
Qed.

Lemma pass_counts fuel from s :
  steadyCounts C config firstMessageBlock fuel from s ->
  wp (pass C config firstMessageBlock fuel from)
     (fun _ s' t =>
        countsFrom (lastReadBatchCount (reader s)) t /\
        seenCoversRead (reader s) t /\
        reader s' = replay t (reader s)) s.
Proof.
  intros [Hprobe Hhanded].
  pose proof (pass_shape fuel from s) as Hshape.
  pose proof (pass_published C config firstMessageBlock fuel from s) as Hpub.
  unfold wp, stateOf, traceOf in *.
  destruct (pass C config firstMessageBlock fuel from s) as [[r s'] t].
  cbn in Hhanded. destruct Hpub as [Hreplay Hpub].
  assert (Hgoal : countsFrom (lastReadBatchCount (reader s)) t /\
                  seenCoversRead (reader s) t);
    [| destruct Hgoal; repeat split; assumption].
  destruct Hshape as [Hh | [a [block [checking [m [-> [Ha [Hm [Hchecked Hle]]]]]]]]].
  - eapply (@handed_counts (seenBatchCount s') t None);
      [ apply Hh | apply Hpub | exact Hhanded | lia
      | intros ? ? [=] | intros ? ? [=] ].
  - rewrite Hchecked in Hprobe.
    assert (Hra : lastReadBatchCount (replay a (reader s))
                  = lastReadBatchCount (reader s)).
    { rewrite lastCount_replay. apply lastCount_notRead.
      eapply Forall_impl; [| exact Ha]. exact notRead_notStore. }
    split.
    + apply countsFrom_app.
      * apply countsFrom_notRead.
        eapply Forall_impl; [| exact Ha]. exact notRead_notStore.
      * rewrite lastCount_notRead
          by (eapply Forall_impl; [| exact Ha]; exact notRead_notStore).
        split; [exact Hprobe |].
        destruct Hm as [-> | ->]; exact I.
    + apply seenCoversRead_app; [apply seenCoversRead_notStore; exact Ha |].
      split; [exact I |].
      destruct Hm as [-> | ->]; [exact I |].
      split; [cbn; exact Hle | exact I].
Qed.

Lemma passes_counts fuel n : forall from s,
  steadyPasses C config firstMessageBlock fuel n from s ->
  wp (passes C config firstMessageBlock fuel n from)
     (fun _ s' t =>
        countsFrom (lastReadBatchCount (reader s)) t /\
        seenCoversRead (reader s) t /\
        reader s' = replay t (reader s)) s.
Proof.
  induction n as [| n IH]; intros from s Hsteady; simpl.
  - wp_go idtac. repeat split.
  - destruct Hsteady as [_ [Hfirst Hrest]].
    apply wp_bind. apply wp_intro. intros r1 s1 t1 E1.
    rewrite E1 in Hrest.
    pose proof (@pass_counts fuel from s Hfirst) as Hp.
    unfold wp in Hp. rewrite E1 in Hp. destruct Hp as [Hc [Hs Hr]].
    destruct r1 as [from' | x | ]; [| repeat split; assumption ..].
    eapply wp_mono; [exact (IH from' s1 Hrest) |].
    cbv beta. intros r2 s2 t2 [Hc2 [Hs2 Hr2]]. rewrite Hr in *.
    split; [| split].
    + apply countsFrom_app; [exact Hc |].
      rewrite <- lastCount_replay. exact Hc2.
    + apply seenCoversRead_app; assumption.
    + rewrite replay_app. exact Hr2.
Qed.

End Monotone.
(** * Concrete runs *)

Section Runs.
Import Sim Scenarios.

(** The cold start of the specification's scenario S1, with the head
    already at block 20: one pass reads the three batches. *)
Example cold_start_reads_three_batches :
  let result := pass (quietChain 20) TestInboxReaderConfig 10 10 10 (fresh genesis) in
  outcomeOf result = Val 21 /\
  reader (stateOf result)
  = {| caughtUp := true; caughtUpChan := [true]; lastSeenBatchCount := 3;
       lastReadBlock := 20; lastReadBatchCount := 3 |}.
Proof. vm_compute. split; reflexivity. Qed.

Lemma sim_lookupsHonourRange (sc : Scenario) :
  lookupsHonourRange (collaborators sc).
Proof.
  split; intros from to w entries w' H; simpl in H; unfold answer in H;
    destruct (fault sc (clock w)); inversion H; subst;
    apply Forall_forall; intros x Hx; apply filter_In in Hx;
    destruct Hx as [_ Hx]; apply andb_prop in Hx; destruct Hx as [_ Hx];
    apply Z.leb_le; exact Hx.
Qed.

(** Witness of C4: with [firstMessageBlock = 10], the walker steps from
    25 back to 15, from 12 back to 10, and refuses to step back from 10. *)
Lemma getPrevBlockForReorg_spec_witness :
  getPrevBlockForReorg 10 25 = Ok 15 /\
  getPrevBlockForReorg 10 12 = Ok 10 /\
  getPrevBlockForReorg 10 10 = Err (errorString "can't get older messages").
Proof.
  split; [| split].
  - apply (proj1 (getPrevBlockForReorg_spec 10 25)). lia.
  - apply (proj1 (getPrevBlockForReorg_spec 10 12)). lia.
  - apply (proj2 (getPrevBlockForReorg_spec 10 10)). lia.
Defined.

(** Witness of C5: an empty tracker gives [firstMessageBlock]; a tracker
    whose last delayed message was posted at block 11 gives 11 when
    [firstMessageBlock] is 10 and 30 when it is 30. *)
Lemma getNextBlockToRead_spec_witness :
  outcomeOf (getNextBlockToRead (quietChain 20) 10 (fresh genesis)) = Val 10 /\
  outcomeOf (getNextBlockToRead (quietChain 20) 10 (fresh synced)) = Val 11 /\
  outcomeOf (getNextBlockToRead (quietChain 20) 30 (fresh synced)) = Val 30.
Proof.
  split; [| split].
  - eapply (proj1 (getNextBlockToRead_spec (quietChain 20) 10 (fresh genesis))).
    reflexivity.
  - eapply (proj2 (getNextBlockToRead_spec (quietChain 20) 10 (fresh synced))
              1 _ (Message initMessage)); [reflexivity | lia | reflexivity].
  - eapply (proj2 (getNextBlockToRead_spec (quietChain 20) 30 (fresh synced))
              1 _ (Message initMessage)); [reflexivity | lia | reflexivity].
Defined.

(** Witness of C8: the tracker holds batch 1, posted at block 15; the
    sequencer inbox is queried on [15, 15] and the bytes of batch 1 are
    returned. *)
Lemma GetSequencerMessageBytes_spec_witness :
  let result := GetSequencerMessageBytes (quietChain 20) 1 (fresh synced) in
  batchRangeQueries (traceOf result) = [(15, 15)] /\
  returned (outcomeOf result)
  = Some (Ok [Byte.x62; Byte.x61; Byte.x74; Byte.x63; Byte.x68]).
Proof.
  pose proof (@GetSequencerMessageBytes_spec World (quietChain 20) 1 (fresh synced)
                {| L1Block := 15 |} (tick synced) [batch 1 15] (tick (tick synced))
                eq_refl eq_refl) as H.
  destruct H as [Hq [_ [_ Hr]]]. split; [exact Hq | exact Hr].
Defined.

(** Witness of C9: batch 0 and delayed message 0 are accepted without a
    look at the tracker. *)
Lemma genesis_entry_not_chained_witness :
  checkFirstBatch (quietChain 20) (batch 0 12) (fresh genesis)
  = (Val false, fresh genesis, []) /\
  checkFirstMessage (quietChain 20) initMessage (fresh genesis)
  = (Val false, fresh genesis, []).
Proof.
  destruct (@genesis_entry_not_chained World (quietChain 20)) as [Hb [Hm _]].
  split.
  - apply Hb. reflexivity.
  - apply Hm. reflexivity.
Defined.

(** Witness of C2: applying the bundle of the cold start publishes block
    20 and batch count 3. *)
Lemma applyBundle_spec_witness :
  let result :=
    applyBundle (quietChain 20) false false false 20
      [batch 0 12; batch 1 15; batch 2 18] [initMessage] (fresh genesis) in
  outcomeOf result = Val (false, true) /\
  lastReadBlock (reader (stateOf result)) = 20 /\
  lastReadBatchCount (reader (stateOf result)) = 3.
Proof.
  pose proof (@applyBundle_spec World (quietChain 20) 20
                [batch 0 12; batch 1 15; batch 2 18] [initMessage] false
                (fresh genesis)) as H.
  destruct H as [_ H]; [left; discriminate |].
  destruct (H _ None _ eq_refl eq_refl) as [_ [_ [_ Hok]]].
  destruct (Hok eq_refl (batch 0 12) [batch 1 15; batch 2 18] eq_refl)
    as [Hout [_ [_ [Hblock Hcount]]]].
  split; [exact Hout |]. split.
  - apply Hblock. unfold MaxUint64. lia.
  - apply Hcount. unfold MaxUint64. simpl. lia.
Defined.
Lemma no_store_no_chunk {W : Type} (C : Collaborators W) (t : list Event) :
  Forall notStore t -> ~ chunkApplied C t.
Proof.
  intros Hall [pre [bs [block [cnt [post [w [answer [w' [_ [-> _]]]]]]]]]].
  apply Forall_app in Hall. destruct Hall as [_ Hall].
  inversion Hall as [| ev1 t1 _ Hrest]; subst.
  inversion Hrest as [| ev2 t2 Hstore _]; subst. exact Hstore.
Qed.

(** Witness of C1: on the cold start the tracker refuses the three
    batches handed to it, and the counters stay 0; after a cold start that
    went well the counters are 20, 3 and 3, the next pass fails at the
    sequencer inbox's batch-count query, and leaves them so.  The deferred
    store of [run] then writes 0 to [lastSeenBatchCount]. *)
Lemma failed_pass_counters_witness :
  let refused := pass (collaborators (chain 20 (failAt 10) 42 no))
                      TestInboxReaderConfig 10 10 10 (fresh genesis) in
  let s := stateOf (pass (quietChain 20) TestInboxReaderConfig 10 10 10 (fresh genesis)) in
  let result := pass (collaborators (chain 20 (failAt 18) 42 no))
                     TestInboxReaderConfig 10 10 21 s in
  (outcomeOf refused = Exit (Some (errorString "connection refused")) /\
   In (Tracker_AddSequencerBatches [batch 0 12; batch 1 15; batch 2 18])
      (traceOf refused) /\
   lastReadBlock (reader (stateOf refused)) = 0 /\
   lastReadBatchCount (reader (stateOf refused)) = 0 /\
   lastSeenBatchCount (reader (stateOf refused)) = 0) /\
  (outcomeOf result = Exit (Some (errorString "connection refused")) /\
   lastReadBlock (reader (stateOf result)) = 20 /\
   lastReadBatchCount (reader (stateOf result)) = 3 /\
   lastSeenBatchCount (reader (stateOf result)) = 3 /\
   lastSeenBatchCount
     (reader (stateOf (@storeSeenBatchCount World (option error) (stateOf result))))
   = 0).
Proof.
  intros refused s result. split.
  - assert (Hout : outcomeOf refused = Exit (Some (errorString "connection refused")))
      by (vm_compute; reflexivity).
    assert (Hna : ~ chunkApplied (collaborators (chain 20 (failAt 10) 42 no))
                    (traceOf refused)).
    { apply no_store_no_chunk. vm_compute. repeat constructor. }
    destruct (@failed_pass_counters World (collaborators (chain 20 (failAt 10) 42 no))
                TestInboxReaderConfig 10 10 10 (fresh genesis) _ Hout)
      as [Hkeep _].
    destruct (Hkeep Hna) as [Hblock [Hcount [Hseen _]]].
    split; [exact Hout |].
    split; [vm_compute; repeat (first [left; reflexivity | right]) |].
    split; [exact Hblock |]. split; [exact Hcount | exact Hseen].
  - assert (Hout : outcomeOf result = Exit (Some (errorString "connection refused")))
      by (vm_compute; reflexivity).
    assert (Hna : ~ chunkApplied (collaborators (chain 20 (failAt 18) 42 no))
                    (traceOf result)).
    { apply no_store_no_chunk. vm_compute. repeat constructor. }
    destruct (@failed_pass_counters World (collaborators (chain 20 (failAt 18) 42 no))
                TestInboxReaderConfig 10 10 21 s _ Hout)
      as [Hkeep [[_ [_ Hdefer]] _]].
    destruct (Hkeep Hna) as [Hblock [Hcount [Hseen _]]].
    split; [exact Hout |].
    split; [etransitivity; [exact Hblock | vm_compute; reflexivity] |].
    split; [etransitivity; [exact Hcount | vm_compute; reflexivity] |].
    split; [etransitivity; [exact Hseen | vm_compute; reflexivity] |].
    etransitivity; [exact Hdefer | vm_compute; reflexivity].
Defined.

(** Counterexample to C1 as stated: with the head at block 200 the cold
    start reads blocks 10 to 110 and publishes them; the range query of the
    next chunk fails, and the pass ends in that error with all three
    counters changed. *)
Lemma failed_pass_moves_counters_counterexample :
  let C := collaborators (chain 200 (failAt 12) 42 no) in
  let s := fresh genesis in
  let result := pass C TestInboxReaderConfig 10 10 10 s in
  outcomeOf result = Exit (Some (errorString "connection refused")) /\
  lastReadBlock (reader s) = 0 /\
  lastReadBlock (reader (stateOf result)) = 110 /\
  lastReadBatchCount (reader s) = 0 /\
  lastReadBatchCount (reader (stateOf result)) = 3 /\
  lastSeenBatchCount (reader s) = 0 /\
  lastSeenBatchCount (reader (stateOf result)) = 3.
Proof. vm_compute. repeat split; reflexivity. Qed.

(** Witness of C3: with [DelayBlocks = 5] and the head at block 20, the
    cold start from block 10 has [currentHeight = 15] and stays at or below
    it. *)
Lemma pass_within_delay_window_witness :
  let C := quietChain 20 in
  let t := traceOf (pass C delayedConfig 10 10 10 (fresh genesis)) in
  lookupsHonourRange C /\
  latestHeaderOf t = Some {| Number := 20 |} /\
  10 <= Z.max (20 - DelayBlocks delayedConfig) 10 /\
  Forall (withinHeight 15) t.
Proof.
  intros C t. split; [apply sim_lookupsHonourRange |].
  pose proof (@pass_within_delay_window World C delayedConfig 10
                (sim_lookupsHonourRange _) 10 10 (fresh genesis)) as H.
  cbv zeta in H. fold t in H.
  assert (E : latestHeaderOf t = Some {| Number := 20 |}) by (vm_compute; reflexivity).
  rewrite E in H. split; [exact E |].
  split; [vm_compute; discriminate |].
  destruct H as [Hw _]. apply Hw. vm_compute. discriminate.
Defined.

(** Counterexample to C3 as stated: with [DelayBlocks = 5],
    [firstMessageBlock = 10] and the head at block 12, the pass queries the
    delayed bridge at block 10, which is above 12 - 5. *)
Lemma delay_window_floor_counterexample :
  let t := traceOf (pass (quietChain 12) delayedConfig 10 10 10 (fresh genesis)) in
  latestHeaderOf t = Some {| Number := 12 |} /\
  In (DelayedBridge_GetMessageCount 10) t /\
  ~ withinHeight (12 - DelayBlocks delayedConfig) (DelayedBridge_GetMessageCount 10).
Proof.
  intros t. split; [vm_compute; reflexivity |]. split.
  - vm_compute. repeat (first [left; reflexivity | right]).
  - simpl. lia.
Qed.

(** The in-place overwrite at work: the scan starts above
    [currentHeight] while entries are missing, so [from] becomes the very
    integer of [currentHeight]; the entries of block 20 are accepted, and
    [from.Add(to, 1)] then moves [currentHeight] along with [from].  The
    scan goes on past the head, one block at a time. *)
Example scan_runs_past_the_head :
  let t := traceOf (pass (collaborators youngChain) TestInboxReaderConfig 10 3 25
                         (fresh genesis)) in
  latestHeaderOf t = Some {| Number := 20 |} /\
  overwritten t /\
  In (SequencerInbox_LookupBatchesInRange 21 21) t /\
  In (SequencerInbox_LookupBatchesInRange 22 22) t.
Proof.
  intros t. split; [vm_compute; reflexivity |]. split.
  - exists 21. vm_compute. repeat (first [left; reflexivity | right]).
  - split; vm_compute; repeat (first [left; reflexivity | right]).
Qed.

(** Witness of C6: a tracker that stays empty, a tracker filled during the
    third sleep with the configured chain-id, and the same with another
    chain-id configured. *)
Lemma Start_spec_witness :
  outcomeOf (Start (collaborators (chain 20 never 42 no)) (fresh genesis))
  = Exit (errorString "failed to read init message") /\
  outcomeOf (Start (collaborators (chain 20 never 42 (Nat.eqb 5))) (fresh genesis))
  = Val tt /\
  outcomeOf (Start (collaborators (chain 20 never 1 (Nat.eqb 5))) (fresh genesis))
  = Exit (errorString
            "expected L2 chain ID 1 but read L2 chain ID 42 from init message in L1 inbox").
Proof.
  split; [| split].
  - eapply (proj1 (@Start_spec World (collaborators (chain 20 never 42 no))
                     (fresh genesis)));
      [vm_compute; reflexivity | vm_compute; reflexivity | lia].
  - edestruct (proj2 (@Start_spec World (collaborators (chain 20 never 42 (Nat.eqb 5)))
                        (fresh genesis)) 3%nat) as [_ Hok];
      [ lia | vm_compute; reflexivity | vm_compute; reflexivity | lia
      | vm_compute; reflexivity | vm_compute; reflexivity | ].
    apply Hok. reflexivity.
  - edestruct (proj2 (@Start_spec World (collaborators (chain 20 never 1 (Nat.eqb 5)))
                        (fresh genesis)) 3%nat) as [Hbad _];
      [ lia | vm_compute; reflexivity | vm_compute; reflexivity | lia
      | vm_compute; reflexivity | vm_compute; reflexivity | ].
    apply Hbad. vm_compute. discriminate.
Defined.

(** Counterexample to C6 as stated: the tracker is filled during the
    300th sleep.  All of the first 300 polls found no batch, and [Start]
    polls once more and succeeds. *)
Lemma Start_polls_once_more_counterexample :
  let C := collaborators (chain 20 never 42 (Nat.eqb 599)) in
  let s := fresh genesis in
  (exists w, zeroPolls C 300 (Runtime.CallIteratively (runtime C) (world s)) = Some w) /\
  outcomeOf (Start C s) = Val tt.
Proof.
  intros C s. split.
  - eexists. vm_compute. reflexivity.
  - vm_compute. reflexivity.
Qed.



(** Witness of C10: the first scan iteration of the cold start sends the
    signal, with [to] equal to [currentHeight]; a reader whose tracker
    holds the whole chain finds it matching in each of its passes, and
    [run] sends nothing. *)
Lemma caught_up_only_from_scan_witness :
  let v := scanStart 20 10 true false true false in
  let s := fresh genesis in
  let result := run (quietChain 20) TestInboxReaderConfig 10 3 (fresh synced) in
  In SendCaughtUp (traceOf (scanIteration (quietChain 20) 10 v s)) /\
  (exists v1, pastCurrentHeight v = Some v1 /\ scanTo v1 = currentHeight v1) /\
  trackerAlwaysMatches (quietChain 20) TestInboxReaderConfig 10 3 (fresh synced) /\
  Forall outsideScan (traceOf result) /\
  caughtUpChan (reader (stateOf result)) = [].
Proof.
  intros v s result.
  assert (Hsend : In SendCaughtUp (traceOf (scanIteration (quietChain 20) 10 v s))).
  { vm_compute. repeat (first [left; reflexivity | right]). }
  assert (Hmatch : trackerAlwaysMatches (quietChain 20) TestInboxReaderConfig 10 3
                     (fresh synced)).
  { vm_compute. repeat split. }
  destruct (@caught_up_only_from_scan World (quietChain 20) TestInboxReaderConfig 10)
    as [_ [Hiter [_ Hrun]]].
  split; [exact Hsend |]. split.
  - destruct (Hiter v s Hsend) as [_ Hto]. exact Hto.
  - split; [exact Hmatch |].
    destruct (Hrun 3%nat (fresh synced) Hmatch) as [Hquiet [_ Hchan]].
    split; [exact Hquiet | exact Hchan].
Defined.
End Runs.
(** * Further properties *)

(** ** The reorg walker, the query helpers and the bootstrap gate *)

Section Helpers2.
Context {W : Type}.
Variable C : Collaborators W.
Variable config : InboxReaderConfig.
Variable firstMessageBlock : Z.

(** Walking back [n] times from a block at or above [firstMessageBlock]
    gives [max (from - 10 n) firstMessageBlock] as long as the walk has not
    yet stood on [firstMessageBlock] before its last step, and fails with
    the error that no older messages can be had from then on: the search
    for the block of a reorg ends. *)
Theorem walkBack_spec (n : nat) : forall from : Z,
  firstMessageBlock <= from ->
  (10 * Z.of_nat n < from - firstMessageBlock + 10 ->
   walkBack firstMessageBlock n from
   = Ok (Z.max (from - 10 * Z.of_nat n) firstMessageBlock)) /\
  (from - firstMessageBlock + 10 <= 10 * Z.of_nat n ->
   walkBack firstMessageBlock n from
   = Err (errorString "can't get older messages")).
Proof.
  induction n as [| n IH]; intros from Hfrom.
  - split; intros H; [| lia]. simpl. f_equal. lia.
  - cbn [walkBack]. unfold getPrevBlockForReorg.
    destruct (Z.leb_spec from firstMessageBlock) as [Hle | Hgt].
    + split; intros H; [lia | reflexivity].
    + destruct (Z.ltb_spec (from - 10) firstMessageBlock) as [Hlow | Hhigh].
      * destruct (IH firstMessageBlock (Z.le_refl _)) as [IHok IHerr].
        split; intros H.
        -- rewrite IHok by lia. f_equal. lia.
        -- apply IHerr. lia.
      * destruct (IH (from - 10) Hhigh) as [IHok IHerr].
        split; intros H.
        -- rewrite IHok by lia. f_equal. lia.
        -- apply IHerr. lia.
Qed.

Lemma getNextBlockToRead_frame (s : State W) :
  wp (getNextBlockToRead C firstMessageBlock)
     (fun r s' t =>
        keepsReader s s' /\ Forall trackerRead t /\ r <> OutOfFuel) s.
Proof.
  unfold getNextBlockToRead.
  wp_go idtac; unfold keepsReader; cbn;
    (split; [auto |]); (split; [repeat constructor | discriminate]).
Qed.

(** [getNextBlockToRead] only reads the tracker, never gives a block below
    [firstMessageBlock], and fails only with the error of the tracker's
    delayed count or of the tracker's read of the last delayed message. *)
Theorem getNextBlockToRead_floor (s : State W) :
  let result := getNextBlockToRead C firstMessageBlock s in
  reader (stateOf result) = reader s /\
  Forall trackerRead (traceOf result) /\
  match outcomeOf result with
  | Val from => firstMessageBlock <= from
  | Exit e =>
      (exists w, InboxTracker.GetDelayedCount (tracker C) (world s) = (Err e, w)) \/
      (exists delayedCount w w',
         InboxTracker.GetDelayedCount (tracker C) (world s) = (Ok delayedCount, w) /\
         delayedCount <> 0 /\
         InboxTracker.GetDelayedMessage (tracker C) (delayedCount - 1) w = (Err e, w'))
  | OutOfFuel => False
  end.
Proof.
  unfold getNextBlockToRead, tracker_GetDelayedCount, tracker_GetDelayedMessage.
  unfold_monad. unfold outcomeOf, stateOf, traceOf.
  destruct (InboxTracker.GetDelayedCount (tracker C) (world s))
    as [[delayedCount | e] w] eqn:Ecount; simpl.
  - destruct (Z.eqb_spec delayedCount 0) as [-> | Hne]; simpl.
    + repeat split; [repeat constructor | lia].
    + destruct (InboxTracker.GetDelayedMessage (tracker C) (delayedCount - 1) w)
        as [[msg | e] w'] eqn:Emsg; simpl.
      * repeat split; [repeat constructor |].
        unfold arbmath.BigLessThan.
        destruct (Z.ltb_spec (BlockNumber (Header msg)) firstMessageBlock); lia.
      * repeat split; [repeat constructor |].
        right. exists delayedCount, w, w'. auto.
  - repeat split; [repeat constructor |]. left. exists w. reflexivity.
Qed.

(** [GetSequencerMessageBytes] returns the error of the metadata lookup
    without a query to the sequencer inbox, and the error of the range
    query without serializing anything; it never changes the reader. *)
Theorem GetSequencerMessageBytes_errors (seqNum : Z) (s : State W) :
  let result := GetSequencerMessageBytes C seqNum s in
  (forall e w,
     InboxTracker.GetBatchMetadata (tracker C) seqNum (world s) = (Err e, w) ->
     outcomeOf result = Exit e /\
     traceOf result = [Tracker_GetBatchMetadata seqNum]) /\
  (forall metadata w1 e w2,
     InboxTracker.GetBatchMetadata (tracker C) seqNum (world s) = (Ok metadata, w1) ->
     SequencerInbox.LookupBatchesInRange (sequencerInbox C)
       (L1Block metadata) (L1Block metadata) w1 = (Err e, w2) ->
     outcomeOf result = Exit e /\
     traceOf result
     = [Tracker_GetBatchMetadata seqNum;
        SequencerInbox_LookupBatchesInRange (L1Block metadata) (L1Block metadata)]) /\
  reader (stateOf result) = reader s /\
  outcomeOf result <> OutOfFuel.
Proof.
  unfold GetSequencerMessageBytes, tracker_GetBatchMetadata,
    sequencerInbox_LookupBatchesInRange.
  unfold_monad. unfold outcomeOf, stateOf, traceOf.
  destruct (InboxTracker.GetBatchMetadata (tracker C) seqNum (world s))
    as [[metadata | e] w1] eqn:Emd; simpl.
  - destruct (SequencerInbox.LookupBatchesInRange (sequencerInbox C)
                (L1Block metadata) (L1Block metadata) w1)
      as [[seqBatches | e] w2] eqn:Elk; simpl.
    + rewrite serializeMatching_spec.
      split; [intros ? ? [=] |].
      split; [intros ? ? ? ? [= <- <-] Hlk; rewrite Elk in Hlk; discriminate |].
      destruct (findBatch seqNum seqBatches) as [batch | ]; simpl.
      * destruct (SequencerInbox.Serialize (sequencerInbox C) batch w2)
          as [[bytes | e'] wS]; simpl; (split; [reflexivity | intros Hx; discriminate Hx]).
      * split; [reflexivity | discriminate].
    + split; [intros ? ? [=] |].
      split; [intros ? ? ? ? [= <- <-] Hlk; rewrite Elk in Hlk;
              injection Hlk as <- <-; auto |].
      split; [reflexivity | discriminate].
  - split; [intros ? ? [= <- <-]; auto |].
    split; [intros ? ? ? ? [=] |]. split; [reflexivity | discriminate].
Qed.

(** [skipKnownBatches] only reads the tracker and returns a suffix of the
    batches it is given.  It drops a leading batch exactly when the tracker
    holds, at the sequence number of that batch, an accumulator equal to
    the batch's [BeforeInboxAcc]; it stops at the first batch for which the
    tracker answers with another accumulator or with the
    accumulator-not-found error, and returns any other error. *)
Theorem skipKnownBatches_spec (sequencerBatches : list SequencerInboxBatch) :
  forall s : State W,
  let result := skipKnownBatches C sequencerBatches s in
  reader (stateOf result) = reader s /\
  Forall trackerRead (traceOf result) /\
  match outcomeOf result with
  | Val rest =>
      exists skipped,
        sequencerBatches = skipped ++ rest /\
        Forall (fun batch =>
                  exists w w',
                    InboxTracker.GetBatchAcc (tracker C) (SequenceNumber batch) w
                    = (Ok (BeforeInboxAcc batch), w')) skipped /\
        match rest with
        | [] => True
        | batch :: _ =>
            exists w answer w',
              InboxTracker.GetBatchAcc (tracker C) (SequenceNumber batch) w
              = (answer, w') /\
              match answer with
              | Ok haveAcc => haveAcc <> BeforeInboxAcc batch
              | Err err => errors_Is err accumulatorNotFound = true
              end
        end
  | Exit x =>
      exists batch w err w',
        In batch sequencerBatches /\
        InboxTracker.GetBatchAcc (tracker C) (SequenceNumber batch) w = (Err err, w') /\
        errors_Is err accumulatorNotFound = false /\
        x = Some err
  | OutOfFuel => False
  end.
Proof.
  induction sequencerBatches as [| batch rest IH]; intros s.
  - simpl. repeat split; [constructor |]. exists []. repeat split. constructor.
  - cbn [skipKnownBatches]. unfold tracker_GetBatchAcc. unfold_monad.
    destruct (InboxTracker.GetBatchAcc (tracker C) (SequenceNumber batch) (world s))
      as [[haveAcc | err] w] eqn:Eacc.
    + destruct (Z.eqb_spec haveAcc (BeforeInboxAcc batch)) as [Heq | Hne].
      * specialize (IH (set_world w s)). cbv zeta in IH.
        unfold outcomeOf, stateOf, traceOf in *.
        destruct (skipKnownBatches C rest (set_world w s)) as [[r s'] t].
        simpl in *. destruct IH as [Hr [Ht Hout]].
        split; [exact Hr |]. split; [constructor; [exact I | exact Ht] |].
        destruct r as [rest' | x | ].
        -- destruct Hout as [skipped [-> [Hsk Hstop]]].
           exists (batch :: skipped). split; [reflexivity |].
           split; [| exact Hstop]. constructor; [| exact Hsk].
           exists (world s), w. rewrite Eacc, Heq. reflexivity.
        -- destruct Hout as [b [w0 [err [w' [Hin H]]]]].
           exists b, w0, err, w'. split; [right; exact Hin | exact H].
        -- exact Hout.
      * simpl. repeat split; [repeat constructor |].
        exists []. split; [reflexivity |]. split; [constructor |].
        exists (world s), (Ok haveAcc), w. split; [exact Eacc | exact Hne].
    + destruct (errors_Is err accumulatorNotFound) eqn:Eis; simpl.
      * repeat split; [repeat constructor |].
        exists []. split; [reflexivity |]. split; [constructor |].
        exists (world s), (Err err), w. split; [exact Eacc | exact Eis].
      * repeat split; [repeat constructor |].
        exists batch, (world s), err, w.
        split; [left; reflexivity |]. repeat split; auto.
Qed.

Lemma countEvents_app p (t1 t2 : list Event) :
  countEvents p (t1 ++ t2) = (countEvents p t1 + countEvents p t2)%nat.
Proof. unfold countEvents. rewrite filter_app, length_app. reflexivity. Qed.

Lemma readInitMessage_bounded (fuel : nat) : forall (i : Z) (s : State W),
  0 <= i <= 300 -> 301 - i <= Z.of_nat fuel ->
  let result := readInitMessage C fuel i s in
  outcomeOf result <> OutOfFuel /\
  Z.of_nat (countEvents isPoll (traceOf result)) <= 301 - i /\
  Z.of_nat (countEvents isSleep (traceOf result)) <= 300 - i /\
  Forall startEvent (traceOf result) /\
  reader (stateOf result) = reader s.
Proof.
  induction fuel as [| fuel IH]; intros i s Hi Hfuel; [exfalso; lia |].
  cbn [readInitMessage].
  unfold tracker_GetBatchCount, tracker_GetDelayedMessage, time_Sleep.
  unfold_monad. unfold outcomeOf, stateOf, traceOf, countEvents.
  destruct (InboxTracker.GetBatchCount (tracker C) (world s))
    as [[batchCount | e] w1]; cbn -[Z.sub Z.add Z.mul].
  - destruct (batchCount >? 0); cbn -[Z.sub Z.add Z.mul].
    + destruct (InboxTracker.GetDelayedMessage (tracker C) 0 w1)
        as [[message | e] w2]; cbn -[Z.sub Z.add Z.mul].
      * destruct (Runtime.ParseInitMessage (runtime C) message)
          as [initChainId | e]; cbn -[Z.sub Z.add Z.mul].
        -- destruct (negb (initChainId =? InboxTracker.ChainID (tracker C)));
             cbn -[Z.sub Z.add Z.mul]; (split; [discriminate |]);
             (split; [lia |]); (split; [lia |]);
             (split; [repeat constructor | reflexivity]).
        -- split; [discriminate |]. split; [lia |]. split; [lia |].
           split; [repeat constructor | reflexivity].
      * split; [discriminate |]. split; [lia |]. split; [lia |].
        split; [repeat constructor | reflexivity].
    + destruct (Z.eqb_spec i (30 * 10)) as [Hlast | Hmore]; cbn -[Z.sub Z.add Z.mul].
      * split; [discriminate |]. split; [lia |]. split; [lia |].
        split; [repeat constructor | reflexivity].
      * set (s1 := set_world (Runtime.Sleep (runtime C) (Millisecond * 100) w1)
                     (set_world w1 s)).
        specialize (IH (i + 1) s1). cbv zeta in IH.
        unfold outcomeOf, stateOf, traceOf in IH.
        destruct (readInitMessage C fuel (i + 1) s1) as [[r s'] t].
        cbn -[Z.sub Z.add Z.mul] in *. destruct IH as [Hr [Hp [Hs [Ht Hrd]]]]; [lia | lia |].
        split; [destruct r; [discriminate | discriminate | contradiction Hr; reflexivity] |].
        unfold countEvents in *. cbn -[Z.sub Z.add Z.mul].
        split; [lia |]. split; [lia |].
        split; [repeat constructor; assumption | exact Hrd].
  - split; [discriminate |]. split; [lia |]. split; [lia |].
    split; [repeat constructor | reflexivity].
Qed.

(** [Start] always returns: it polls the tracker's batch count at most
    301 times and sleeps at most 300 times, 100 ms each time.  Beside
    starting the reader loop it only reads the tracker, and it leaves the
    reader's fields alone. *)
Theorem Start_bounded (s : State W) :
  let result := Start C s in
  outcomeOf result <> OutOfFuel /\
  (countEvents isPoll (traceOf result) <= 301)%nat /\
  (countEvents isSleep (traceOf result) <= 300)%nat /\
  Forall startEvent (traceOf result) /\
  reader (stateOf result) = reader s.
Proof.
  unfold Start, stopWaiter_CallIteratively. unfold_monad.
  set (s0 := set_world (Runtime.CallIteratively (runtime C) (world s)) s).
  pose proof (@readInitMessage_bounded 301 0 s0) as H. cbv zeta in H.
  unfold outcomeOf, stateOf, traceOf in *.
  destruct (readInitMessage C 301 0 s0) as [[r s'] t]. simpl in *.
  destruct H as [Hr [Hp [Hs [Ht Hrd]]]]; [lia | lia |].
  split; [exact Hr |]. unfold countEvents in *. simpl.
  split; [lia |]. split; [lia |]. split; [constructor; [exact I | exact Ht] | exact Hrd].
Qed.

(** [Start] returns the error of the first poll of the tracker's batch
    count that fails, the error of the read of delayed message 0, and the
    error of parsing it as the init message, each as it is. *)
Theorem Start_errors (s : State W) :
  let w0 := Runtime.CallIteratively (runtime C) (world s) in
  (forall k w e w1,
     (k <= 300)%nat ->
     zeroPolls C k w0 = Some w ->
     InboxTracker.GetBatchCount (tracker C) w = (Err e, w1) ->
     outcomeOf (Start C s) = Exit e) /\
  (forall k w batchCount w1,
     (k <= 300)%nat ->
     zeroPolls C k w0 = Some w ->
     InboxTracker.GetBatchCount (tracker C) w = (Ok batchCount, w1) ->
     batchCount > 0 ->
     (forall e w2,
        InboxTracker.GetDelayedMessage (tracker C) 0 w1 = (Err e, w2) ->
        outcomeOf (Start C s) = Exit e) /\
     (forall message w2 e,
        InboxTracker.GetDelayedMessage (tracker C) 0 w1 = (Ok message, w2) ->
        Runtime.ParseInitMessage (runtime C) message = Err e ->
        outcomeOf (Start C s) = Exit e)).
Proof.
  intros w0.
  set (s0 := set_world w0 s).
  assert (Hstart : outcomeOf (Start C s) = outcomeOf (readInitMessage C 301 0 s0)).
  { unfold Start, stopWaiter_CallIteratively. unfold_monad. fold w0. fold s0.
    unfold outcomeOf.
    destruct (readInitMessage C 301 0 s0) as [[[a | x | ] s2] t2]; reflexivity. }
  assert (Hpolls : forall k w, (k <= 300)%nat -> zeroPolls C k w0 = Some w ->
            exists s' fuel, world s' = w /\
              outcomeOf (Start C s)
              = outcomeOf (readInitMessage C (S fuel) (0 + Z.of_nat k) s')).
  { intros k w Hk Hz.
    destruct (@readInitMessage_zeroPolls W C k (301 - k) 0 s0 w Hz)
      as [s' [Hw Hrun]]; [lia | lia |].
    exists s', (300 - k)%nat. split; [exact Hw |].
    rewrite Hstart. replace 301%nat with (k + (301 - k))%nat by lia.
    rewrite Hrun. replace (301 - k)%nat with (S (300 - k)) by lia. reflexivity. }
  split.
  - intros k w e w1 Hk Hz Ecount.
    destruct (Hpolls k w Hk Hz) as [s' [fuel [Hw ->]]].
    simpl. unfold tracker_GetBatchCount. unfold_monad.
    rewrite Hw, Ecount. reflexivity.
  - intros k w batchCount w1 Hk Hz Ecount Hpos.
    destruct (Hpolls k w Hk Hz) as [s' [fuel [Hw ->]]].
    simpl. unfold tracker_GetBatchCount, tracker_GetDelayedMessage. unfold_monad.
    rewrite Hw, Ecount. simpl.
    destruct (Z.gtb_spec batchCount 0); [| lia]. simpl.
    split.
    + intros e w2 Emsg. rewrite Emsg. reflexivity.
    + intros message w2 e Emsg Eparse. rewrite Emsg. simpl. rewrite Eparse.
      reflexivity.
Qed.
Lemma readInitMessage_success (fuel : nat) : forall (i : Z) (s : State W),
  outcomeOf (readInitMessage C fuel i s) = Val tt ->
  exists w message w',
    InboxTracker.GetDelayedMessage (tracker C) 0 w = (Ok message, w') /\
    Runtime.ParseInitMessage (runtime C) message
    = Ok (InboxTracker.ChainID (tracker C)).
Proof.
  induction fuel as [| fuel IH]; intros i s; [discriminate |].
  cbn [readInitMessage].
  unfold tracker_GetBatchCount, tracker_GetDelayedMessage, time_Sleep.
  unfold_monad. unfold outcomeOf.
  destruct (InboxTracker.GetBatchCount (tracker C) (world s))
    as [[batchCount | e] w1]; simpl; [| discriminate].
  destruct (batchCount >? 0); simpl.
  - destruct (InboxTracker.GetDelayedMessage (tracker C) 0 w1)
      as [[message | e] w2] eqn:Emsg; simpl; [| discriminate].
    destruct (Runtime.ParseInitMessage (runtime C) message)
      as [initChainId | e] eqn:Eparse; simpl; [| discriminate].
    destruct (Z.eqb_spec initChainId (InboxTracker.ChainID (tracker C)))
      as [-> | Hne]; simpl; [| discriminate].
    intros _. exists w1, message, w2. auto.
  - destruct (i =? 300); simpl; [discriminate |].
    match goal with
    | |- context [readInitMessage C fuel (i + 1) ?st] =>
        specialize (IH (i + 1) st); unfold outcomeOf in IH;
        destruct (readInitMessage C fuel (i + 1) st) as [[[[] | x | ] s'] t]
    end; simpl in *; [exact IH | discriminate | discriminate].
Qed.

(** [Start] returns without an error only after it has read delayed
    message 0 from the tracker and parsed it to the configured chain-id:
    a node never starts on the inbox of another chain. *)
Theorem Start_succeeds_only_on_match (s : State W) :
  outcomeOf (Start C s) = Val tt ->
  exists w message w',
    InboxTracker.GetDelayedMessage (tracker C) 0 w = (Ok message, w') /\
    Runtime.ParseInitMessage (runtime C) message
    = Ok (InboxTracker.ChainID (tracker C)).
Proof.
  unfold Start, stopWaiter_CallIteratively. unfold_monad.
  set (s0 := set_world (Runtime.CallIteratively (runtime C) (world s)) s).
  pose proof (readInitMessage_success 301 0 s0) as H.
  unfold outcomeOf in *.
  destruct (readInitMessage C 301 0 s0) as [[[[] | x | ] s'] t];
    simpl in *; [exact H | discriminate | discriminate].
Qed.
End Helpers2.
(** ** What the reader loop calls *)

Section Discipline.
Context {W : Type}.
Variable C : Collaborators W.
Variable config : InboxReaderConfig.
Variable firstMessageBlock : Z.

Lemma loopEvent_trackerRead ev : trackerRead ev -> loopEvent config ev.
Proof. destruct ev; simpl; tauto. Qed.

Lemma loopEvent_pacingEvent ev : pacingEvent ev -> loopEvent config ev.
Proof. destruct ev; simpl; tauto. Qed.

Ltac loop_facts :=
  unfold keepsReader in *; cbn in *;
  repeat match goal with
         | H : _ /\ _ |- _ => destruct H
         | H : _ && _ = true |- _ => apply andb_prop in H
         end.

Ltac loop_events :=
  repeat (first [ apply Forall_app; split
                | apply Forall_cons
                | apply Forall_nil
                | assumption
                | exact I
                | solve [ eapply Forall_impl; [| eassumption];
                          first [ apply loopEvent_trackerRead
                                | apply loopEvent_pacingEvent ] ] ]).

Ltac loop_leaf := loop_facts; solve [loop_events].

Lemma probeDelayed_loopEvent currentHeight s :
  wp (probeDelayed C config currentHeight)
     (fun _ _ t => Forall (loopEvent config) t) s.
Proof. unfold probeDelayed. wp_go idtac; loop_leaf. Qed.

Lemma probeSequencer_loopEvent currentHeight s :
  wp (probeSequencer C config currentHeight)
     (fun _ _ t => Forall (loopEvent config) t) s.
Proof. unfold probeSequencer. wp_go idtac; loop_leaf. Qed.

Ltac loop_blocks :=
  first [ wp_use (@analyseSequencer_frame W C)
        | wp_use (@analyseDelayed_frame W C)
        | wp_use (@pacing_frame W C)
        | wp_use probeDelayed_loopEvent
        | wp_use probeSequencer_loopEvent
        | unfold applyBundle, addMessages, publishRead, advance, signalCaughtUp,
            storeSeenBatchCount, passEpilogue ].

Lemma scanIteration_loopEvent v s :
  wp (scanIteration C firstMessageBlock v)
     (fun _ _ t => Forall (loopEvent config) t) s.
Proof. unfold scanIteration. wp_go loop_blocks; loop_leaf. Qed.

Lemma scanLoop_loopEvent fuel : forall v s,
  wp (scanLoop C firstMessageBlock fuel v)
     (fun _ _ t => Forall (loopEvent config) t) s.
Proof.
  induction fuel as [| fuel IH]; intros v s; simpl.
  - wp_go idtac; loop_leaf.
  - wp_go ltac:(first [ wp_use scanIteration_loopEvent | wp_use IH ]); loop_leaf.
Qed.

Lemma pass_loopEvent fuel from s :
  wp (pass C config firstMessageBlock fuel from)
     (fun _ _ t => Forall (loopEvent config) t) s.
Proof.
  unfold pass, passAt.
  wp_go ltac:(first [ wp_use scanLoop_loopEvent | loop_blocks ]); loop_leaf.
Qed.

Lemma passes_loopEvent fuel n : forall from s,
  wp (passes C config firstMessageBlock fuel n from)
     (fun _ _ t => Forall (loopEvent config) t) s.
Proof.
  induction n as [| n IH]; intros from s; simpl.
  - wp_go idtac; loop_leaf.
  - wp_go ltac:(first [ wp_use pass_loopEvent | wp_use IH ]); loop_leaf.
Qed.

(** The body of [run] after [Subscribe]: the loop and the deferred store. *)
Lemma run_body_loopEvent fuel from s :
  wp (modify (set_seenBatchCount 0) ;;
      modify (set_seenBatchCountStored MaxUint64) ;;
      defer (passes C config firstMessageBlock fuel fuel from)
            (@storeSeenBatchCount W (option error)))
     (fun _ _ t => Forall (loopEvent config) t) s.
Proof.
  wp_go ltac:(first [ wp_use passes_loopEvent | unfold storeSeenBatchCount ]);
    loop_leaf.
Qed.

(** [run] subscribes to new headers once, after [getNextBlockToRead]
    succeeded, and when it returns it unsubscribes, last of all, after the
    deferred store of the seen batch count; in between it neither
    subscribes nor unsubscribes.  When [getNextBlockToRead] fails, [run]
    returns its error without subscribing and without a change to the
    reader. *)
Theorem run_subscription (fuel : nat) (s : State W) :
  let result := run C config firstMessageBlock fuel s in
  let start := getNextBlockToRead C firstMessageBlock s in
  match outcomeOf start with
  | Val from =>
      exists body,
        Forall (loopEvent config) body /\
        traceOf result
        = traceOf start ++ HeaderReader_Subscribe :: body ++
          match outcomeOf result with
          | OutOfFuel => []
          | _ => [HeaderReader_unsubscribe]
          end
  | Exit e =>
      outcomeOf result = Exit (Some e) /\
      traceOf result = traceOf start /\
      Forall trackerRead (traceOf result) /\
      reader (stateOf result) = reader s
  | OutOfFuel => False
  end.
Proof.
  intros result start. subst result start.
  pose proof (getNextBlockToRead_frame C firstMessageBlock s) as Hstart.
  unfold wp in Hstart.
  assert (Hrun :
    wp (run C config firstMessageBlock fuel)
       (fun r s' t =>
          match outcomeOf (getNextBlockToRead C firstMessageBlock s) with
          | Val from =>
              exists body,
                Forall (loopEvent config) body /\
                t = traceOf (getNextBlockToRead C firstMessageBlock s) ++
                    HeaderReader_Subscribe :: body ++
                    match r with
                    | OutOfFuel => []
                    | _ => [HeaderReader_unsubscribe]
                    end
          | Exit e =>
              r = Exit (Some e) /\
              t = traceOf (getNextBlockToRead C firstMessageBlock s) /\
              Forall trackerRead t /\
              reader s' = reader s
          | OutOfFuel => False
          end) s).
  { unfold run. apply wp_bind. apply wp_invoke. apply wp_intro.
    intros r0 s0 t0 E. rewrite E in *.
    unfold outcomeOf, stateOf, traceOf in *. simpl in *.
    destruct Hstart as [[Hreader _] [Hreads Hout]].
    destruct r0 as [from | e | ]; [| | contradiction Hout; reflexivity].
    - cbv beta iota. apply wp_bind. unfold l1Reader_Subscribe, l1Reader_unsubscribe.
      apply wp_callUnit. apply wp_defer. wp_use run_body_loopEvent.
      destruct r as [a | x | ]; [destruct a | |].
      + apply wp_callUnit. exists t. split; [assumption | reflexivity].
      + exists t. split; [assumption |]. rewrite app_nil_r. reflexivity.
    - wp_go idtac. rewrite app_nil_r. auto. }
  unfold wp in Hrun. unfold outcomeOf, stateOf, traceOf in *.
  destruct (run C config firstMessageBlock fuel s) as [[r s'] t]. exact Hrun.
Qed.

End Discipline.
(** ** The caught-up signal over the life of the reader *)

Section Signal.
Context {W : Type}.
Variable C : Collaborators W.
Variable config : InboxReaderConfig.
Variable firstMessageBlock : Z.

Lemma caughtUpStep_refl r : caughtUpStep r r.
Proof. left. split; reflexivity. Qed.

Lemma caughtUpStep_trans r1 r2 r3 :
  caughtUpStep r1 r2 -> caughtUpStep r2 r3 -> caughtUpStep r1 r3.
Proof.
  unfold caughtUpStep.
  intros [[Hf Hc] | [Hf [Hf' Hc]]] [[Hg Hd] | [Hg [Hg' Hd]]].
  - left. split; congruence.
  - right. repeat split; congruence.
  - right. repeat split; congruence.
  - congruence.
Qed.

Lemma caughtUpStep_same (s s' : State W) :
  sameCaughtUp s s' -> caughtUpStep (reader s) (reader s').
Proof. intros [Hf Hc]. left. split; assumption. Qed.

Ltac step_leaf :=
  repeat match goal with
         | H : _ /\ _ |- _ => destruct H
         | H : sameCaughtUp _ _ |- _ => apply caughtUpStep_same in H
         end;
  cbn in *;
  repeat match goal with
         | H : caughtUpStep (reader ?a) (reader ?b)
           |- caughtUpStep (reader ?a) (reader _) =>
             apply (caughtUpStep_trans H); clear H
         end;
  first [ assumption | apply caughtUpStep_refl ].

Lemma scanIteration_step v s :
  wp (scanIteration C firstMessageBlock v)
     (fun _ s' _ => caughtUpStep (reader s) (reader s')) s.
Proof.
  wp_use (@scanIteration_send W C).
  destruct H as [[Hsame _] | [Hf [_ [Hf' Hc]]]].
  - apply caughtUpStep_same. exact Hsame.
  - right. auto.
Qed.

Lemma scanLoop_step fuel : forall v s,
  wp (scanLoop C firstMessageBlock fuel v)
     (fun _ s' _ => caughtUpStep (reader s) (reader s')) s.
Proof.
  induction fuel as [| fuel IH]; intros v s; simpl.
  - wp_go idtac. apply caughtUpStep_refl.
  - wp_go ltac:(first [ wp_use scanIteration_step | wp_use IH ]); step_leaf.
Qed.

Ltac step_blocks :=
  first [ wp_use (@quiet_pacing W C)
        | wp_use (@quiet_probeDelayed W C)
        | wp_use (@quiet_probeSequencer W C)
        | wp_use (@quiet_storeLastRead W (option error))
        | wp_use (@quiet_storeSeenBatchCount W (option error))
        | wp_use (@quiet_getNextBlockToRead W C)
        | wp_use scanLoop_step
        | unfold passEpilogue ].

Lemma pass_step fuel from s :
  wp (pass C config firstMessageBlock fuel from)
     (fun _ s' _ => caughtUpStep (reader s) (reader s')) s.
Proof. unfold pass, passAt. wp_go step_blocks; step_leaf. Qed.

Lemma passes_step fuel n : forall from s,
  wp (passes C config firstMessageBlock fuel n from)
     (fun _ s' _ => caughtUpStep (reader s) (reader s')) s.
Proof.
  induction n as [| n IH]; intros from s; simpl.
  - wp_go idtac. apply caughtUpStep_refl.
  - wp_go ltac:(first [ wp_use pass_step | wp_use IH ]); step_leaf.
Qed.

Lemma run_step fuel s :
  wp (run C config firstMessageBlock fuel)
     (fun _ s' _ => caughtUpStep (reader s) (reader s')) s.
Proof.
  unfold run. wp_go ltac:(first [ wp_use passes_step | step_blocks ]); step_leaf.
Qed.

Lemma readerLoopIteration_step fuel s :
  wp (readerLoopIteration C config firstMessageBlock fuel)
     (fun _ s' _ => caughtUpStep (reader s) (reader s')) s.
Proof.
  unfold readerLoopIteration. apply wp_bind.
  pose proof (run_step fuel s) as Hrun. unfold wp in *. unfold callReturning.
  destruct (run C config firstMessageBlock fuel s) as [[[[] | x | ] s'] t];
    simpl; exact Hrun.
Qed.

(** However often the reader loop is started again, it puts at most one
    value on [caughtUpChan]: the send happens only while [caughtUp] is
    false and sets it, and nothing sets it back.  A channel with room for
    one value, as [NewInboxReader] makes it, never makes the loop wait. *)
Theorem caught_up_sent_once (n fuel : nat) : forall s : State W,
  let result :=
    callIteratively C n (readerLoopIteration C config firstMessageBlock fuel) s in
  caughtUpStep (reader s) (reader (stateOf result)).
Proof.
  assert (H : forall s,
            wp (callIteratively C n
                  (readerLoopIteration C config firstMessageBlock fuel))
               (fun _ s' _ => caughtUpStep (reader s) (reader s')) s).
  { induction n as [| n IH]; intros s; simpl.
    - wp_go idtac. apply caughtUpStep_refl.
    - wp_go ltac:(first [ wp_use readerLoopIteration_step | wp_use IH ]);
        step_leaf. }
  intros s. specialize (H s). unfold wp in H. unfold stateOf. cbv zeta.
  destruct (callIteratively C n
              (readerLoopIteration C config firstMessageBlock fuel) s)
    as [[r s'] t]. exact H.
Qed.
End Signal.
(** ** The seen batch count when [run] returns *)

Section SeenOnReturn.
Context {W : Type}.
Variable C : Collaborators W.
Variable config : InboxReaderConfig.
Variable firstMessageBlock : Z.
Variable before : InboxReader.

Ltac sync_leaf :=
  unfold seenInSync, keepsReader in *; cbn in *;
  repeat match goal with
         | H : _ /\ _ |- _ => destruct H
         end;
  repeat match goal with
         | H : reader _ = _ |- _ => rewrite H in *; clear H
         | H : seenBatchCountStored _ = seenBatchCountStored _ |- _ =>
             rewrite H in *; clear H
         end;
  cbn in *;
  first [ assumption | right; reflexivity | tauto | intuition congruence ].

Ltac sync_blocks :=
  first [ wp_use (@analyseSequencer_frame W C)
        | wp_use (@analyseDelayed_frame W C)
        | wp_use (@probeDelayed_frame W C)
        | wp_use (@probeSequencer_frame W C)
        | wp_use (@pacing_frame W C)
        | unfold applyBundle, addMessages, publishRead, advance, signalCaughtUp,
            storeSeenBatchCount, passEpilogue ].

Lemma scanIteration_sync v s :
  seenInSync before s ->
  wp (scanIteration C firstMessageBlock v)
     (fun _ s' _ => seenInSync before s') s.
Proof. intros Hs. unfold scanIteration. wp_go sync_blocks; sync_leaf. Qed.

Lemma scanLoop_sync fuel : forall v s,
  seenInSync before s ->
  wp (scanLoop C firstMessageBlock fuel v)
     (fun _ s' _ => seenInSync before s') s.
Proof.
  induction fuel as [| fuel IH]; intros v s Hs; simpl.
  - wp_go idtac. exact Hs.
  - apply wp_bind. wp_use scanIteration_sync; [exact Hs |].
    destruct r as [[v' | ] | x | ]; try assumption.
    wp_use IH; [assumption |]. assumption.
Qed.

Lemma pass_sync fuel from s :
  seenInSync before s ->
  wp (pass C config firstMessageBlock fuel from)
     (fun _ s' _ => seenInSync before s') s.
Proof.
  intros Hs. unfold pass, passAt.
  wp_go ltac:(first [ wp_use scanLoop_sync; [sync_leaf |] | sync_blocks ]);
    sync_leaf.
Qed.

Lemma passes_sync fuel n : forall from s,
  seenInSync before s ->
  wp (passes C config firstMessageBlock fuel n from)
     (fun _ s' _ => seenInSync before s') s.
Proof.
  induction n as [| n IH]; intros from s Hs; simpl.
  - wp_go idtac. exact Hs.
  - apply wp_bind. wp_use pass_sync; [exact Hs |].
    destruct r as [from' | x | ]; try assumption.
    wp_use IH; [assumption |]. assumption.
Qed.
End SeenOnReturn.

Section SeenOnReturn2.
Context {W : Type}.
Variable C : Collaborators W.
Variable config : InboxReaderConfig.
Variable firstMessageBlock : Z.

(** When [run] returns after it got its first block, the deferred store
    has brought [lastSeenBatchCount] to the seen batch count the loop held
    last (0 if the last query for it failed, or if none was made).  The one
    exception is a seen batch count of [MaxUint64] with which the closure
    was never called before: [MaxUint64] is what the stored copy starts as,
    so the closure takes the count for stored and leaves
    [lastSeenBatchCount] as [run] found it. *)
Theorem run_stores_seen_on_return (fuel : nat) (s : State W) (from : Z) :
  let result := run C config firstMessageBlock fuel s in
  outcomeOf (getNextBlockToRead C firstMessageBlock s) = Val from ->
  outcomeOf result <> OutOfFuel ->
  lastSeenBatchCount (reader (stateOf result)) = seenBatchCount (stateOf result) \/
  (seenBatchCount (stateOf result) = MaxUint64 /\
   lastSeenBatchCount (reader (stateOf result)) = lastSeenBatchCount (reader s)).
Proof.
  intros result Hstart Hout. subst result.
  assert (Hrun :
    wp (run C config firstMessageBlock fuel)
       (fun r s' _ =>
          outcomeOf (getNextBlockToRead C firstMessageBlock s) = Val from ->
          r <> OutOfFuel ->
          lastSeenBatchCount (reader s') = seenBatchCount s' \/
          (seenBatchCount s' = MaxUint64 /\
           lastSeenBatchCount (reader s') = lastSeenBatchCount (reader s))) s).
  { unfold run. apply wp_bind. apply wp_invoke.
    pose proof (getNextBlockToRead_frame C firstMessageBlock s) as Hframe.
    apply wp_intro. intros r0 s0 t0 E. unfold wp in Hframe. rewrite E in *.
    destruct Hframe as [[Hreader _] _].
    destruct r0 as [from0 | e | ].
    - cbv beta iota. apply wp_bind. unfold l1Reader_Subscribe, l1Reader_unsubscribe.
      apply wp_callUnit. apply wp_defer. apply wp_bind. apply wp_modify.
      apply wp_bind. apply wp_modify. apply wp_defer.
      wp_use (@passes_sync W C config firstMessageBlock (reader s)).
      + left. cbn. split; [reflexivity | rewrite Hreader; reflexivity].
      + destruct r as [[] | x | ].
        * unfold storeSeenBatchCount. wp_go idtac; intros _ _;
            unfold seenInSync in *; cbn in *;
            repeat match goal with
                   | H : negb (_ =? _) = true |- _ =>
                       apply negb_true_iff in H; apply Z.eqb_neq in H
                   | H : negb (_ =? _) = false |- _ =>
                       apply negb_false_iff in H; apply Z.eqb_eq in H
                   end;
            intuition congruence.
        * intros _ Hne. contradiction Hne. reflexivity.
    - wp_go idtac. intros Hs. discriminate Hs.
    - intros Hs. discriminate Hs. }
  unfold wp in Hrun. unfold outcomeOf, stateOf in *.
  destruct (run C config firstMessageBlock fuel s) as [[r s'] t].
  apply Hrun; assumption.
Qed.
End SeenOnReturn2.
(** ** Returning [nil] *)

Section Shutdown.
Context {W : Type}.
Variable C : Collaborators W.
Variable config : InboxReaderConfig.
Variable firstMessageBlock : Z.
Hypothesis Hup : neverShutDown C.

Ltac up_leaf :=
  first [ discriminate
        | assumption
        | match goal with
          | H : Exit ?x <> Exit None |- Exit ?x <> Exit None =>
              let Hx := fresh in
              intros Hx; apply H; injection Hx as ->; reflexivity
          end
        | exfalso;
          match goal with
          | H : Runtime.ctxErr _ ?w = (true, _) |- _ =>
              pose proof (proj1 Hup w) as Hc; rewrite H in Hc; discriminate Hc
          | H : Runtime.selectHeader _ ?d ?w = (_, _) |- _ =>
              pose proof (proj2 Hup d w) as Hc; rewrite H in Hc; exact Hc
          end ].

Lemma waitForHeight_up fuel : forall needed current s,
  wp (waitForHeight C config fuel needed current)
     (fun r _ _ => r <> Exit None) s.
Proof.
  induction fuel as [| fuel IH]; intros needed current s; simpl.
  - wp_go idtac; up_leaf.
  - wp_go ltac:(wp_use IH); subst; up_leaf.
Qed.

Lemma skipKnownBatches_up sequencerBatches : forall s,
  wp (skipKnownBatches C sequencerBatches) (fun r _ _ => r <> Exit None) s.
Proof.
  induction sequencerBatches as [| batch rest IH]; intros s; simpl.
  - wp_go idtac; up_leaf.
  - wp_go ltac:(wp_use IH); up_leaf.
Qed.

Ltac up_blocks :=
  first [ wp_use waitForHeight_up
        | wp_use skipKnownBatches_up
        | unfold pacing, probeDelayed, probeSequencer, analyseSequencer,
            checkFirstBatch, analyseDelayed, checkFirstMessage, applyBundle,
            addMessages, publishRead, advance, signalCaughtUp,
            storeSeenBatchCount, passEpilogue, getNextBlockToRead ].

Lemma scanIteration_up v s :
  wp (scanIteration C firstMessageBlock v) (fun r _ _ => r <> Exit None) s.
Proof. unfold scanIteration. wp_go up_blocks; subst; up_leaf. Qed.

Lemma scanLoop_up fuel : forall v s,
  wp (scanLoop C firstMessageBlock fuel v) (fun r _ _ => r <> Exit None) s.
Proof.
  induction fuel as [| fuel IH]; intros v s; simpl.
  - wp_go idtac; up_leaf.
  - wp_go ltac:(first [ wp_use scanIteration_up | wp_use IH ]); up_leaf.
Qed.

Lemma pass_up fuel from s :
  wp (pass C config firstMessageBlock fuel from) (fun r _ _ => r <> Exit None) s.
Proof.
  unfold pass, passAt.
  wp_go ltac:(first [ wp_use scanLoop_up | up_blocks ]); subst; up_leaf.
Qed.

Lemma passes_up fuel n : forall from s,
  wp (passes C config firstMessageBlock fuel n from)
     (fun r _ _ => r <> Exit None) s.
Proof.
  induction n as [| n IH]; intros from s; simpl.
  - wp_go idtac; up_leaf.
  - wp_go ltac:(first [ wp_use pass_up | wp_use IH ]); up_leaf.
Qed.

(** [run] returns [nil] only when it is shut down: as long as the context
    is not cancelled and the subscription to new headers is not closed,
    whatever [run] returns is an error. *)
Theorem run_nil_only_on_shutdown (fuel : nat) (s : State W) :
  outcomeOf (run C config firstMessageBlock fuel s) <> Exit None.
Proof.
  assert (Hrun : wp (run C config firstMessageBlock fuel)
                    (fun r _ _ => r <> Exit None) s).
  { unfold run. wp_go ltac:(first [ wp_use passes_up | up_blocks ]); up_leaf. }
  unfold wp in Hrun. unfold outcomeOf.
  destruct (run C config firstMessageBlock fuel s) as [[r s'] t]. exact Hrun.
Qed.
End Shutdown.
(** ** Where the entries of the tracker come from *)

Section Provenance.
Context {W : Type}.
Variable C : Collaborators W.
Variable config : InboxReaderConfig.
Variable firstMessageBlock : Z.

Lemma fromChain_trackerRead ev : trackerRead ev -> fromChain C ev.
Proof. destruct ev; simpl; tauto. Qed.

Lemma fromChain_pacingEvent ev : pacingEvent ev -> fromChain C ev.
Proof. destruct ev; simpl; tauto. Qed.

Lemma fromChain_probeEvent currentHeight ev :
  probeEvent currentHeight ev -> fromChain C ev.
Proof. destruct ev; simpl; tauto. Qed.

Ltac chain_facts :=
  unfold keepsReader in *; cbn in *;
  repeat match goal with
         | H : _ /\ _ |- _ => destruct H
         | H : forall m r rest, Val (_, _, _) = Val (m, r, rest) -> _ |- _ =>
             destruct (H _ _ _ eq_refl) as [? ?]; clear H; subst
         end.

Ltac chain_event :=
  simpl;
  first [ exact I
        | solve [ repeat eexists; eassumption ] ].

Ltac chain_trace :=
  repeat (first [ apply Forall_app; split
                | apply Forall_nil
                | apply Forall_cons; [solve [chain_event] |]
                | solve [ eapply Forall_impl; [| eassumption];
                          first [ apply fromChain_trackerRead
                                | apply fromChain_pacingEvent
                                | apply fromChain_probeEvent ] ]
                | assumption ]).

Ltac chain_blocks :=
  first [ wp_use (@analyseSequencer_frame W C)
        | wp_use (@analyseDelayed_frame W C)
        | wp_use (@probeDelayed_frame W C)
        | wp_use (@probeSequencer_frame W C)
        | wp_use (@pacing_frame W C)
        | wp_use (@getNextBlockToRead_frame W C)
        | unfold applyBundle, addMessages, publishRead, advance, signalCaughtUp,
            storeSeenBatchCount, passEpilogue ].

Lemma scanIteration_fromChain v s :
  wp (scanIteration C firstMessageBlock v)
     (fun _ _ t => Forall (fromChain C) t) s.
Proof.
  unfold scanIteration. wp_go chain_blocks; chain_facts; solve [chain_trace].
Qed.

Lemma scanLoop_fromChain fuel : forall v s,
  wp (scanLoop C firstMessageBlock fuel v)
     (fun _ _ t => Forall (fromChain C) t) s.
Proof.
  induction fuel as [| fuel IH]; intros v s; simpl.
  - wp_go idtac. apply Forall_nil.
  - wp_go ltac:(first [ wp_use scanIteration_fromChain | wp_use IH ]);
      chain_facts; solve [chain_trace].
Qed.

Lemma pass_fromChain fuel from s :
  wp (pass C config firstMessageBlock fuel from)
     (fun _ _ t => Forall (fromChain C) t) s.
Proof.
  unfold pass, passAt.
  wp_go ltac:(first [ wp_use scanLoop_fromChain | chain_blocks ]);
    chain_facts; solve [chain_trace].
Qed.

Lemma passes_fromChain fuel n : forall from s,
  wp (passes C config firstMessageBlock fuel n from)
     (fun _ _ t => Forall (fromChain C) t) s.
Proof.
  induction n as [| n IH]; intros from s; simpl.
  - wp_go idtac. apply Forall_nil.
  - wp_go ltac:(first [ wp_use pass_fromChain | wp_use IH ]);
      chain_facts; solve [chain_trace].
Qed.

(** [run] hands to the tracker only what the parent chain gave it: every
    list of delayed messages it adds is the answer of a range query to the
    delayed bridge, as it came, and every list of sequencer batches it adds
    is what is left of the answer of a range query to the sequencer inbox
    when leading batches are dropped. *)
Theorem tracker_adds_from_lookups (fuel : nat) (s : State W) :
  Forall (fromChain C) (traceOf (run C config firstMessageBlock fuel s)).
Proof.
  assert (Hrun : wp (run C config firstMessageBlock fuel)
                    (fun _ _ t => Forall (fromChain C) t) s).
  { unfold run.
    wp_go ltac:(first [ wp_use passes_fromChain | chain_blocks ]);
      chain_facts; solve [chain_trace]. }
  unfold wp in Hrun. unfold traceOf.
  destruct (run C config firstMessageBlock fuel s) as [[r s'] t]. exact Hrun.
Qed.
End Provenance.
(** ** Steps of a pass *)

Section PassSteps.
Context {W : Type}.
Variable C : Collaborators W.
Variable config : InboxReaderConfig.
Variable firstMessageBlock : Z.

Lemma waitForHeight_waits (Htimer : timerNeverFires C) fuel :
  forall needed current s,
  wp (waitForHeight C config fuel needed current)
     (fun r _ _ => forall h, r = Val h -> needed <= h) s.
Proof.
  induction fuel as [| fuel IH]; intros needed current s; simpl;
    unfold arbmath.BigLessThan.
  - wp_go idtac; try discriminate.
    intros h [= <-]. apply Z.ltb_ge. assumption.
  - wp_go ltac:(wp_use IH); try discriminate; try assumption.
    + exfalso. subst.
      match goal with
      | H : Runtime.selectHeader _ ?d ?w = (_, _) |- _ =>
          apply (Htimer d w); rewrite H; reflexivity
      end.
    + intros h [= <-]. apply Z.ltb_ge. assumption.
Qed.

(** Unless the check-delay timer fires, a pass goes on only at a height of
    at least [from + neededBlockAdvance]: below it, it waits for new
    headers. *)
Theorem pacing_waits_for_blocks (fuel : nat) (from : Z) (s : State W) :
  timerNeverFires C ->
  forall h,
    outcomeOf (pacing C config fuel from s) = Val h ->
    from + neededBlockAdvance config <= h.
Proof.
  intros Htimer.
  assert (Hp : wp (pacing C config fuel from)
                  (fun r _ _ =>
                     forall h, r = Val h -> from + neededBlockAdvance config <= h) s).
  { unfold pacing, arbmath.BigAddByUint.
    wp_go ltac:(wp_use (waitForHeight_waits Htimer)); try discriminate.
    assumption. }
  unfold wp in Hp. unfold outcomeOf.
  destruct (pacing C config fuel from s) as [[r s'] t]. exact Hp.
Qed.

(** A pass whose probes find nothing missing and nothing reorged makes the
    next pass start right above [currentHeight], whatever [from] was, and
    publishes [currentHeight] and the seen batch count as the last-read
    counters.  When the stored copy of the seen batch count is in step and
    the count is not [MaxUint64], [lastSeenBatchCount] is then equal to
    [lastReadBatchCount]. *)
Theorem idle_pass (fuel : nat) (from currentHeight : Z) (s s1 s2 : State W)
    (t1 t2 : list Event) (checkingBatchCount : Z) (before : InboxReader) :
  probeDelayed C config currentHeight s = (Val (false, false), s1, t1) ->
  probeSequencer C config currentHeight s1
  = (Val (checkingBatchCount, false, false), s2, t2) ->
  let result := passAt C config firstMessageBlock fuel from currentHeight s in
  outcomeOf result = Val (currentHeight + 1) /\
  checkingBatchCount = seenBatchCount s2 /\
  lastReadBlock (reader (stateOf result)) = BigUint64 currentHeight /\
  lastReadBatchCount (reader (stateOf result)) = checkingBatchCount /\
  (seenInSync before s -> checkingBatchCount <> MaxUint64 ->
   lastSeenBatchCount (reader (stateOf result)) = checkingBatchCount).
Proof.
  intros Ed Es result. subst result.
  pose proof (probeDelayed_frame C config currentHeight s) as Hd.
  pose proof (probeSequencer_frame C config currentHeight s1) as Hs.
  unfold wp in Hd, Hs. rewrite Ed in Hd. rewrite Es in Hs.
  destruct Hd as [[Hr1 [Hst1 Hsn1]] _].
  destruct Hs as [Hr2 [Hst2 [_ Hcnt]]].
  destruct (Hcnt _ _ _ eq_refl) as [_ Hseen]. specialize (Hseen eq_refl).
  clear Hcnt.
  assert (Hpass :
    wp (passAt C config firstMessageBlock fuel from currentHeight)
       (fun r s' _ =>
          r = Val (currentHeight + 1) /\
          checkingBatchCount = seenBatchCount s2 /\
          lastReadBlock (reader s') = BigUint64 currentHeight /\
          lastReadBatchCount (reader s') = checkingBatchCount /\
          (seenInSync before s -> checkingBatchCount <> MaxUint64 ->
           lastSeenBatchCount (reader s') = checkingBatchCount)) s).
  { unfold passAt.
    apply wp_bind. apply wp_intro. intros r0 s0 t0 E0.
    rewrite Ed in E0. injection E0 as <- <- <-. cbv beta iota.
    apply wp_bind. apply wp_intro. intros r3 s3 t3 E3.
    rewrite Es in E3. injection E3 as <- <- <-. cbv beta iota. cbn [negb andb].
    unfold arbmath.BigAddByUint, storeSeenBatchCount.
    wp_go idtac; cbn;
      (split; [reflexivity |]); (split; [exact Hseen |]);
      (split; [reflexivity |]); (split; [reflexivity |]);
      intros Hsync Hmax; try reflexivity;
      repeat match goal with
             | H : negb (_ =? _) = true |- _ =>
                 apply negb_true_iff in H; apply Z.eqb_neq in H
             | H : negb (_ =? _) = false |- _ =>
                 apply negb_false_iff in H; apply Z.eqb_eq in H
             end;
      cbn in *; try congruence.
    unfold seenInSync in Hsync. rewrite Hr2, Hr1.
    change MaxUint64 with 18446744073709551615 in Hsync.
    destruct Hsync as [[Hstored _] | Hsync]; congruence. }
  unfold wp in Hpass. unfold outcomeOf, stateOf.
  destruct (passAt C config firstMessageBlock fuel from currentHeight s)
    as [[r s'] t]. exact Hpass.
Qed.

Ltac erase_facts :=
  unfold keepsReader in *; cbn in *;
  repeat match goal with
         | H : _ /\ _ |- _ => destruct H
         | H : _ && _ = true |- _ => apply andb_prop in H
         | H : (_ >? _) = true |- _ => apply Z.gtb_lt in H
         end.

Ltac erase_event :=
  simpl;
  first [ exact I
        | solve [ split; [assumption |]; repeat eexists; eassumption ] ].

Lemma erasureToChain_trackerRead ev : trackerRead ev -> erasureToChain C config ev.
Proof. destruct ev; simpl; tauto. Qed.

Lemma erasureToChain_pacingEvent ev : pacingEvent ev -> erasureToChain C config ev.
Proof. destruct ev; simpl; tauto. Qed.

Ltac erase_trace :=
  repeat (first [ apply Forall_app; split
                | apply Forall_nil
                | apply Forall_cons; [solve [erase_event] |]
                | solve [ eapply Forall_impl; [| eassumption];
                          first [ apply erasureToChain_trackerRead
                                | apply erasureToChain_pacingEvent ] ]
                | assumption ]).

Lemma probeDelayed_erasure currentHeight s :
  wp (probeDelayed C config currentHeight)
     (fun _ _ t => Forall (erasureToChain C config) t) s.
Proof.
  unfold probeDelayed. wp_go idtac; erase_facts; solve [erase_trace].
Qed.

Lemma probeSequencer_erasure currentHeight s :
  wp (probeSequencer C config currentHeight)
     (fun _ _ t => Forall (erasureToChain C config) t) s.
Proof.
  unfold probeSequencer. wp_go idtac; erase_facts; solve [erase_trace].
Qed.

Ltac erase_blocks :=
  first [ wp_use (@analyseSequencer_frame W C)
        | wp_use (@analyseDelayed_frame W C)
        | wp_use (@pacing_frame W C)
        | wp_use (@getNextBlockToRead_frame W C)
        | wp_use probeDelayed_erasure
        | wp_use probeSequencer_erasure
        | unfold applyBundle, addMessages, publishRead, advance, signalCaughtUp,
            storeSeenBatchCount, passEpilogue ].

Lemma scanLoop_erasure fuel : forall v s,
  wp (scanLoop C firstMessageBlock fuel v)
     (fun _ _ t => Forall (erasureToChain C config) t) s.
Proof.
  induction fuel as [| fuel IH]; intros v s; simpl.
  - wp_go idtac. apply Forall_nil.
  - unfold scanIteration.
    wp_go ltac:(first [ wp_use IH | erase_blocks ]);
      erase_facts; solve [erase_trace].
Qed.

Lemma passes_erasure fuel n : forall from s,
  wp (passes C config firstMessageBlock fuel n from)
     (fun _ _ t => Forall (erasureToChain C config) t) s.
Proof.
  induction n as [| n IH]; intros from s; simpl.
  - wp_go idtac. apply Forall_nil.
  - unfold pass, passAt.
    wp_go ltac:(first [ wp_use scanLoop_erasure | wp_use IH | erase_blocks ]);
      erase_facts; solve [erase_trace].
Qed.

(** [run] erases entries of the tracker only in the probe of a pass, with
    [HardReorg] set and a tracker that holds more delayed messages (or
    batches) than the parent chain has at [currentHeight]; it then cuts the
    tracker down to the parent chain's count. *)
Theorem erasure_to_chain_count (fuel : nat) (s : State W) :
  Forall (erasureToChain C config) (traceOf (run C config firstMessageBlock fuel s)).
Proof.
  assert (Hrun : wp (run C config firstMessageBlock fuel)
                    (fun _ _ t => Forall (erasureToChain C config) t) s).
  { unfold run.
    wp_go ltac:(first [ wp_use passes_erasure | erase_blocks ]);
      erase_facts; solve [erase_trace]. }
  unfold wp in Hrun. unfold traceOf.
  destruct (run C config firstMessageBlock fuel s) as [[r s'] t]. exact Hrun.
Qed.

Lemma scanIteration_breaks_past v s :
  wp (scanIteration C firstMessageBlock v)
     (fun r _ _ => r = Val None -> pastCurrentHeight v = None) s.
Proof.
  unfold scanIteration.
  wp_go ltac:(first [ wp_use (@analyseSequencer_frame W C)
                    | wp_use (@analyseDelayed_frame W C)
                    | unfold applyBundle, addMessages, publishRead, advance,
                        signalCaughtUp, storeSeenBatchCount ]);
    first [ discriminate | reflexivity | intros; assumption ].
Qed.

(** Where an iteration of the range scan sends [from]: with no reorg flag
    up at its end, to the block after the range it read; with one up, to
    the block the reorg walker gives for the block the range began at. *)
Theorem scanIteration_moves_from (v : ScanVars) (s : State W) :
  let result := scanIteration C firstMessageBlock v s in
  match outcomeOf result with
  | Val (Some v') =>
      exists v1,
        pastCurrentHeight v = Some v1 /\
        if reorgingDelayed v' || reorgingSequencer v'
        then getPrevBlockForReorg firstMessageBlock (fromValue v1)
             = Ok (fromValue v')
        else fromValue v' = scanTo v1 + 1
  | Val None => pastCurrentHeight v = None
  | _ => True
  end.
Proof.
  assert (Hit : wp (scanIteration C firstMessageBlock v)
                   (fun r _ _ =>
                      match r with
                      | Val (Some v') =>
                          exists v1,
                            pastCurrentHeight v = Some v1 /\
                            if reorgingDelayed v' || reorgingSequencer v'
                            then getPrevBlockForReorg firstMessageBlock (fromValue v1)
                                 = Ok (fromValue v')
                            else fromValue v' = scanTo v1 + 1
                      | Val None => pastCurrentHeight v = None
                      | _ => True
                      end) s).
  { unfold scanIteration.
    wp_go ltac:(first [ wp_use (@analyseSequencer_frame W C)
                      | wp_use (@analyseDelayed_frame W C)
                      | unfold applyBundle, addMessages, publishRead, advance,
                          signalCaughtUp, storeSeenBatchCount ]);
      try exact I; try reflexivity;
      (eexists; split; [reflexivity |]); cbn in *; try discriminate;
      repeat match goal with
             | H : ?b = true |- context [if ?b then _ else _] => rewrite H
             | H : ?b = false |- context [if ?b then _ else _] => rewrite H
             end;
      cbn; try assumption; try reflexivity;
      unfold fromValue; cbn;
      repeat match goal with
             | H : from _ = _ |- _ => rewrite H
             end; reflexivity. }
  unfold wp in Hit. cbv zeta. unfold outcomeOf.
  destruct (scanIteration C firstMessageBlock v s) as [[r s'] t]. exact Hit.
Qed.
Lemma pastCurrentHeight_None v :
  pastCurrentHeight v = None ->
  fromValue v > currentHeight v /\
  missingDelayed v = false /\ reorgingDelayed v = false /\
  missingSequencer v = false /\ reorgingSequencer v = false.
Proof.
  unfold pastCurrentHeight.
  destruct (Z.gtb_spec (fromValue v) (currentHeight v)) as [Hgt | Hle];
    [| discriminate].
  destruct (missingDelayed v), (reorgingDelayed v), (missingSequencer v),
    (reorgingSequencer v); simpl; try discriminate.
  intros _. repeat split; try reflexivity. lia.
Qed.

(** The range scan of a pass ends, other than by an error or a shutdown,
    only when [from] has gone past [currentHeight] with nothing missing and
    no reorg flag up: a pass is not completed while entries are missing or
    a reorg is unresolved. *)
Theorem scan_ends_clean (fuel : nat) : forall (v v' : ScanVars) (s : State W),
  outcomeOf (scanLoop C firstMessageBlock fuel v s) = Val v' ->
  fromValue v' > currentHeight v' /\
  missingDelayed v' = false /\ reorgingDelayed v' = false /\
  missingSequencer v' = false /\ reorgingSequencer v' = false.
Proof.
  assert (H : forall v s,
            wp (scanLoop C firstMessageBlock fuel v)
               (fun r _ _ => forall v', r = Val v' -> pastCurrentHeight v' = None) s).
  { induction fuel as [| fuel IH]; intros v s; simpl.
    - wp_go idtac. discriminate.
    - apply wp_bind.
      wp_use (@scanIteration_breaks_past).
      destruct r as [[v1 | ] | x | ]; try discriminate.
      + wp_use IH. assumption.
      + wp_go idtac. intros v' [= <-]. apply H. reflexivity. }
  intros v v' s Hout. apply pastCurrentHeight_None.
  specialize (H v s). unfold wp in H. unfold outcomeOf in Hout.
  destruct (scanLoop C firstMessageBlock fuel v s) as [[r s'] t].
  simpl in Hout. apply H. exact Hout.
Qed.
Lemma writes_trackerRead ev : trackerRead ev -> ~ writes ev.
Proof. destruct ev; simpl; tauto. Qed.

(** An iteration of the range scan that ends with [reorgingSequencer] up
    has handed nothing to the tracker and has published nothing: the
    batches that do not chain onto the tracker are not applied. *)
Theorem reorging_iteration_adds_nothing (v : ScanVars) (s : State W) :
  let result := scanIteration C firstMessageBlock v s in
  match outcomeOf result with
  | Val (Some v') =>
      reorgingSequencer v' = true ->
      Forall (fun ev => ~ writes ev) (traceOf result) /\
      lastReadBlock (reader (stateOf result)) = lastReadBlock (reader s) /\
      lastReadBatchCount (reader (stateOf result)) = lastReadBatchCount (reader s) /\
      lastSeenBatchCount (reader (stateOf result)) = lastSeenBatchCount (reader s)
  | _ => True
  end.
Proof.
  assert (Hit : wp (scanIteration C firstMessageBlock v)
                   (fun r s' t =>
                      match r with
                      | Val (Some v') =>
                          reorgingSequencer v' = true ->
                          Forall (fun ev => ~ writes ev) t /\
                          lastReadBlock (reader s') = lastReadBlock (reader s) /\
                          lastReadBatchCount (reader s') = lastReadBatchCount (reader s) /\
                          lastSeenBatchCount (reader s') = lastSeenBatchCount (reader s)
                      | _ => True
                      end) s).
  { unfold scanIteration.
    wp_go ltac:(first [ wp_use (@analyseSequencer_frame W C)
                      | wp_use (@analyseDelayed_frame W C)
                      | unfold applyBundle, addMessages, publishRead, advance,
                          signalCaughtUp, storeSeenBatchCount ]);
      try exact I;
      unfold keepsReader in *; cbn in *;
      repeat match goal with
             | H : _ /\ _ |- _ => destruct H
             | H : _ && _ = true |- _ => apply andb_prop in H
             | H : negb _ = true |- _ => apply negb_true_iff in H
             end;
      intros Hup; try congruence;
      (split;
       [ repeat (first [ apply Forall_app; split
                       | apply Forall_nil
                       | apply Forall_cons; [solve [simpl; tauto] |]
                       | solve [ eapply Forall_impl; [| eassumption];
                                 apply writes_trackerRead ] ])
       | repeat match goal with
                | H : reader _ = _ |- _ => rewrite H in *; clear H
                end;
         cbn; repeat split; reflexivity ]). }
  unfold wp in Hit. cbv zeta. unfold outcomeOf, stateOf, traceOf.
  destruct (scanIteration C firstMessageBlock v s) as [[r s'] t]. exact Hit.
Qed.
Lemma publishes_app_l t1 t2 : publishes t1 -> publishes (t1 ++ t2).
Proof.
  intros [block [batchCount Hin]]. exists block, batchCount.
  apply in_or_app. auto.
Qed.

Lemma publishes_app_r t1 t2 : publishes t2 -> publishes (t1 ++ t2).
Proof.
  intros [block [batchCount Hin]]. exists block, batchCount.
  apply in_or_app. auto.
Qed.

Lemma publishes_cons ev t : publishes t -> publishes (ev :: t).
Proof. apply (publishes_app_r [ev]). Qed.

Lemma publishes_here block batchCount t :
  publishes (StoreLastRead block batchCount :: t).
Proof. exists block, batchCount. left. reflexivity. Qed.

Ltac publishes_solve :=
  solve [ repeat (first [ assumption
                        | apply publishes_here
                        | apply publishes_app_l; assumption
                        | apply publishes_app_r
                        | apply publishes_cons ]) ].

Lemma scanIteration_publishes v s :
  wp (scanIteration C firstMessageBlock v)
     (fun r _ t =>
        forall v', r = Val (Some v') -> readAnyBatches v' = true ->
          readAnyBatches v = true \/ publishes t) s.
Proof.
  unfold scanIteration.
  wp_go ltac:(first [ wp_use (@analyseSequencer_frame W C)
                    | wp_use (@analyseDelayed_frame W C)
                    | unfold applyBundle, addMessages, publishRead, advance,
                        signalCaughtUp, storeSeenBatchCount ]);
    try discriminate;
    intros v' [= <-]; cbn; intros Hread;
    repeat match goal with
           | H : pastCurrentHeight _ = Some _ |- _ =>
               unfold pastCurrentHeight in H;
               repeat match type of H with
                      | context [if ?c then _ else _] => destruct c
                      end;
               try discriminate; injection H as <-
           end;
    cbn in *;
    first [ left; assumption | right; publishes_solve ].
Qed.

Lemma scanLoop_publishes fuel : forall v s,
  wp (scanLoop C firstMessageBlock fuel v)
     (fun r _ t =>
        forall v', r = Val v' -> readAnyBatches v' = true ->
          readAnyBatches v = true \/ publishes t) s.
Proof.
  induction fuel as [| fuel IH]; intros v s; simpl.
  - wp_go idtac. discriminate.
  - wp_go ltac:(first [ wp_use scanIteration_publishes | wp_use IH ]);
      try discriminate.
    + intros v' Hv Hread.
      match goal with
      | H : forall v1, _ = Val v1 -> _ -> readAnyBatches ?mid = true \/ _,
        H' : forall v1, Val (Some ?mid) = Val (Some v1) -> _ |- _ =>
          destruct (H v' Hv Hread) as [Hmid | Hpub];
          [ destruct (H' mid eq_refl Hmid) as [Hold | Hpub] |]
      end;
      first [ left; assumption | right; publishes_solve ].
    + intros v' [= <-] Hread. left. assumption.
Qed.

(** Every pass that is completed has published the last-read counters:
    in passing, when it applied batches, or at its end. *)
Theorem completed_pass_publishes (fuel : nat) (from : Z) (s : State W) :
  forall from',
    outcomeOf (pass C config firstMessageBlock fuel from s) = Val from' ->
    publishes (traceOf (pass C config firstMessageBlock fuel from s)).
Proof.
  assert (Hpass : wp (pass C config firstMessageBlock fuel from)
                     (fun r _ t => forall from', r = Val from' -> publishes t) s).
  { unfold pass, passAt, passEpilogue.
    wp_go ltac:(first [ wp_use (@pacing_frame W C)
                      | wp_use (@probeDelayed_frame W C)
                      | wp_use (@probeSequencer_frame W C)
                      | wp_use scanLoop_publishes
                      | unfold storeSeenBatchCount ]);
      try discriminate; intros from' _;
      try solve [publishes_solve];
      match goal with
      | Hb : negb (readAnyBatches ?v) = false,
        H : forall v1, Val ?v = Val v1 -> _ |- _ =>
          apply negb_false_iff in Hb;
          destruct (H v eq_refl Hb) as [Hold | Hpub];
          [discriminate Hold | publishes_solve]
      end. }
  intros from' Hout. unfold wp in Hpass. unfold outcomeOf, traceOf in *.
  destruct (pass C config firstMessageBlock fuel from s) as [[r s'] t].
  simpl in *. exact (Hpass from' Hout).
Qed.
End PassSteps.
(** ** Concrete runs for the further properties *)

Section Runs2.
Import Sim Scenarios.

Lemma sim_neverShutDown (sc : Scenario) :
  (forall n, cancelledAt sc n = false) -> neverShutDown (collaborators sc).
Proof.
  intros Hno. split.
  - intros w. simpl. apply Hno.
  - intros checkDelay w. simpl. rewrite Hno.
    destruct (headAt sc (S (clock w)) >? headAt sc (clock w)); exact I.
Qed.

Lemma rising_timerNeverFires : timerNeverFires (collaborators risingChain).
Proof.
  intros checkDelay w. cbn -[Z.of_nat].
  destruct (Z.gtb_spec (Z.of_nat (S (clock w))) (Z.of_nat (clock w))) as [_ | Hle];
    [discriminate | lia].
Qed.

(** From block 25 with [firstMessageBlock = 10] the walk gives 15, then
    10, and fails at the third step. *)
Lemma walkBack_spec_witness :
  walkBack 10 1 25 = Ok 15 /\
  walkBack 10 2 25 = Ok 10 /\
  walkBack 10 3 25 = Err (errorString "can't get older messages").
Proof.
  split; [| split].
  - apply (proj1 (@walkBack_spec 10 1 25 ltac:(lia))). lia.
  - apply (proj1 (@walkBack_spec 10 2 25 ltac:(lia))). lia.
  - apply (proj2 (@walkBack_spec 10 3 25 ltac:(lia))). lia.
Defined.

(** An empty tracker has no metadata for batch 1; with the tracker filled
    and the parent chain failing at the second call, the range query
    fails. *)
Lemma GetSequencerMessageBytes_errors_witness :
  outcomeOf (GetSequencerMessageBytes (quietChain 20) 1 (fresh genesis))
  = Exit (errorString "no metadata for batch") /\
  outcomeOf (GetSequencerMessageBytes (collaborators (chain 20 (failAt 1) 42 no)) 1
               (fresh synced))
  = Exit (errorString "connection refused").
Proof.
  split.
  - destruct (@GetSequencerMessageBytes_errors World (quietChain 20) 1 (fresh genesis))
      as [Hmeta _].
    apply (Hmeta (errorString "no metadata for batch") (tick genesis)).
    reflexivity.
  - destruct (@GetSequencerMessageBytes_errors World
                (collaborators (chain 20 (failAt 1) 42 no)) 1 (fresh synced))
      as [_ [Hquery _]].
    apply (Hquery {| L1Block := 15 |} (tick synced)
                  (errorString "connection refused") (tick (tick synced)));
      reflexivity.
Defined.

(** A tracker that fails at the first poll; a filled tracker that fails at
    the read of delayed message 0; a delayed message 0 that does not
    parse. *)
Lemma Start_errors_witness :
  outcomeOf (Start (collaborators (chain 20 (failAt 0) 42 no)) (fresh genesis))
  = Exit (errorString "connection refused") /\
  outcomeOf (Start (collaborators (chain 20 (failAt 1) 42 no)) (fresh synced))
  = Exit (errorString "connection refused") /\
  outcomeOf (Start (quietChain 20) (fresh badInit))
  = Exit (errorString "invalid init message").
Proof.
  split; [| split].
  - eapply (proj1 (@Start_errors World (collaborators (chain 20 (failAt 0) 42 no))
                     (fresh genesis)) 0%nat);
      [lia | reflexivity | reflexivity].
  - edestruct (proj2 (@Start_errors World (collaborators (chain 20 (failAt 1) 42 no))
                        (fresh synced)) 0%nat) as [Hmsg _];
      [lia | vm_compute; reflexivity | vm_compute; reflexivity
       | vm_compute; reflexivity |].
    eapply Hmsg. reflexivity.
  - edestruct (proj2 (@Start_errors World (quietChain 20) (fresh badInit)) 0%nat)
      as [_ Hparse]; [lia | vm_compute; reflexivity | vm_compute; reflexivity
       | vm_compute; reflexivity |].
    eapply Hparse; reflexivity.
Defined.

(** The reader loop on the chain of the cold start, with the parent chain
    failing at its twentieth call: the first pass reads three batches, the
    batch-count query of the second pass fails, and [run] returns with
    [lastSeenBatchCount] brought to 0. *)
Lemma run_stores_seen_on_return_witness :
  let result :=
    run (collaborators (chain 20 (failAt 19) 42 no)) TestInboxReaderConfig 10 3
        (fresh genesis) in
  outcomeOf result = Exit (Some (errorString "connection refused")) /\
  seenBatchCount (stateOf result) = 0 /\
  lastSeenBatchCount (reader (stateOf result)) = 0.
Proof.
  intros result.
  assert (Hout : outcomeOf result = Exit (Some (errorString "connection refused")))
    by (vm_compute; reflexivity).
  assert (Hseen : seenBatchCount (stateOf result) = 0) by (vm_compute; reflexivity).
  split; [exact Hout |]. split; [exact Hseen |].
  destruct (@run_stores_seen_on_return World
              (collaborators (chain 20 (failAt 19) 42 no)) TestInboxReaderConfig 10 3
              (fresh genesis) 10) as [Hsync | [Hmax _]].
  - vm_compute. reflexivity.
  - fold result. rewrite Hout. discriminate.
  - fold result in Hsync. rewrite Hsync. exact Hseen.
  - fold result in Hmax. rewrite Hseen in Hmax. discriminate Hmax.
Defined.

(** The same run returns an error, not [nil]: nothing shut it down. *)
Lemma run_nil_only_on_shutdown_witness :
  neverShutDown (collaborators (chain 20 (failAt 19) 42 no)) /\
  outcomeOf (run (collaborators (chain 20 (failAt 19) 42 no)) TestInboxReaderConfig
               10 3 (fresh genesis)) <> Exit None.
Proof.
  assert (Hup : neverShutDown (collaborators (chain 20 (failAt 19) 42 no)))
    by (apply sim_neverShutDown; reflexivity).
  split; [exact Hup |].
  apply (@run_nil_only_on_shutdown World _ TestInboxReaderConfig 10 Hup).
Defined.

(** With [DelayBlocks = 5] and [MinBlocksToRead = 1] a pass from block 10
    waits, on the rising chain, until the head is at block 15. *)
Lemma pacing_waits_for_blocks_witness :
  timerNeverFires (collaborators risingChain) /\
  outcomeOf (pacing (collaborators risingChain) delayedConfig 30 10 (fresh genesis))
  = Val 15 /\
  10 + neededBlockAdvance delayedConfig <= 15.
Proof.
  split; [exact rising_timerNeverFires |].
  assert (Hout : outcomeOf (pacing (collaborators risingChain) delayedConfig 30 10
                              (fresh genesis)) = Val 15)
    by (vm_compute; reflexivity).
  split; [exact Hout |].
  exact (@pacing_waits_for_blocks World (collaborators risingChain) delayedConfig
           30 10 (fresh genesis) rising_timerNeverFires 15 Hout).
Defined.

(** The pass after the cold start finds nothing to do: the next pass is to
    start at block 21, and the counters are 20, 3 and 3. *)
Lemma idle_pass_witness :
  let s := stateOf (pass (quietChain 20) TestInboxReaderConfig 10 10 10 (fresh genesis)) in
  let result := passAt (quietChain 20) TestInboxReaderConfig 10 10 21 20 s in
  outcomeOf result = Val 21 /\
  lastReadBlock (reader (stateOf result)) = BigUint64 20 /\
  lastReadBatchCount (reader (stateOf result)) = 3 /\
  lastSeenBatchCount (reader (stateOf result)) = 3.
Proof.
  intros s result.
  edestruct (@idle_pass World (quietChain 20) TestInboxReaderConfig 10 10 21 20 s)
    with (before := reader s) as [Hout [_ [Hblock [Hcount Hseen]]]];
    [vm_compute; reflexivity | vm_compute; reflexivity |].
  split; [exact Hout |]. split; [exact Hblock |]. split; [exact Hcount |].
  apply Hseen.
  - right. vm_compute. reflexivity.
  - vm_compute. discriminate.
Defined.

(** The range scan of the cold start ends with [from] at block 21, above
    [currentHeight = 20], and all flags down. *)
Lemma scan_ends_clean_witness :
  let v := scanStart 20 10 true false true false in
  exists v',
    outcomeOf (scanLoop (quietChain 20) 10 10 v (fresh genesis)) = Val v' /\
    fromValue v' = 21 /\ currentHeight v' = 20 /\
    missingDelayed v' = false /\ missingSequencer v' = false.
Proof.
  intros v. eexists. split; [vm_compute; reflexivity |].
  split; [reflexivity |]. split; [reflexivity |].
  destruct (@scan_ends_clean World (quietChain 20) 10 10 v _ (fresh genesis)
              ltac:(vm_compute; reflexivity)) as [_ [Hmd [_ [Hms _]]]].
  split; [exact Hmd | exact Hms].
Defined.

(** On an empty tracker, a scan from block 13 finds batch 1 first, which
    chains onto nothing: the iteration raises [reorgingSequencer], hands
    nothing to the tracker and steps back to block 10. *)
Lemma reorging_iteration_adds_nothing_witness :
  let v := scanStart 20 13 true false true false in
  let result := scanIteration (quietChain 20) 10 v (fresh genesis) in
  exists v',
    outcomeOf result = Val (Some v') /\
    reorgingSequencer v' = true /\
    fromValue v' = 10 /\
    Forall (fun ev => ~ writes ev) (traceOf result) /\
    lastReadBlock (reader (stateOf result)) = 0.
Proof.
  intros v result.
  pose proof (@reorging_iteration_adds_nothing World (quietChain 20) 10 v
                (fresh genesis)) as H.
  cbv zeta in H. fold result in H.
  assert (Hout : outcomeOf result
                 = Val (Some {| currentHeight := 20; from := FromOwn 10;
                                missingDelayed := true; reorgingDelayed := true;
                                missingSequencer := false; reorgingSequencer := true;
                                readAnyBatches := false |}))
    by (vm_compute; reflexivity).
  rewrite Hout in H. destruct (H eq_refl) as [Hnone [Hblock _]].
  eexists. split; [exact Hout |]. split; [reflexivity |]. split; [reflexivity |].
  split; [exact Hnone | exact Hblock].
Defined.
(** On a filled tracker with the configured chain-id, [Start] succeeds,
    and delayed message 0 parses to that chain-id. *)
Lemma Start_succeeds_only_on_match_witness :
  outcomeOf (Start (quietChain 20) (fresh synced)) = Val tt /\
  exists w message w',
    InboxTracker.GetDelayedMessage (tracker (quietChain 20)) 0 w = (Ok message, w') /\
    Runtime.ParseInitMessage (runtime (quietChain 20)) message = Ok 42.
Proof.
  assert (Hout : outcomeOf (Start (quietChain 20) (fresh synced)) = Val tt)
    by (vm_compute; reflexivity).
  split; [exact Hout |].
  exact (@Start_succeeds_only_on_match World (quietChain 20) (fresh synced) Hout).
Defined.

(** The cold start is completed and has published. *)
Lemma completed_pass_publishes_witness :
  outcomeOf (pass (quietChain 20) TestInboxReaderConfig 10 10 10 (fresh genesis))
  = Val 21 /\
  publishes (traceOf (pass (quietChain 20) TestInboxReaderConfig 10 10 10
                           (fresh genesis))).
Proof.
  assert (Hout : outcomeOf (pass (quietChain 20) TestInboxReaderConfig 10 10 10
                              (fresh genesis)) = Val 21)
    by (vm_compute; reflexivity).
  split; [exact Hout |].
  exact (@completed_pass_publishes World (quietChain 20) TestInboxReaderConfig 10
           10 10 (fresh genesis) 21 Hout).
Defined.
End Runs2.
